(** * inject: a dependency-injection container

    A shallow embedding of the container's registry ([definitions]),
    of the function-provider wrapper and of the container's compile and
    populate pipeline, with the properties of its specification.

    Go pointers to definitions are locations of a store, so that the
    aliasing between the exact map, the capability lists and the edge
    lists is the one of the program.  A Go function returning
    [(T, error)] becomes a function into [outcome T]; a run-time panic
    is an outcome of its own, and so is a recursion that does not end.
    What package reflect does is modelled as far as the container uses
    it.  The methods of a definition ([init], [visit]) and
    [createDefinition] are not among the sources and follow the
    specification.

    The file has the model first (types, storage, provider wrapper,
    container), then example containers and the predicates of the
    specification, then the properties: storage (C1, C2), wiring (C9),
    cycle detection (C4), instantiation (C3), the provider wrapper (C7),
    construction (C8), modifiers (C5) and Populate (C6, C10), and then
    further properties of the storage, of the provider wrapper, of
    [apply], of construction and of [Populate] (X1 to X16). *)

From stdpp Require Import base option countable strings gmap list.

Open Scope string_scope.
Open Scope list_scope.
Open Scope nat_scope.
Local Set Warnings "-register-all".

(** ** Type descriptors ([reflect.Type]) *)

(** A type descriptor carries what the program asks of [reflect.Type]:
    the kind, the element type of a pointer, the inputs and outputs of a
    function type, and the method set (method names) used by
    [Implements]. *)
Inductive rtype : Type :=
  | TBase (name : string) (vmethods pmethods : list string)
  | TIface (name : string) (methods : list string)
  | TPtr (elem : rtype)
  | TFunc (ins outs : list rtype).

Inductive Kind : Type := KStruct | KInterface | KPtr | KFunc.

Definition kindOf (t : rtype) : Kind :=
  match t with
  | TBase _ _ _ => KStruct
  | TIface _ _ => KInterface
  | TPtr _ => KPtr
  | TFunc _ _ => KFunc
  end.

Global Instance Kind_eq_dec : EqDecision Kind.
Proof. solve_decision. Defined.

Module RTypeCode.
Definition leaf : Type := string * list string * list string.

Fixpoint enc (t : rtype) : gen_tree leaf :=
    match t with
    | TBase n vm pm => GenNode 0 [GenLeaf (n, vm, pm)]
    | TIface n ms => GenNode 1 [GenLeaf (n, ms, [])]
    | TPtr e => GenNode 2 [enc e]
    | TFunc ins outs =>
        GenNode 3 [GenNode 0 (map enc ins); GenNode 0 (map enc outs)]
    end.

Fixpoint dec (g : gen_tree leaf) : option rtype :=
    match g with
    | GenNode 0 [GenLeaf (n, vm, pm)] => Some (TBase n vm pm)
    | GenNode 1 [GenLeaf (n, ms, _)] => Some (TIface n ms)
    | GenNode 2 [g'] => TPtr <$> dec g'
    | GenNode 3 [GenNode _ gi; GenNode _ go] =>
        let decs := fix decs (l : list (gen_tree leaf)) : option (list rtype) :=
          match l with
          | [] => Some []
          | x :: r =>
              match dec x, decs r with
              | Some t, Some ts => Some (t :: ts)
              | _, _ => None
              end
          end in
        match decs gi, decs go with
        | Some i, Some o => Some (TFunc i o)
        | _, _ => None
        end
    | _ => None
    end.

Section Ind.
Variable P : rtype → Prop.
Hypothesis Hbase : ∀ n vm pm, P (TBase n vm pm).
Hypothesis Hiface : ∀ n ms, P (TIface n ms).
Hypothesis Hptr : ∀ e, P e → P (TPtr e).
Hypothesis Hfunc : ∀ ins outs, Forall P ins → Forall P outs → P (TFunc ins outs).

Fixpoint rtype_ind' (t : rtype) : P t :=
      match t with
      | TBase n vm pm => Hbase n vm pm
      | TIface n ms => Hiface n ms
      | TPtr e => Hptr e (rtype_ind' e)
      | TFunc ins outs =>
          let all := fix all (l : list rtype) : Forall P l :=
            match l with
            | [] => Forall_nil_2 P
            | x :: r => Forall_cons_2 P x r (rtype_ind' x) (all r)
            end in
          Hfunc ins outs (all ins) (all outs)
      end.
End Ind.

Lemma dec_enc (t : rtype) : dec (enc t) = Some t.
Proof.
    induction t as [n vm pm|n ms|e IH|ins outs IHi IHo] using rtype_ind'; simpl.
    - done.
    - done.
    - by rewrite IH.
    - assert (Hl : ∀ l, Forall (λ t, dec (enc t) = Some t) l →
        (fix decs (l : list (gen_tree leaf)) : option (list rtype) :=
          match l with
          | [] => Some []
          | x :: r =>
              match dec x, decs r with
              | Some t, Some ts => Some (t :: ts)
              | _, _ => None
              end
          end) (map enc l) = Some l).
      { induction 1 as [|x r Hx _ IH]; simpl; [done|]. by rewrite Hx, IH. }
      by rewrite (Hl _ IHi), (Hl _ IHo).
Qed.
End RTypeCode.

Global Instance rtype_eq_dec : EqDecision rtype.
Proof.
  intros x y.
  destruct (decide (RTypeCode.enc x = RTypeCode.enc y)) as [E|N].
  - left. apply (f_equal RTypeCode.dec) in E.
    rewrite !RTypeCode.dec_enc in E. congruence.
  - right. congruence.
Defined.

Global Instance rtype_countable : Countable rtype :=
  inj_countable RTypeCode.enc RTypeCode.dec RTypeCode.dec_enc.

(** [Type.Implements(u)]: every method of the interface [u] is in the
    method set of the type.  Methods are identified by name. *)
Definition methodSet (t : rtype) : list string :=
  match t with
  | TBase _ vm _ => vm
  | TIface _ ms => ms
  | TPtr (TBase _ vm pm) => vm ++ pm
  | _ => []
  end.

Definition Implements (t u : rtype) : bool :=
  match u with
  | TIface _ ms => forallb (λ m, bool_decide (m ∈ methodSet t)) ms
  | _ => false
  end.

(** [errorInterface]: the type descriptor of Go's [error] interface. *)
Definition errorInterface : rtype := TIface "error" ["Error"].

Definition NumIn (t : rtype) : option nat :=
  match t with TFunc ins _ => Some (length ins) | _ => None end.
Definition NumOut (t : rtype) : option nat :=
  match t with TFunc _ outs => Some (length outs) | _ => None end.
Definition In (t : rtype) (i : nat) : option rtype :=
  match t with TFunc ins _ => ins !! i | _ => None end.
Definition Out (t : rtype) (i : nat) : option rtype :=
  match t with TFunc _ outs => outs !! i | _ => None end.

(** ** Type identifiers *)

(** [type key struct { typ reflect.Type; name string }] *)
Record key : Type := Key { typ : rtype; name : string }.

Global Instance key_eq_dec : EqDecision key.
Proof. solve_decision. Defined.

Global Instance key_countable : Countable key :=
  inj_countable' (λ k, (typ k, name k)) (λ p, Key p.1 p.2)
    (λ k, match k with Key _ _ => eq_refl end).

(** [key{typ: t}]: the name qualifier is the empty string. *)
Definition keyOf (t : rtype) : key := Key t "".

(** ** Values *)

Definition loc : Type := nat.   (* a [*definition] *)
Definition addr : Type := nat.  (* a variable of the caller *)

(** The payload of a value.  An interface-typed slot holds [DNilIface]
    or a boxed value with its dynamic type. *)
Inductive data : Type :=
  | DNum (n : nat)
  | DAddr (a : option addr)
  | DFunc (f : option nat)
  | DNilIface
  | DBox (t : rtype) (d : data).

Global Instance data_eq_dec : EqDecision data.
Proof. solve_decision. Defined.

(** [interface{}] *)
Inductive any : Type :=
  | nil
  | box (t : rtype) (d : data).

Global Instance any_eq_dec : EqDecision any.
Proof. solve_decision. Defined.

(** [reflect.Value]: the zero Value, a value with its static type, or
    an addressable variable (what [Elem] of a pointer yields). *)
Inductive Value : Type :=
  | VZero
  | VVal (t : rtype) (d : data)
  | VRef (t : rtype) (a : addr).

Global Instance Value_eq_dec : EqDecision Value.
Proof. solve_decision. Defined.

(** ** Errors and outcomes *)

Inductive fmtarg : Type :=
  | FKey (k : key)
  | FType (t : rtype)
  | FDef (d : loc).

(** Errors of [github.com/pkg/errors], and the error values that user
    functions return. *)
Inductive error : Type :=
  | ENew (msg : string)
  | EErrorf (fmt : string) (a : fmtarg)
  | EWrap (cause : error) (msg : string)
  | EWrapf (cause : error) (fmt : string) (a : fmtarg)
  | EWithStack (cause : error)
  | EUser (t : rtype) (d : data).

Global Instance fmtarg_eq_dec : EqDecision fmtarg.
Proof. solve_decision. Defined.
Global Instance error_eq_dec : EqDecision error.
Proof. solve_decision. Defined.

(** [errors.Wrap] returns nil when the error is nil. *)
Definition Wrap (e : option error) (msg : string) : option error :=
  (λ c, EWrap c msg) <$> e.

(** The outcome of a Go call returning [(T, error)]. *)
Inductive outcome (A : Type) : Type :=
  | Ret (a : A)
  | Fail (e : error)
  | Panic (msg : string).
Arguments Ret {A} a.
Arguments Fail {A} e.
Arguments Panic {A} msg.

Definition obind {A B} (m : outcome A) (f : A → outcome B) : outcome B :=
  match m with
  | Ret a => f a
  | Fail e => Fail e
  | Panic s => Panic s
  end.

Definition is_err {A} (m : outcome A) : Prop := ∃ e, m = Fail e.

(** ** Providers and definitions *)

Inductive providerType : Type := providerTypeFunc | providerTypeStruct.

(** [type providerWrapper struct] *)
Record providerWrapper : Type := {
  pw_providerType : providerType;
  pw_providerValue : Value;
  pw_resultType : rtype;
}.

(** The traversal marks: [visitMarkUnmarked = iota] and its successors. *)
Inductive visitMark : Type :=
  | visitMarkUnmarked
  | visitMarkTemporary
  | visitMarkPermanent.

Global Instance visitMark_eq_dec : EqDecision visitMark.
Proof. solve_decision. Defined.

(** Modelled from the spec: the type of the [provider] field of a
    definition is declared outside the sources; the container reads its
    [arguments] ("declared argument identifiers, ordered"), and it owns
    the provider wrapper. *)
Record provider : Type := {
  p_wrapper : providerWrapper;
  p_arguments : list key;
}.

(** Modelled from the spec: the [definition] struct is declared in a file
    that is not among the sources.  The container and the storage read
    its fields [key], [implements], [provider], [in], [out] and
    [visited]; the memoized instance is the one of the Data Model
    ("memoized instance, absent until first successful construction"),
    the zero [reflect.Value] standing for absent. *)
Record definition : Type := {
  def_key : key;
  def_implements : list key;
  def_provider : provider;
  def_in : list loc;
  def_out : list loc;
  def_visited : visitMark;
  def_instance : Value;
}.

(** The store of definitions: what the [*definition] pointers point to. *)
Abbreviation heap := (gmap loc definition).

(** ** Definition storage (definition_storage.go) *)

Module Storage.

(** [type definitions struct] *)
Record definitions : Type := {
  keys : list key;
  defs : gmap key loc;
  implementations : gmap key (list loc);
}.

(** Reading a map of slices at a missing key yields the nil slice. *)
Definition claimants (s : definitions) (k : key) : list loc :=
  default [] (implementations s !! k).

(** [for _, key := range def.implements { s.implementations[key] =
    append(s.implementations[key], def) }] *)
Definition addImplements (def : loc) (m : gmap key (list loc)) (ks : list key)
    : gmap key (list loc) :=
  foldl (λ m k, <[k := default [] (m !! k) ++ [def]]> m) m ks.

(** [func (s *definitions) add(def *definition) (err error)]: the storage
    after the call, and the error. *)
Definition add (h : heap) (s : definitions) (def : loc)
    : definitions * outcome unit :=
  match h !! def with
  | None => (s, Panic "invalid memory address or nil pointer dereference")
  | Some d =>
      match defs s !! def_key d with
      | Some _ => (s, Fail (EErrorf "%s already provided" (FKey (def_key d))))
      | None =>
          ({| keys := keys s ++ [def_key d];
              defs := <[def_key d := def]> (defs s);
              implementations :=
                addImplements def (implementations s) (def_implements d) |},
           Ret ())
      end
  end.

(** [func (s *definitions) get(k key) (_ *definition, err error)] *)
Definition get (s : definitions) (k : key) : outcome loc :=
  match defs s !! k with
  | Some def => Ret def
  | None =>
      match claimants s k with
      | def :: _ => Ret def
      | [] => Fail (EErrorf "type %s not provided" (FKey k))
      end
  end.

(** [func (s *definitions) all() (defs []*definition)]: a key of the list
    that the map does not bind yields the nil pointer. *)
Definition all (s : definitions) : list (option loc) :=
  map (λ k, defs s !! k) (keys s).

(** The storage that [New] creates. *)
Definition empty : definitions :=
  {| keys := []; defs := ∅; implementations := ∅ |}.

(** Registering a sequence of definitions, as the first loop of [compile]
    does with the ones it creates: the first failure stops the loop. *)
Fixpoint addAll (h : heap) (s : definitions) (ps : list loc)
    : definitions * outcome unit :=
  match ps with
  | [] => (s, Ret ())
  | p :: ps' =>
      match add h s p with
      | (s', Ret _) => addAll h s' ps'
      | r => r
      end
  end.

(** How often [p] claims the capability [k]. *)
Definition claims (h : heap) (k : key) (p : loc) : nat :=
  match h !! p with
  | Some d => length (filter (λ k', k' = k) (def_implements d))
  | None => 0
  end.

End Storage.

(** ** The state of a run *)

(** One call of a user function through [reflect.Value.Call]: the
    definition on whose behalf the call is made (none for a modifier),
    the function and the arguments. *)
Record callev : Type := {
  ce_def : option loc;
  ce_fn : nat;
  ce_args : list Value;
}.

(** The definitions allocated so far, the variables of the caller that
    [Populate] writes to, and the calls of user functions made so far. *)
Record world : Type := {
  w_defs : heap;
  w_mem : gmap addr data;
  w_calls : list callev;
}.

Definition setDefs (w : world) (h : heap) : world :=
  {| w_defs := h; w_mem := w_mem w; w_calls := w_calls w |}.
Definition setMem (w : world) (m : gmap addr data) : world :=
  {| w_defs := w_defs w; w_mem := m; w_calls := w_calls w |}.
Definition setCalls (w : world) (l : list callev) : world :=
  {| w_defs := w_defs w; w_mem := w_mem w; w_calls := l |}.

(** A computation on a state [S] that returns, fails with an error,
    panics, or does not end ([Diverge]: the recursion ran out of fuel). *)
Inductive run (S A : Type) : Type :=
  | Done (s : S) (r : outcome A)
  | Diverge.
Arguments Done {S A} s r.
Arguments Diverge {S A}.

Definition M (S A : Type) : Type := S → run S A.

Definition ret {S A} (a : A) : M S A := λ s, Done s (Ret a).
Definition fail {S A} (e : error) : M S A := λ s, Done s (Fail e).
Definition panic {S A} (msg : string) : M S A := λ s, Done s (Panic msg).
Definition diverge {S A} : M S A := λ _, Diverge.

Definition bind {S A B} (m : M S A) (f : A → M S B) : M S B := λ s,
  match m s with
  | Done s' (Ret a) => f a s'
  | Done s' (Fail e) => Done s' (Fail e)
  | Done s' (Panic msg) => Done s' (Panic msg)
  | Diverge => Diverge
  end.

(** [if err != nil { return wrap(err) }] *)
Definition orWrap {S A} (m : M S A) (wrap : error → error) : M S A := λ s,
  match m s with
  | Done s' (Fail e) => Done s' (Fail (wrap e))
  | r => r
  end.

Definition getState {S} : M S S := λ s, Done s (Ret s).
Definition putState {S} (s : S) : M S unit := λ _, Done s (Ret ()).
Definition lift {S A} (o : outcome A) : M S A := λ s, Done s o.

Declare Scope go_scope.
Delimit Scope go_scope with go.
Notation "x <~ m ;; k" := (bind m (λ x, k))
  (at level 100, m at next level, right associativity) : go_scope.
Notation "m ;;; k" := (bind m (λ _, k))
  (at level 100, right associativity) : go_scope.
Open Scope go_scope.

(** [for _, x := range l { body }], where the body may return early with
    an error. *)
Fixpoint forEach {S A} (l : list A) (body : A → M S unit) : M S unit :=
  match l with
  | [] => ret ()
  | x :: l' => body x ;;; forEach l' body
  end.

(** A loop that collects a value per element: [args = append(args, arg)]. *)
Fixpoint collect {S A B} (l : list A) (body : A → M S B) : M S (list B) :=
  match l with
  | [] => ret []
  | x :: l' => y <~ body x ;; ys <~ collect l' body ;; ret (y :: ys)
  end.

(** ** The part of package reflect that the container uses *)

Definition ValueOf (a : any) : Value :=
  match a with nil => VZero | box t d => VVal t d end.

Definition TypeOf (a : any) : option rtype :=
  match a with nil => None | box t _ => Some t end.

Definition IsValid (v : Value) : bool :=
  match v with VZero => false | _ => true end.

(** [Value.Type]; it panics on the zero Value. *)
Definition Type_ (v : Value) : option rtype :=
  match v with VZero => None | VVal t _ | VRef t _ => Some t end.

(** [Value.Kind]: [None] is [reflect.Invalid]. *)
Definition Kind_ (v : Value) : option Kind := kindOf <$> Type_ v.

(** [Value.IsNil], on a value that [ValueOf] made. *)
Definition IsNil (v : Value) : bool :=
  match v with
  | VVal _ (DAddr None) | VVal _ (DFunc None) | VVal _ DNilIface => true
  | _ => false
  end.

(** [Value.Elem]: the variable a pointer points to, or the value inside
    an interface; it panics ([None]) on every other kind. *)
Definition elemOf (t : rtype) (d : data) : option Value :=
  match t, d with
  | TPtr e, DAddr (Some a) => Some (VRef e a)
  | TPtr e, DAddr None => Some VZero
  | TIface _ _, DBox t' d' => Some (VVal t' d')
  | TIface _ _, DNilIface => Some VZero
  | _, _ => None
  end.

Definition Elem (m : gmap addr data) (v : Value) : option Value :=
  match v with
  | VZero => None
  | VVal t d => elemOf t d
  | VRef t a => d ← m !! a; elemOf t d
  end.

(** [Value.Interface]: the value as an [interface{}]; a nil interface
    value yields nil. *)
Definition boxed (t : rtype) (d : data) : any :=
  match d with
  | DNilIface => nil
  | DBox t' d' => box t' d'
  | _ => box t d
  end.

Definition Interface (m : gmap addr data) (v : Value) : option any :=
  match v with
  | VZero => None
  | VVal t d => Some (boxed t d)
  | VRef t a => boxed t <$> m !! a
  end.

(** The type assertion [x.(error)]: it panics ([None]) on nil and on a
    dynamic type that has no [Error] method. *)
Definition assertError (x : any) : option error :=
  match x with
  | nil => None
  | box t d => if Implements t errorInterface then Some (EUser t d) else None
  end.

(** A value of type [ts] may be stored in a variable of type [td]. *)
Definition assignable (ts td : rtype) : bool :=
  bool_decide (ts = td) ||
  (bool_decide (kindOf td = KInterface) && Implements ts td).

Definition stored (ts td : rtype) (d : data) : data :=
  match kindOf td, kindOf ts with
  | KInterface, KInterface => d
  | KInterface, _ => DBox ts d
  | _, _ => d
  end.

(** [dst.Set(src)]: it panics ([None]) unless [dst] is a variable and
    [src] is assignable to it. *)
Definition Set_ (m : gmap addr data) (dst src : Value) : option (gmap addr data) :=
  match dst with
  | VRef td a =>
      match src with
      | VZero => None
      | VVal ts d =>
          if assignable ts td then Some (<[a := stored ts td d]> m) else None
      | VRef ts a' =>
          d ← m !! a';
          if assignable ts td then Some (<[a := stored ts td d]> m) else None
      end
  | _ => None
  end.

Fixpoint argsMatch (args : list Value) (ins : list rtype) : bool :=
  match args, ins with
  | [], [] => true
  | v :: args', t :: ins' =>
      match Type_ v with
      | Some tv => assignable tv t && argsMatch args' ins'
      | None => false
      end
  | _, _ => false
  end.

(** ** Options of the container *)

Inductive Logger : Type := defaultLogger | userLogger (id : nat).

(** [type providerOptions struct] *)
Record providerOptions : Type := {
  po_provider : any;
  po_name : string;
  po_implements : list any;
}.

(** [type modifierOptions struct] *)
Record modifierOptions : Type := { mo_modifier : any }.

(** [type Container struct] *)
Record Container : Type := {
  logger : option Logger;
  providers : list providerOptions;
  modifiers : list modifierOptions;
  storage : Storage.definitions;
}.

Definition setStorage (c : Container) (s : Storage.definitions) : Container :=
  {| logger := logger c; providers := providers c;
     modifiers := modifiers c; storage := s |}.
Definition setLogger (c : Container) (l : option Logger) : Container :=
  {| logger := l; providers := providers c;
     modifiers := modifiers c; storage := storage c |}.

(** The [Option] interface is declared outside the sources; an option is
    what its [apply] method does to the container. *)
Definition Option : Type := Container → Container.

(** [var errIncorrectProviderType], [var errIncorrectModifierSignature].
    The provider wrapper names the first [ErrIncorrectProviderType]. *)
Definition errIncorrectProviderType : error :=
  ENew "value must be a function with value and optional error as result".
Definition ErrIncorrectProviderType : error := errIncorrectProviderType.
Definition errIncorrectModifierSignature : error :=
  ENew "modifier must be a function with optional error as result".

Definition nilDeref : string := "invalid memory address or nil pointer dereference".

Section Inject.

(** The user functions: [code f log args i] is output [i] of function [f]
    called with [args] after the calls [log]. *)
Variable code : nat → list callev → list Value → nat → data.

(** The [ProvideOption] type is declared outside the sources. *)
Variable ProvideOption : Type.

(** [Value.Call]: it panics unless the value is a non-nil function and
    the arguments fit its inputs; the call is logged, for the definition
    [for_] when a definition makes it. *)
Definition Call (for_ : option loc) (fv : Value) (args : list Value)
    : M world (list Value) :=
  match fv with
  | VVal (TFunc ins outs) (DFunc (Some f)) =>
      if argsMatch args ins then
        w <~ getState ;;
        putState (setCalls w (w_calls w ++
          [{| ce_def := for_; ce_fn := f; ce_args := args |}])) ;;;
        ret (imap (λ i t, VVal t (code f (w_calls w) args i)) outs)
      else panic "reflect: Call with mismatched arguments"
  | _ => panic "reflect: call of a value that is not a function"
  end.

(** *** The provider wrapper *)

(** [ptype.Out(i).Implements(u)], asked only of an output that exists. *)
Definition outImplements (ptype : option rtype) (i : nat) (u : rtype) : bool :=
  match ptype ≫= (λ t, Out t i) with
  | Some o => Implements o u
  | None => false
  end.

(** [func newFuncProvider(provider interface{})], returning a wrapper or
    an error. *)
Definition newFuncProvider (provider : any) : M world providerWrapper :=
  let ptype := TypeOf provider in
  let pvalue := ValueOf provider in
  match ptype ≫= NumOut with
  | None => panic "reflect: NumOut of non-func type"
  | Some n =>
      if bool_decide (n ≤ 0)%nat || bool_decide (2 < n)%nat then
        fail (EWithStack ErrIncorrectProviderType)
      else if bool_decide (n = 2%nat) &&
              negb (outImplements ptype 1 errorInterface) then
        fail (EWithStack ErrIncorrectProviderType)
      else
        match Type_ pvalue ≫= λ t, Out t 0 with
        | None => panic "reflect: Out index out of range"
        | Some resultType =>
            ret {| pw_providerType := providerTypeFunc;
                   pw_providerValue := pvalue;
                   pw_resultType := resultType |}
        end
  end.

(** [func newStructProvider(provider interface{})] *)
Definition newStructProvider (provider : any) : M world providerWrapper :=
  fail (ENew "struct provider not implemented yet").

(** [func (w *providerWrapper) args() (args []key)]; [None] is the panic
    of [NumIn] on a type that is not a function type. *)
Definition args (w : providerWrapper) : option (list key) :=
  match pw_providerType w with
  | providerTypeFunc =>
      t ← Type_ (pw_providerValue w);
      n ← NumIn t;
      mapM (λ i, keyOf <$> In t i) (seq 0 n)
  | providerTypeStruct => Some []
  end.

(** *** Definitions *)

Definition deref (p : loc) : M world definition := λ w,
  match w_defs w !! p with
  | Some d => Done w (Ret d)
  | None => Done w (Panic nilDeref)
  end.

Definition derefOpt (p : option loc) : M world definition :=
  match p with
  | Some p => deref p
  | None => panic nilDeref
  end.

(** An assignment through a pointer to a definition. *)
Definition update (p : loc) (f : definition → definition) : M world unit :=
  d <~ deref p ;;
  w <~ getState ;;
  putState (setDefs w (<[p := f d]> (w_defs w))).

Definition setIn (l : list loc) (d : definition) : definition :=
  {| def_key := def_key d; def_implements := def_implements d;
     def_provider := def_provider d; def_in := l; def_out := def_out d;
     def_visited := def_visited d; def_instance := def_instance d |}.
Definition setOut (l : list loc) (d : definition) : definition :=
  {| def_key := def_key d; def_implements := def_implements d;
     def_provider := def_provider d; def_in := def_in d; def_out := l;
     def_visited := def_visited d; def_instance := def_instance d |}.
Definition setVisited (m : visitMark) (d : definition) : definition :=
  {| def_key := def_key d; def_implements := def_implements d;
     def_provider := def_provider d; def_in := def_in d; def_out := def_out d;
     def_visited := m; def_instance := def_instance d |}.
Definition setInstance (v : Value) (d : definition) : definition :=
  {| def_key := def_key d; def_implements := def_implements d;
     def_provider := def_provider d; def_in := def_in d; def_out := def_out d;
     def_visited := def_visited d; def_instance := v |}.

(** Modelled from the spec: the capability identifier of a declared
    capability (the conversion is part of [createDefinition], which is
    not among the sources): a capability is declared by a pointer to it,
    and a nil declaration has no type to ask. *)
Definition capabilityKey (x : any) : option key :=
  match TypeOf x with
  | Some (TPtr e) => Some (keyOf e)
  | Some t => Some (keyOf t)
  | None => None
  end.

(** Modelled from the spec: [createDefinition] is not among the sources.
    "Wrap it (4.1)": a callable is wrapped by [newFuncProvider], any
    other provider is the literal variant, which "fails unconditionally";
    the identifier is the result identifier with the registration's name;
    the edge lists are "empty before" wiring, the mark is unmarked and
    the instance is absent. *)
Definition createDefinition (po : providerOptions) : M world loc :=
  wrapper <~ (match Kind_ (ValueOf (po_provider po)) with
              | Some KFunc => newFuncProvider (po_provider po)
              | _ => newStructProvider (po_provider po)
              end) ;;
  arguments <~ (match args wrapper with
                | Some l => ret l
                | None => panic "reflect: NumIn of non-func type"
                end) ;;
  implements <~ (match mapM capabilityKey (po_implements po) with
                 | Some l => ret l
                 | None => panic nilDeref
                 end) ;;
  w <~ getState ;;
  let p := fresh (dom (w_defs w)) in
  putState (setDefs w (<[p :=
    {| def_key := Key (pw_resultType wrapper) (po_name po);
       def_implements := implements;
       def_provider := {| p_wrapper := wrapper; p_arguments := arguments |};
       def_in := []; def_out := [];
       def_visited := visitMarkUnmarked;
       def_instance := VZero |}]> (w_defs w))) ;;;
  ret p.

(** Modelled from the spec: the [init] method of a definition is not
    among the sources.  "The first successful call constructs and caches
    the instance; every subsequent resolution returns the cached value
    without re-invoking the underlying constructor.  Constructing a
    definition requires first resolving all of its incoming argument
    definitions (recursively, depth-first), then invoking its provider
    wrapper's underlying constructor with the resolved arguments in
    declared order; if the constructor declares a failure output and
    that output is non-empty, instantiation fails and the failure is
    propagated to the caller, annotated with the definition's
    identifier", and "no instance is cached". *)
Fixpoint init (fuel : nat) (p : loc) : M world Value :=
  match fuel with
  | 0 => diverge
  | S fuel' =>
      d <~ deref p ;;
      if IsValid (def_instance d) then ret (def_instance d)
      else
        values <~ collect (def_in d) (init fuel') ;;
        result <~ Call (Some p) (pw_providerValue (p_wrapper (def_provider d))) values ;;
        match result with
        | [v] => update p (setInstance v) ;;; ret v
        | [v; e] =>
            if IsNil e then update p (setInstance v) ;;; ret v
            else
              w <~ getState ;;
              match Interface (w_mem w) e ≫= assertError with
              | Some err => fail (EWrapf err "%s" (FKey (def_key d)))
              | None => panic "interface conversion: interface is not error"
              end
        | _ => panic "index out of range"
        end
  end.

Definition errCycleDetected : error := ENew "cycle detected".

(** Modelled from the spec: the [visit] method of a definition is not
    among the sources.  "Depth-first traversal using a three-state mark
    per node: unmarked, in-progress (on entry), done (on exit, after all
    outgoing edges traversed).  Re-entering a node already in-progress
    signals a cycle; traversal reports it as a graph error.  A node found
    done is skipped without re-traversal", "over the out adjacency". *)
Fixpoint visit (fuel : nat) (p : loc) : M world unit :=
  match fuel with
  | 0 => diverge
  | S fuel' =>
      d <~ deref p ;;
      match def_visited d with
      | visitMarkPermanent => ret ()
      | visitMarkTemporary => fail errCycleDetected
      | visitMarkUnmarked =>
          update p (setVisited visitMarkTemporary) ;;;
          forEach (def_out d) (visit fuel') ;;;
          update p (setVisited visitMarkPermanent)
      end
  end.

(** *** The container (container.go) *)

(** The methods of the container run on the container and the world. *)
Definition liftW {A} (m : M world A) : M (Container * world) A := λ cw,
  match m cw.2 with
  | Done w' r => Done (cw.1, w') r
  | Diverge => Diverge
  end.

Definition theContainer : M (Container * world) Container := λ cw,
  Done cw (Ret cw.1).
Definition theWorld : M (Container * world) world := λ cw,
  Done cw (Ret cw.2).

(** [c.storage.add(def)] *)
Definition storageAdd (def : loc) : M (Container * world) unit := λ cw,
  let r := Storage.add (w_defs cw.2) (storage cw.1) def in
  Done (setStorage cw.1 r.1, cw.2) r.2.

(** [c.storage.get(k)] *)
Definition storageGet (k : key) : M (Container * world) loc :=
  c <~ theContainer ;; lift (Storage.get (storage c) k).

(** [func (c *Container) apply(mo *modifierOptions) (err error)] *)
Definition apply (fuel : nat) (mo : modifierOptions) : M (Container * world) unit :=
  if bool_decide (mo_modifier mo = nil) then fail (ENew "nil modifier")
  else
    let modifierValue := ValueOf (mo_modifier mo) in
    match Type_ modifierValue with
    | Some (TFunc ins outs as modifierType) =>
        if bool_decide (1 < length outs)%nat then
          fail (EWithStack errIncorrectModifierSignature)
        else if bool_decide (length outs = 1%nat) &&
                negb (outImplements (Some modifierType) 0 errorInterface) then
          fail (EWithStack errIncorrectModifierSignature)
        else
          args <~ collect ins (λ t,
            def <~ orWrap (storageGet (keyOf t)) EWithStack ;;
            orWrap (liftW (init fuel def)) (λ e, EWrapf e "%s" (FDef def))) ;;
          result <~ liftW (Call None modifierValue args) ;;
          match result with
          | [r] =>
              w <~ theWorld ;;
              match Interface (w_mem w) r ≫= assertError with
              | Some e =>
                  match Wrap (Some e) "apply error" with
                  | Some e' => fail e'
                  | None => ret ()
                  end
              | None => panic "interface conversion: interface is nil, not error"
              end
          | _ => ret ()
          end
    | _ => fail (EWithStack errIncorrectModifierSignature)
    end.

(** The four stages of [compile]. *)

(** [// register providers] *)
Definition registerProviders : M (Container * world) unit :=
  c <~ theContainer ;;
  forEach (providers c) (λ po,
    if bool_decide (po_provider po = nil) then fail (ENew "could not provide nil")
    else
      def <~ orWrap (liftW (createDefinition po)) (λ e, EWrap e "provide failed") ;;
      orWrap (storageAdd def) (λ e, EWrap e "could not add definition")).

(** [// load arguments]: the inner loop of the wiring, for one definition. *)
Definition loadArguments (def : loc) (arguments : list key) : M (Container * world) unit :=
  forEach arguments (λ key,
    in_ <~ orWrap (storageGet key) EWithStack ;;
    liftW (update def (λ d, setIn (def_in d ++ [in_]) d)) ;;;
    liftW (update in_ (λ d, setOut (def_out d ++ [def]) d))).

(** [// connect definitions] *)
Definition connectDefinitions : M (Container * world) unit :=
  c <~ theContainer ;;
  forEach (Storage.all (storage c)) (λ def,
    d <~ liftW (derefOpt def) ;;
    match def with
    | Some def => loadArguments def (p_arguments (def_provider d))
    | None => panic nilDeref
    end).

(** [// verify cycles] *)
Definition verifyCycles (fuel : nat) : M (Container * world) unit :=
  c <~ theContainer ;;
  forEach (Storage.all (storage c)) (λ n,
    d <~ liftW (derefOpt n) ;;
    match n with
    | Some n =>
        if bool_decide (def_visited d = visitMarkUnmarked) then
          orWrap (liftW (visit fuel n)) (λ e, EWrap e "detect cycle")
        else ret ()
    | None => panic nilDeref
    end).

(** [// apply modifiers] *)
Definition applyModifiers (fuel : nat) : M (Container * world) unit :=
  c <~ theContainer ;;
  forEach (modifiers c) (apply fuel).

(** [func (c *Container) compile() (err error)] *)
Definition compile (fuel : nat) : M (Container * world) unit :=
  registerProviders ;;;
  connectDefinitions ;;;
  verifyCycles fuel ;;;
  applyModifiers fuel.

(** [func New(options ...Option)], returning the container and the
    error. *)
Definition New (fuel : nat) (options : list Option)
    : M world (option Container * option error) := λ w,
  let c := {| logger := None; providers := []; modifiers := [];
              storage := Storage.empty |} in
  let c := foldl (λ c opt, opt c) c options in
  let c := if logger c is None then setLogger c (Some defaultLogger) else c in
  match compile fuel (c, w) with
  | Done (c, w') (Fail err) =>
      Done w' (Ret (None, Some (EWrap err "could not compile container")))
  | Done (c, w') (Ret _) => Done w' (Ret (Some c, None))
  | Done (_, w') (Panic msg) => Done w' (Panic msg)
  | Diverge => Diverge
  end.

(** [func (c *Container) Populate(target interface{}, options ...ProvideOption)] *)
Definition Populate (fuel : nat) (target : any) (options : list ProvideOption)
    : M (Container * world) unit :=
  let rvalue := ValueOf target in
  if negb (IsValid rvalue) ||
     (bool_decide (Kind_ rvalue = Some KPtr) && IsNil rvalue) then
    fail (ENew "could not populate nil")
  else
    w <~ theWorld ;;
    match Elem (w_mem w) rvalue with
    | None => panic "reflect: call of reflect.Value.Elem on a value that is no pointer"
    | Some rvalue =>
        match Type_ rvalue with
        | None => panic "reflect: call of reflect.Value.Type on zero Value"
        | Some t =>
            def <~ orWrap (storageGet (keyOf t)) EWithStack ;;
            instance <~ orWrap (liftW (init fuel def)) (λ e, EWrapf e "%s" (FType t)) ;;
            w <~ theWorld ;;
            match Set_ (w_mem w) rvalue instance with
            | Some m => liftW (putState (setMem w m))
            | None => panic "reflect.Set: value is not assignable"
            end
        end
    end.

End Inject.

(** ** Example containers *)

Module Examples.

(** Three types provided by pointer, and an interface. *)
Definition tA : rtype := TPtr (TBase "A" [] []).
Definition tB : rtype := TPtr (TBase "B" ["Serve"] []).
Definition tC : rtype := TPtr (TBase "C" ["Serve"] []).
Definition tServer : rtype := TIface "Server" ["Serve"].

(** The user functions of the examples.  Function [9] is
    [func() error { return nil }] and function [8] returns a non-nil
    error; every other function is a constructor that returns a fresh
    pointer as its first output and, as its second, a nil error, except
    function [7], whose error is not nil. *)
Definition failure : data := DBox (TPtr (TBase "failure" [] ["Error"])) (DAddr (Some 7)).

Definition code0 (f : nat) (log : list callev) (args : list Value) (i : nat) : data :=
  if decide (f = 9) then DNilIface
  else if decide (f = 8) then failure
  else match i with
       | 0 => DAddr (Some (100 * f + length log))
       | _ => if decide (f = 7) then failure else DNilIface
       end.

Definition provide (f : nat) (ins : list rtype) (out : rtype) : providerOptions :=
  {| po_provider := box (TFunc ins [out]) (DFunc (Some f));
     po_name := ""; po_implements := [] |}.

Definition provideAs (f : nat) (ins : list rtype) (out : rtype) (iface : rtype)
    : providerOptions :=
  {| po_provider := box (TFunc ins [out]) (DFunc (Some f));
     po_name := ""; po_implements := [box (TPtr iface) (DAddr None)] |}.

Definition modify (f : nat) (ins outs : list rtype) : modifierOptions :=
  {| mo_modifier := box (TFunc ins outs) (DFunc (Some f)) |}.

(** Options that register providers and modifiers. *)
Definition Provide (ps : list providerOptions) : Option := λ c,
  {| logger := logger c; providers := providers c ++ ps;
     modifiers := modifiers c; storage := storage c |}.
Definition Apply (ms : list modifierOptions) : Option := λ c,
  {| logger := logger c; providers := providers c;
     modifiers := modifiers c ++ ms; storage := storage c |}.

Definition container (ps : list providerOptions) (ms : list modifierOptions) : Container :=
  {| logger := Some defaultLogger; providers := ps; modifiers := ms;
     storage := Storage.empty |}.

Definition w0 : world := {| w_defs := ∅; w_mem := ∅; w_calls := [] |}.

(** A depends on B, B on C, and C on A. *)
Definition cyclicProviders : list providerOptions :=
  [provide 1 [tB] tA; provide 2 [tC] tB; provide 3 [tA] tC].

(** A depends on B and B on C. *)
Definition chainProviders : list providerOptions :=
  [provide 1 [tB] tA; provide 2 [tC] tB; provide 3 [] tC].

(** Two providers of the capability [Server]. *)
Definition serverProviders : list providerOptions :=
  [provideAs 2 [] tB tServer; provideAs 3 [] tC tServer].

(** [func() error { return nil }] *)
Definition okModifier : modifierOptions := modify 9 [] [errorInterface].

(** Two definitions that claim the capability [Server], as the storage
    sees them. *)
Definition claimant (f : nat) (t : rtype) (caps : list key) : definition :=
  {| def_key := keyOf t; def_implements := caps;
     def_provider :=
       {| p_wrapper := {| pw_providerType := providerTypeFunc;
                          pw_providerValue := VVal (TFunc [] [t]) (DFunc (Some f));
                          pw_resultType := t |};
          p_arguments := [] |};
     def_in := []; def_out := [];
     def_visited := visitMarkUnmarked; def_instance := VZero |}.

Definition serverDefs : heap :=
  <[0 := claimant 2 tB [keyOf tServer]]> (<[1 := claimant 3 tC [keyOf tServer]]> ∅).


(** The identifier of the definition that [k] resolves to after a run. *)
Definition resolvesTo (r : run (Container * world) unit) (k : key) : option key :=
  match r with
  | Done (c, w) (Ret _) =>
      match Storage.get (storage c) k with
      | Ret p => def_key <$> w_defs w !! p
      | _ => None
      end
  | _ => None
  end.

(** Whether a run returned without an error, and whether it failed with
    a given error. *)
Definition returned {S A} (r : run S A) : bool :=
  match r with Done _ (Ret _) => true | _ => false end.
Definition failedWith {S A} (e : error) (r : run S A) : bool :=
  match r with Done _ (Fail e') => bool_decide (e' = e) | _ => false end.

Definition isRet {A} (o : outcome A) : bool :=
  match o with Ret _ => true | _ => false end.

(** What [New] returned: whether the container is non-nil, and the error. *)
Definition newResult (r : run world (option Container * option error))
    : option (bool * option error) :=
  match r with
  | Done _ (Ret (c, e)) => Some (bool_decide (is_Some c), e)
  | _ => None
  end.

End Examples.

(** ** Definitions of the specification

    The predicates and derived operations that the properties are
    stated with. *)

Section Specification.

Variable code : nat → list callev → list Value → nat → data.
Variable ProvideOption : Type.

(** The edges that the wiring adds, in the order it adds them. *)
Definition resolve (s : Storage.definitions) (k : key) : option loc :=
  match Storage.get s k with Ret r => Some r | _ => None end.

Definition insOf (E : list (loc * loc)) (x : loc) : list loc :=
  omap (λ e, if decide (e.1 = x) then Some e.2 else None) E.
Definition outsOf (E : list (loc * loc)) (x : loc) : list loc :=
  omap (λ e, if decide (e.2 = x) then Some e.1 else None) E.

Definition addEdges (E : list (loc * loc)) (x : loc) (d : definition) : definition :=
  setOut (def_out d ++ outsOf E x) (setIn (def_in d ++ insOf E x) d).

Definition wired (E : list (loc * loc)) (h h' : heap) : Prop :=
  ∀ x, h' !! x = addEdges E x <$> h !! x.

Definition argsOf (h : heap) (p : loc) : option (list key) :=
  (λ d, p_arguments (def_provider d)) <$> h !! p.

Definition edgesOf (s : Storage.definitions) (h : heap) (p : loc)
    : option (list (loc * loc)) :=
  ks ← argsOf h p; rs ← mapM (resolve s) ks; Some (map (pair p) rs).

Definition edges (s : Storage.definitions) (h : heap) (ps : list loc)
    : option (list (loc * loc)) :=
  (λ Es, concat Es) <$> mapM (edgesOf s h) ps.

Definition notProvided (k : key) : error := EErrorf "type %s not provided" (FKey k).

(** The stored pointers are live, and so is whatever [get] returns. *)
Definition targetsLive (s : Storage.definitions) (h : heap) : Prop :=
  ∀ k r, Storage.get s k = Ret r → is_Some (h !! r).

Definition edgeStep (p r : loc) : M (Container * world) unit :=
  liftW (update p (λ d, setIn (def_in d ++ [r]) d)) ;;;
  liftW (update r (λ d, setOut (def_out d ++ [p]) d)).

Definition connectBody (def : option loc) : M (Container * world) unit :=
  d <~ liftW (derefOpt def) ;;
  match def with
  | Some def => loadArguments def (p_arguments (def_provider d))
  | None => panic nilDeref
  end.

Definition liveAll (h : heap) (os : list (option loc)) : Prop :=
  Forall (λ o, ∃ p, o = Some p ∧ is_Some (h !! p)) os.

(** The storage lists the distinct, live definitions [ps], and [get]
    returns one of them. *)
Definition registry (h : heap) (s : Storage.definitions) (ps : list loc) : Prop :=
  Storage.all s = map Some ps ∧ NoDup ps ∧
  (∀ p, p ∈ ps → is_Some (h !! p)) ∧
  (∀ k r, Storage.get s k = Ret r → r ∈ ps).

Definition pristine (d : definition) : Prop :=
  def_in d = [] ∧ def_out d = [] ∧
  def_visited d = visitMarkUnmarked ∧ def_instance d = VZero.

Definition regInv (h : heap) (s : Storage.definitions) (ps : list loc) : Prop :=
  NoDup ps ∧
  Forall2 (λ k p, Storage.defs s !! k = Some p) (Storage.keys s) ps ∧
  (∀ p, p ∈ ps → ∃ d, h !! p = Some d ∧ pristine d ∧
                      Storage.defs s !! def_key d = Some p) ∧
  (∀ k p, Storage.defs s !! k = Some p → p ∈ ps) ∧
  (∀ k p, p ∈ Storage.claimants s k → p ∈ ps).

Definition registerBody (po : providerOptions) : M (Container * world) unit :=
  if bool_decide (po_provider po = nil) then fail (ENew "could not provide nil")
  else
    def <~ orWrap (liftW (createDefinition po)) (λ e, EWrap e "provide failed") ;;
    orWrap (storageAdd def) (λ e, EWrap e "could not add definition").

Definition sameOptions (c c' : Container) : Prop :=
  logger c' = logger c ∧ providers c' = providers c ∧ modifiers c' = modifiers c.

Definition registerError (e : error) : Prop :=
  e = ENew "could not provide nil" ∨
  (∃ e', e = EWrap e' "provide failed") ∨
  (∃ k, e = EWrap (EErrorf "%s already provided" (FKey k)) "could not add definition").

Definition markOf (h : heap) (x : loc) : option visitMark := def_visited <$> h !! x.

(** The [out] adjacency. *)
Definition edge (h : heap) (x y : loc) : Prop :=
  ∃ d, h !! x = Some d ∧ y ∈ def_out d.

(** The graph contains a cycle through one of the nodes [N]. *)
Definition cyclic (h : heap) (N : list loc) : Prop :=
  ∃ x, x ∈ N ∧ tc (edge h) x x.

(** The nodes [N] are live and their outgoing edges stay in [N]. *)
Definition closed (h : heap) (N : list loc) : Prop :=
  ∀ x, x ∈ N → ∃ d, h !! x = Some d ∧ ∀ y, y ∈ def_out d → y ∈ N.

(** Two stores that differ in the marks only. *)
Definition erase (h : heap) : heap := setVisited visitMarkUnmarked <$> h.
Definition sameGraph (h h' : heap) : Prop := erase h = erase h'.

Definition unmarked (h : heap) (N : list loc) : nat :=
  length (filter (λ x, markOf h x = Some visitMarkUnmarked) N).

(** The done nodes are closed under the edges and lie on no cycle. *)
Definition doneInv (h : heap) (N : list loc) : Prop :=
  (∀ x y, x ∈ N → markOf h x = Some visitMarkPermanent → edge h x y →
          markOf h y = Some visitMarkPermanent) ∧
  (∀ x, x ∈ N → markOf h x = Some visitMarkPermanent → ¬ tc (edge h) x x).

(** What a successful traversal does to the marks. *)
Definition advances (N : list loc) (h h' : heap) : Prop :=
  sameGraph h h' ∧
  (∀ x, markOf h' x = Some visitMarkTemporary ↔ markOf h x = Some visitMarkTemporary) ∧
  (∀ x, markOf h x = Some visitMarkPermanent → markOf h' x = Some visitMarkPermanent) ∧
  (doneInv h N → doneInv h' N).

Definition visitPost (N : list loc) (p : loc) (w : world) (r : run world unit) : Prop :=
  ∃ w' R, r = Done w' R ∧ w_mem w' = w_mem w ∧ w_calls w' = w_calls w ∧
    match R with
    | Ret _ => advances N (w_defs w) (w_defs w') ∧
               markOf (w_defs w') p = Some visitMarkPermanent
    | Fail e => e = errCycleDetected ∧
        ((∀ t, t ∈ N → markOf (w_defs w) t = Some visitMarkTemporary →
               tc (edge (w_defs w)) t p) → cyclic (w_defs w) N)
    | Panic _ => False
    end.

Definition loopPost (N : list loc) (outs : list loc) (w : world) (r : run world unit) : Prop :=
  ∃ w' R, r = Done w' R ∧ w_mem w' = w_mem w ∧ w_calls w' = w_calls w ∧
    match R with
    | Ret _ => advances N (w_defs w) (w_defs w') ∧
               (∀ o, o ∈ outs → markOf (w_defs w') o = Some visitMarkPermanent)
    | Fail e => e = errCycleDetected ∧
        ((∀ o t, o ∈ outs → t ∈ N → markOf (w_defs w) t = Some visitMarkTemporary →
                 tc (edge (w_defs w)) t o) → cyclic (w_defs w) N)
    | Panic _ => False
    end.

Definition verifyBody (fuel : nat) (n : option loc) : M (Container * world) unit :=
  d <~ liftW (derefOpt n) ;;
  match n with
  | Some n =>
      if bool_decide (def_visited d = visitMarkUnmarked) then
        orWrap (liftW (visit fuel n)) (λ e, EWrap e "detect cycle")
      else ret ()
  | None => panic nilDeref
  end.

Definition cycleError : error := EWrap errCycleDetected "detect cycle".

Definition noneInProgress (h : heap) (N : list loc) : Prop :=
  ∀ t, t ∈ N → markOf h t ≠ Some visitMarkTemporary.

(** [p] holds the memoized instance [v]. *)
Definition cached (h : heap) (p : loc) (v : Value) : Prop :=
  ∃ d, h !! p = Some d ∧ def_instance d = v ∧ IsValid v = true.

(** What instantiation may do to the world: an instance that is present
    stays, the other fields of a definition stay, and a call on behalf of
    a definition is made only when it has no instance. *)
Definition evolves (w w' : world) : Prop :=
  (∀ x, match w_defs w !! x with
        | Some d => ∃ d', w_defs w' !! x = Some d' ∧
                          d' = setInstance (def_instance d') d ∧
                          (IsValid (def_instance d) = true →
                           def_instance d' = def_instance d)
        | None => w_defs w' !! x = None
        end) ∧
  ∃ evs, w_calls w' = w_calls w ++ evs ∧
         ∀ ev x, ev ∈ evs → ce_def ev = Some x →
                 ∃ d, w_defs w !! x = Some d ∧ IsValid (def_instance d) = false.

(** The end of [init]: cache the value unless the constructor failed. *)
Definition initFinish (p : loc) (d : definition) (result : list Value) : M world Value :=
  match result with
  | [v] => update p (setInstance v) ;;; ret v
  | [v; e] =>
      if IsNil e then update p (setInstance v) ;;; ret v
      else
        w <~ getState ;;
        match Interface (w_mem w) e ≫= assertError with
        | Some err => fail (EWrapf err "%s" (FKey (def_key d)))
        | None => panic "interface conversion: interface is not error"
        end
  | _ => panic "index out of range"
  end.

Definition ptrTo (t : rtype) (a : addr) : any := box (TPtr t) (DAddr (Some a)).

(** The container is the same and the world evolves. *)
Definition serves (s s' : Container * world) : Prop :=
  s'.1 = s.1 ∧ evolves s.2 s'.2.

Definition resolveArg (fuel : nat) (t : rtype) : M (Container * world) Value :=
  def <~ orWrap (storageGet (keyOf t)) EWithStack ;;
  orWrap (liftW (init code fuel def)) (λ e, EWrapf e "%s" (FDef def)).

(** What may happen to a compiled container: modifiers are applied and
    instances are resolved and populated. *)
Inductive step : Container * world → Container * world → Prop :=
  | step_Populate fuel target opts s s' R :
      Populate code ProvideOption fuel target opts s = Done s' R → step s s'
  | step_apply fuel mo s s' R :
      apply code fuel mo s = Done s' R → step s s'
  | step_init fuel p c w w' R :
      init code fuel p w = Done w' R → step (c, w) (c, w').

(** [dst.Set(v)] for the variable at [a]: the state after the
    assignment, or the panic. *)
Definition assign (t : rtype) (a : addr) (v : Value) (s : Container * world)
    : run (Container * world) unit :=
  match Set_ (w_mem s.2) (VRef t a) v with
  | Some m => Done (s.1, setMem s.2 m) (Ret ())
  | None => Done s (Panic "reflect.Set: value is not assignable")
  end.

(** [p] depends on [r]: [r] is in the incoming list of [p]. *)
Definition dependsOn (h : heap) (p r : loc) : Prop :=
  ∃ d, h !! p = Some d ∧ r ∈ def_in d.

(** The errors of [apply]. *)
Inductive applyError : error → Prop :=
  | nilModifier : applyError (ENew "nil modifier")
  | invalidModifierSignature : applyError (EWithStack errIncorrectModifierSignature)
  | unresolvedArgument k : applyError (EWithStack (notProvided k))
  | constructionFailure e def : applyError (EWrapf e "%s" (FDef def))
  | modifierFailure t d : applyError (EWrap (EUser t d) "apply error").

(** The fatal causes of a compilation. *)
Inductive fatalCause : error → Prop :=
  | nilProvider : fatalCause (ENew "could not provide nil")
  | invalidProviderSignature :
      fatalCause (EWrap (EWithStack ErrIncorrectProviderType) "provide failed")
  | unimplementedProvider :
      fatalCause (EWrap (ENew "struct provider not implemented yet") "provide failed")
  | duplicateBinding k :
      fatalCause (EWrap (EErrorf "%s already provided" (FKey k)) "could not add definition")
  | unresolvedDependency k : fatalCause (EWithStack (notProvided k))
  | cycleDetected : fatalCause cycleError
  | modifierStage e : applyError e → fatalCause e.

(** The container that [New] compiles. *)
Definition configured (options : list Option) : Container :=
  let c := foldl (λ c opt, opt c)
             {| logger := None; providers := []; modifiers := [];
                storage := Storage.empty |} options in
  if logger c is None then setLogger c (Some defaultLogger) else c.

(** No definition that [p] depends on, directly or not, depends on
    itself. *)
Definition acyclicFrom (h : heap) (p : loc) : Prop :=
  ∀ x, rtc (dependsOn h) p x → ¬ tc (dependsOn h) x x.

Definition succeeded {A} (R : outcome A) : bool :=
  match R with Ret _ => true | _ => false end.

(** Whether the call [ev], made after the calls [log], of a constructor
    with the outputs [outs] constructs an instance: the constructor has
    one output, or two and the second, the error, is nil. *)
Definition constructs (outs : list rtype) (log : list callev) (ev : callev) : bool :=
  match outs with
  | [_] => true
  | [_; te] => IsNil (VVal te (code (ce_fn ev) log (ce_args ev) 1))
  | _ => false
  end.

(** The calls [evs], logged after [log] on the way from the store [h] to
    the store [h'], are constructions: no definition is constructed
    twice; each call is made on behalf of a definition that some root
    depends on and that had no instance, it is a call of the constructor
    of that definition, and its arguments are the instances of the
    definitions it depends on; when the call constructs, the definition
    then holds what the call returned as its first output; and a call
    that does not construct is the last one, of a run that did not
    succeed. *)
Definition constructions (roots : list loc) (h h' : heap) (log evs : list callev)
    (ok : bool) : Prop :=
  NoDup (ce_def <$> evs) ∧
  ∀ i ev, evs !! i = Some ev →
    ∃ y d ins outs,
      ce_def ev = Some y ∧ (∃ x, x ∈ roots ∧ rtc (dependsOn h) x y) ∧
      h !! y = Some d ∧ IsValid (def_instance d) = false ∧
      pw_providerValue (p_wrapper (def_provider d))
        = VVal (TFunc ins outs) (DFunc (Some (ce_fn ev))) ∧
      Forall2 (λ x a, cached h' x a) (def_in d) (ce_args ev) ∧
      if constructs outs (log ++ take i evs) ev
      then ∃ t, outs !! 0 = Some t ∧
                cached h' y (VVal t (code (ce_fn ev) (log ++ take i evs) (ce_args ev) 0))
      else S i = length evs ∧ ok = false.

(** A run from [w] to [w'] that only made constructions. *)
Definition traced (roots : list loc) (w w' : world) (ok : bool) : Prop :=
  ∃ evs, w_calls w' = w_calls w ++ evs ∧
         constructions roots (w_defs w) (w_defs w') (w_calls w) evs ok.

(** A use of a container: something is populated, or a modifier is
    applied. *)
Inductive uses : Container * world → Container * world → Prop :=
  | uses_Populate fuel target opts s s' R :
      Populate code ProvideOption fuel target opts s = Done s' R → uses s s'
  | uses_apply fuel mo s s' R :
      apply code fuel mo s = Done s' R → uses s s'.

(** The calls [evs] that were logged after [log], from the store [h0] to
    the store [h]: every call made on behalf of a definition is a call
    of the constructor of that definition, made when it had no instance,
    on instances that the definitions it depends on hold; and when a
    call constructs, the definition holds its first output and no later
    call is made on its behalf. *)
Definition chronicle (h0 h : heap) (log evs : list callev) : Prop :=
  ∀ i ev y, evs !! i = Some ev → ce_def ev = Some y →
    ∃ d ins outs,
      h0 !! y = Some d ∧ IsValid (def_instance d) = false ∧
      pw_providerValue (p_wrapper (def_provider d))
        = VVal (TFunc ins outs) (DFunc (Some (ce_fn ev))) ∧
      Forall2 (λ x a, cached h x a) (def_in d) (ce_args ev) ∧
      (constructs outs (log ++ take i evs) ev = true →
         (∃ t, outs !! 0 = Some t ∧
               cached h y (VVal t (code (ce_fn ev) (log ++ take i evs) (ce_args ev) 0))) ∧
         ∀ j ev', i < j → evs !! j = Some ev' → ce_def ev' ≠ Some y).

Definition chronicled (s0 s : Container * world) : Prop :=
  ∃ evs, w_calls s.2 = w_calls s0.2 ++ evs ∧
         chronicle (w_defs s0.2) (w_defs s.2) (w_calls s0.2) evs.

(** The definitions that the storage resolves do not depend on
    themselves. *)
Definition resolvesAcyclic (s : Container * world) : Prop :=
  ∀ k p, Storage.get (storage s.1) k = Ret p → acyclicFrom (w_defs s.2) p.

(** What calls of [add], failing or not, make of a storage. *)
Inductive grows : Storage.definitions → Storage.definitions → Prop :=
  | grows_refl s : grows s s
  | grows_add s s' h p : grows s s' → grows s (Storage.add h s' p).1.

(** The list of keys and the exact map agree, and every claimant of a
    capability is exactly bound. *)
Definition coherent (s : Storage.definitions) : Prop :=
  NoDup (Storage.keys s) ∧
  (∀ k, k ∈ Storage.keys s ↔ is_Some (Storage.defs s !! k)) ∧
  length (Storage.keys s) = size (Storage.defs s) ∧
  (∀ k p, p ∈ Storage.claimants s k → ∃ k', Storage.defs s !! k' = Some p).

(** The call of a modifier, as the log has it. *)
Definition modifierCall (f : nat) (args : list Value) : callev :=
  {| ce_def := None; ce_fn := f; ce_args := args |}.

(** Calls made on behalf of definitions: calls of constructors. *)
Definition constructorCalls (evs : list callev) : Prop :=
  Forall (λ ev, is_Some (ce_def ev)) evs.

(** Between two states the caller's variables stay and only
    constructors are called. *)
Definition resolving (s s' : Container * world) : Prop :=
  w_mem s'.2 = w_mem s.2 ∧
  ∃ evs, w_calls s'.2 = w_calls s.2 ++ evs ∧ constructorCalls evs.

(** The errors of the resolution of an argument. *)
Definition argumentError (e : error) : Prop :=
  (∃ k, e = EWithStack (notProvided k)) ∨ (∃ e0 def, e = EWrapf e0 "%s" (FDef def)).

(** The definitions between two states: those that were there are
    there, with the instances they had. *)
Definition w_defs_frame (s s' : Container * world) : Prop :=
  ∀ x, match w_defs s.2 !! x with
       | Some d => ∃ d', w_defs s'.2 !! x = Some d' ∧
                         d' = setInstance (def_instance d') d ∧
                         (IsValid (def_instance d) = true →
                          def_instance d' = def_instance d)
       | None => w_defs s'.2 !! x = None
       end.

(** What [apply] makes of the first output [x] of a modifier with the
    outputs [outs]: success without outputs; with one output the wrapped
    error, or the panic of the type assertion when it is nil or no
    error. *)
Definition modifierOutcome (outs : list rtype) (x : data) (R : outcome unit) : Prop :=
  (outs = [] ∧ R = Ret ()) ∨
  (∃ t e, outs = [t] ∧ assertError (boxed t x) = Some e ∧
          R = Fail (EWrap e "apply error")) ∨
  (∃ t, outs = [t] ∧ assertError (boxed t x) = None ∧
        R = Panic "interface conversion: interface is nil, not error").

(** Between two states the variables of the caller and the log of calls
    are the same. *)
Definition quiet (s s' : Container * world) : Prop :=
  w_mem s'.2 = w_mem s.2 ∧ w_calls s'.2 = w_calls s.2.

(** Between two states the options of the container and the variables
    of the caller are the same, and the log of calls is extended. *)
Definition compiling (s s' : Container * world) : Prop :=
  sameOptions s.1 s'.1 ∧ w_mem s'.2 = w_mem s.2 ∧
  ∃ evs, w_calls s'.2 = w_calls s.2 ++ evs.

(** The two providers of servers, registered by hand, and nothing
    constructed yet. *)
Definition serverState : Container * world :=
  (setStorage (Examples.container [] [])
     (Storage.addAll Examples.serverDefs Storage.empty [0; 1]).1,
   setDefs Examples.w0 Examples.serverDefs).

End Specification.

(** * Properties *)

Module StorageFacts.
Import Storage.

Lemma addImplements_lookup (p : loc) (ks : list key) (m : gmap key (list loc)) (c : key) :
  default [] (addImplements p m ks !! c)
  = default [] (m !! c) ++ replicate (length (filter (λ k', k' = c) ks)) p.
Proof.
  revert m. induction ks as [|k ks IH]; intros m; simpl.
  - by rewrite app_nil_r.
  - unfold addImplements in *. simpl. rewrite IH.
    rewrite filter_cons. destruct (decide (k = c)) as [->|Hne].
    + rewrite lookup_insert_eq. simpl. by rewrite <- app_assoc.
    + by rewrite lookup_insert_ne.
Qed.

Lemma addImplements_other (p : loc) (ks : list key) (m : gmap key (list loc)) (c : key) :
  c ∉ ks → addImplements p m ks !! c = m !! c.
Proof.
  revert m. induction ks as [|k ks IH]; intros m Hc; [done|].
  apply not_elem_of_cons in Hc as [Hne Hc].
  unfold addImplements in *. simpl. rewrite IH by done.
  by rewrite lookup_insert_ne.
Qed.

Lemma add_bound h s p d x :
  h !! p = Some d → defs s !! def_key d = Some x →
  add h s p = (s, Fail (EErrorf "%s already provided" (FKey (def_key d)))).
Proof. intros Hp Hk. unfold add. by rewrite Hp, Hk. Qed.

Lemma add_free h s p d :
  h !! p = Some d → defs s !! def_key d = None →
  add h s p =
    ({| keys := keys s ++ [def_key d];
        defs := <[def_key d := p]> (defs s);
        implementations := addImplements p (implementations s) (def_implements d) |},
     Ret ()).
Proof. intros Hp Hk. unfold add. by rewrite Hp, Hk. Qed.

(** C2: [add] fails exactly when the identifier of the definition is
    already bound, with the already-provided error and without changing
    the storage; otherwise it succeeds, appends the identifier to the
    list of keys, installs the exact binding and appends the definition
    to the list of every capability it declares (once per declaration),
    the other capability lists staying as they are. *)
Theorem add_conflict_iff_bound (h : heap) (s : definitions) (p : loc) (d : definition) :
  h !! p = Some d →
  (is_Some (defs s !! def_key d) ↔ is_err (add h s p).2) ∧
  (is_Some (defs s !! def_key d) →
     add h s p = (s, Fail (EErrorf "%s already provided" (FKey (def_key d))))) ∧
  (defs s !! def_key d = None →
     (add h s p).2 = Ret () ∧
     keys (add h s p).1 = keys s ++ [def_key d] ∧
     defs (add h s p).1 = <[def_key d := p]> (defs s) ∧
     (∀ c, claimants (add h s p).1 c = claimants s c ++ replicate (claims h c p) p) ∧
     (∀ c, c ∈ def_implements d → ∃ l, claimants (add h s p).1 c = claimants s c ++ p :: l) ∧
     (∀ c, c ∉ def_implements d →
        implementations (add h s p).1 !! c = implementations s !! c)).
Proof.
  intros Hp. split; [|split].
  - split.
    + intros [x Hx]. rewrite (add_bound _ _ _ _ _ Hp Hx). by eexists.
    + intros [e He]. destruct (defs s !! def_key d) eqn:Hk; [by eexists|].
      rewrite (add_free _ _ _ _ Hp Hk) in He. done.
  - intros [x Hx]. by apply add_bound with x.
  - intros Hk. rewrite (add_free _ _ _ _ Hp Hk). simpl.
    split_and!; try done.
    + intros c. unfold claimants, claims. simpl. rewrite Hp.
      apply addImplements_lookup.
    + intros c Hc. unfold claimants. simpl. rewrite addImplements_lookup.
      destruct (filter (λ k', k' = c) (def_implements d)) as [|y l] eqn:Hf.
      * exfalso. assert (c ∈ filter (λ k', k' = c) (def_implements d)) as Hin
          by (by apply list_elem_of_filter).
        rewrite Hf in Hin. by apply not_elem_of_nil in Hin.
      * simpl. by eexists.
    + intros c Hc. by apply addImplements_other.
Qed.

(** What a run of successful registrations leaves in the storage. *)
Lemma addAll_spec (h : heap) (ps : list loc) (s s' : definitions) :
  addAll h s ps = (s', Ret ()) →
  (∀ c, claimants s' c = claimants s c ++ (ps ≫= λ p, replicate (claims h c p) p)) ∧
  (∀ k p, defs s' !! k = Some p →
     defs s !! k = Some p ∨ (p ∈ ps ∧ def_key <$> h !! p = Some k)) ∧
  (∀ k, is_Some (defs s !! k) → is_Some (defs s' !! k)) ∧
  (∀ p, p ∈ ps → ∃ d, h !! p = Some d ∧ is_Some (defs s' !! def_key d)).
Proof.
  revert s. induction ps as [|p ps IH]; intros s Hall; simpl in Hall.
  - injection Hall as <-. split_and!; try (intros; by left).
    + intros c. simpl. by rewrite app_nil_r.
    + done.
    + intros p Hp. by apply not_elem_of_nil in Hp.
  - destruct (add h s p) as [s1 r] eqn:Hadd. destruct r as [[]|e|m]; try done.
    destruct (h !! p) as [d|] eqn:Hp; [|by (unfold add in Hadd; rewrite Hp in Hadd)].
    destruct (defs s !! def_key d) as [x|] eqn:Hk.
    { by rewrite (add_bound _ _ _ _ _ Hp Hk) in Hadd. }
    rewrite (add_free _ _ _ _ Hp Hk) in Hadd. injection Hadd as <-.
    destruct (IH _ Hall) as (Hc & Hd & Hmono & Hin). split_and!.
    + intros c. rewrite Hc. unfold claimants at 1. simpl.
      rewrite addImplements_lookup. unfold claims at 2. rewrite Hp.
      unfold claimants. by rewrite <- app_assoc.
    + intros k q Hq. destruct (Hd _ _ Hq) as [Hq'|[Hq' Hkq]].
      * simpl in Hq'. destruct (decide (def_key d = k)) as [<-|Hne].
        -- rewrite lookup_insert_eq in Hq'. injection Hq' as <-.
           right. split; [left|]. by rewrite Hp.
        -- rewrite lookup_insert_ne in Hq' by done. by left.
      * right. split; [by right|done].
    + intros k Hs. apply Hmono. simpl.
      destruct (decide (def_key d = k)) as [<-|Hne].
      * rewrite lookup_insert_eq. by eexists.
      * by rewrite lookup_insert_ne.
    + intros q Hq. apply elem_of_cons in Hq as [->|Hq]; [|by apply Hin].
      exists d. split; [done|]. apply Hmono. simpl.
      rewrite lookup_insert_eq. by eexists.
Qed.

Lemma bind_replicate_first (f : loc → nat) (l1 l2 : list loc) (p : loc) :
  Forall (λ q, f q = 0) l1 → 0 < f p →
  ∃ l, ((l1 ++ p :: l2) ≫= λ q, replicate (f q) q) = p :: l.
Proof.
  intros Hl1 Hp. rewrite bind_app. 
  assert ((l1 ≫= λ q, replicate (f q) q) = []) as ->.
  { induction Hl1 as [|q l Hq _ IH]; [done|]. rewrite bind_cons, Hq, IH. done. }
  rewrite bind_cons. destruct (f p) as [|n]; [lia|]. simpl. by eexists.
Qed.

Lemma bind_replicate_none (f : loc → nat) (l : list loc) :
  Forall (λ q, f q = 0) l → (l ≫= λ q, replicate (f q) q) = [].
Proof.
  induction 1 as [|q l Hq _ IH]; [done|]. by rewrite bind_cons, Hq, IH.
Qed.

(** C1: [get] returns the exactly bound definition when there is one;
    otherwise the first claimant of the capability when there is one;
    otherwise it fails with the not-provided error.  When the storage
    comes from registering the definitions [ps] in order, the claimants
    of a capability are the definitions of [ps] that declare it, in
    registration order, so that a capability that is not exactly bound
    resolves to the first registered definition that declares it, and
    fails when none declares it. *)
Theorem get_first_registered (h : heap) (s : definitions) (k : key) :
  (∀ p, defs s !! k = Some p → get s k = Ret p) ∧
  (∀ p l, defs s !! k = None → claimants s k = p :: l → get s k = Ret p) ∧
  (defs s !! k = None → claimants s k = [] →
     get s k = Fail (EErrorf "type %s not provided" (FKey k))) ∧
  (∀ ps, addAll h empty ps = (s, Ret ()) →
     claimants s k = (ps ≫= λ p, replicate (claims h k p) p) ∧
     (∀ l1 p l2, ps = l1 ++ p :: l2 →
        defs s !! k = None →
        Forall (λ q, claims h k q = 0) l1 → 0 < claims h k p →
        get s k = Ret p) ∧
     (defs s !! k = None → Forall (λ q, claims h k q = 0) ps →
        get s k = Fail (EErrorf "type %s not provided" (FKey k)))).
Proof.
  split_and!.
  - intros p Hp. unfold get. by rewrite Hp.
  - intros p l Hk Hc. unfold get. by rewrite Hk, Hc.
  - intros Hk Hc. unfold get. by rewrite Hk, Hc.
  - intros ps Hall. destruct (addAll_spec _ _ _ _ Hall) as (Hc & _).
    assert (claimants s k = ps ≫= λ p, replicate (claims h k p) p) as Hcl.
    { rewrite Hc. unfold claimants, empty. simpl. by rewrite lookup_empty. }
    split_and!; [done|..].
    + intros l1 p l2 -> Hk Hl1 Hp.
      destruct (bind_replicate_first (claims h k) l1 l2 p Hl1 Hp) as [l Hl].
      unfold get. by rewrite Hk, Hcl, Hl.
    + intros Hk Hno. unfold get.
      by rewrite Hk, Hcl, (bind_replicate_none _ _ Hno).
Qed.
End StorageFacts.

Lemma insOf_app E1 E2 x : insOf (E1 ++ E2) x = insOf E1 x ++ insOf E2 x.
Proof. apply omap_app. Qed.
Lemma outsOf_app E1 E2 x : outsOf (E1 ++ E2) x = outsOf E1 x ++ outsOf E2 x.
Proof. apply omap_app. Qed.

Lemma wired_nil h : wired [] h h.
Proof.
  intros x. destruct (h !! x) as [d|]; [|done]. simpl.
  unfold addEdges. simpl. rewrite !app_nil_r. by destruct d.
Qed.

Lemma wired_trans E1 E2 h1 h2 h3 :
  wired E1 h1 h2 → wired E2 h2 h3 → wired (E1 ++ E2) h1 h3.
Proof.
  intros H1 H2 x. rewrite H2, H1. destruct (h1 !! x) as [d|]; [|done]. simpl.
  f_equal. unfold addEdges, setOut, setIn. simpl.
  by rewrite insOf_app, outsOf_app, !app_assoc.
Qed.

Lemma update_live p f w d :
  w_defs w !! p = Some d →
  update p f w = Done (setDefs w (<[p := f d]> (w_defs w))) (Ret ()).
Proof. intros H. unfold update, bind, deref, getState, putState. by rewrite H. Qed.

Lemma update_dead p f w :
  w_defs w !! p = None → update p f w = Done w (Panic nilDeref).
Proof. intros H. unfold update, bind, deref. by rewrite H. Qed.

(** One edge. *)
Lemma wire_one (p r : loc) (c : Container) (w : world) :
  ∃ w' R,
    (bind (liftW (update p (λ d, setIn (def_in d ++ [r]) d)))
       (λ _, liftW (update r (λ d, setOut (def_out d ++ [p]) d)))) (c, w) = Done (c, w') R ∧
    w_mem w' = w_mem w ∧ w_calls w' = w_calls w ∧
    ((R = Ret () ∧ wired [(p, r)] (w_defs w) (w_defs w')) ∨
     (R = Panic nilDeref ∧ (w_defs w !! p = None ∨ w_defs w !! r = None))).
Proof.
  unfold bind, liftW. simpl.
  destruct (w_defs w !! p) as [d|] eqn:Hp.
  2:{ rewrite (update_dead _ _ _ Hp). exists w. eexists. split_and!; try done.
      right. split; [done|by left]. }
  rewrite (update_live _ _ _ _ Hp). simpl.
  set (w1 := setDefs w _).
  destruct (w_defs w1 !! r) as [dr|] eqn:Hr.
  2:{ rewrite (update_dead _ _ _ Hr). exists w1. eexists. split_and!; try done.
      right. split; [done|]. right. simpl in Hr.
      destruct (decide (p = r)) as [<-|Hne].
      - by rewrite lookup_insert_eq in Hr.
      - by rewrite lookup_insert_ne in Hr. }
  rewrite (update_live _ _ _ _ Hr). simpl. eexists. eexists. split_and!; try done.
  left. split; [done|].
  intros x. simpl. unfold addEdges, insOf, outsOf. simpl.
  destruct (decide (r = x)) as [<-|Hrx].
  - rewrite lookup_insert_eq. simpl in Hr.
    destruct (decide (p = r)) as [<-|Hpr].
    + rewrite lookup_insert_eq in Hr. injection Hr as <-. rewrite Hp. simpl.
      by destruct d.
    + rewrite lookup_insert_ne in Hr by done. rewrite Hr. simpl.
      rewrite app_nil_r. by destruct dr.
  - rewrite lookup_insert_ne by done. simpl.
    destruct (decide (p = x)) as [<-|Hpx].
    + rewrite lookup_insert_eq, Hp. simpl. rewrite app_nil_r. by destruct d.
    + rewrite lookup_insert_ne by done.
      destruct (w_defs w !! x) as [dx|]; [|done]. simpl.
      rewrite !app_nil_r. by destruct dx.
Qed.

Lemma wired_live E h h' x : wired E h h' → is_Some (h' !! x) ↔ is_Some (h !! x).
Proof. intros H. rewrite (H x). by rewrite fmap_is_Some. Qed.

Lemma wired_provider E h h' x d' :
  wired E h h' → h' !! x = Some d' →
  ∃ d, h !! x = Some d ∧ def_provider d' = def_provider d ∧ def_key d' = def_key d
       ∧ def_visited d' = def_visited d ∧ def_instance d' = def_instance d
       ∧ def_implements d' = def_implements d
       ∧ def_in d' = def_in d ++ insOf E x ∧ def_out d' = def_out d ++ outsOf E x.
Proof.
  intros H Hx. rewrite (H x) in Hx. destruct (h !! x) as [d|]; [|done].
  injection Hx as <-. by exists d.
Qed.

Lemma argsOf_wired E h h' p : wired E h h' → argsOf h' p = argsOf h p.
Proof.
  intros H. unfold argsOf. rewrite (H p). by destruct (h !! p).
Qed.

Lemma edgesOf_wired E s h h' p : wired E h h' → edgesOf s h' p = edgesOf s h p.
Proof. intros H. unfold edgesOf. by rewrite (argsOf_wired _ _ _ _ H). Qed.

Lemma edgesOf_live s h p d rs :
  h !! p = Some d → mapM (resolve s) (p_arguments (def_provider d)) = Some rs →
  edgesOf s h p = Some (map (pair p) rs).
Proof. intros Hp Hrs. unfold edgesOf, argsOf. rewrite Hp. simpl. by rewrite Hrs. Qed.

Lemma edges_wired E s h h' ps : wired E h h' → edges s h' ps = edges s h ps.
Proof.
  intros H. unfold edges. f_equal. induction ps as [|p ps IH]; [done|].
  simpl. by rewrite (edgesOf_wired _ _ _ _ _ H), IH.
Qed.

Lemma get_cases s k :
  (∃ r, Storage.get s k = Ret r ∧ resolve s k = Some r) ∨
  (Storage.get s k = Fail (notProvided k) ∧ resolve s k = None).
Proof.
  unfold resolve, Storage.get.
  destruct (Storage.defs s !! k); [left; by eexists|].
  destruct (Storage.claimants s k); [by right|left; by eexists].
Qed.

Lemma forEach_cons {S A} (x : A) (l : list A) (body : A → M S unit) (s : S) :
  forEach (x :: l) body s =
  match body x s with
  | Done s' (Ret _) => forEach l body s'
  | Done s' (Fail e) => Done s' (Fail e)
  | Done s' (Panic m) => Done s' (Panic m)
  | Diverge => Diverge
  end.
Proof. reflexivity. Qed.

Lemma loadArguments_cons (p : loc) (k : key) (ks : list key) (c : Container) (w : world) :
  loadArguments p (k :: ks) (c, w) =
  match Storage.get (storage c) k with
  | Ret r =>
      match edgeStep p r (c, w) with
      | Done s' (Ret _) => loadArguments p ks s'
      | Done s' (Fail e) => Done s' (Fail e)
      | Done s' (Panic m) => Done s' (Panic m)
      | Diverge => Diverge
      end
  | Fail e => Done (c, w) (Fail (EWithStack e))
  | Panic m => Done (c, w) (Panic m)
  end.
Proof.
  unfold loadArguments. rewrite forEach_cons.
  unfold bind at 1, orWrap, storageGet, bind at 1, theContainer, lift. simpl.
  by destruct (Storage.get (storage c) k).
Qed.

Lemma loadArguments_spec (p : loc) (ks : list key) (c : Container) (w : world) :
  ∃ w' R, loadArguments p ks (c, w) = Done (c, w') R ∧
    w_mem w' = w_mem w ∧ w_calls w' = w_calls w ∧
    match R with
    | Ret _ => ∃ rs, mapM (resolve (storage c)) ks = Some rs ∧
                     wired (map (pair p) rs) (w_defs w) (w_defs w')
    | Fail e => ∃ k, k ∈ ks ∧ e = EWithStack (notProvided k) ∧
                     Storage.get (storage c) k = Fail (notProvided k)
    | Panic _ => ¬ (is_Some (w_defs w !! p) ∧ targetsLive (storage c) (w_defs w))
    end.
Proof.
  revert w. induction ks as [|k ks IH]; intros w.
  - exists w, (Ret ()). split_and!; try done. exists []. split; [done|]. apply wired_nil.
  - rewrite loadArguments_cons.
    destruct (get_cases (storage c) k) as [(r & Hg & Hr)|[Hg Hr]]; rewrite Hg.
    2:{ exists w, (Fail (EWithStack (notProvided k))). split_and!; try done.
        exists k. split_and!; try done. by left. }
    destruct (wire_one p r c w) as (w1 & R1 & H1 & Hm & Hc & HR1).
    unfold edgeStep. rewrite H1.
    destruct HR1 as [[-> Hw]|[-> Hdead]].
    2:{ exists w1, (Panic nilDeref). split_and!; try done. intros [[d Hp] Hl].
        destruct Hdead as [?|Hrd]; [congruence|].
        destruct (Hl _ _ Hg) as [dr Hdr]. congruence. }
    destruct (IH w1) as (w' & R & HIH & Hm' & Hc' & HR).
    exists w', R. rewrite HIH. split_and!; try congruence.
    destruct R as [[]|e|m].
    + destruct HR as (rs & Hrs & Hw'). exists (r :: rs). split.
      * simpl. rewrite Hr. simpl. by rewrite Hrs.
      * simpl. by apply (wired_trans [(p, r)] _ _ _ _ Hw Hw').
    + destruct HR as (k' & Hk' & He & Hg'). exists k'. split_and!; try done. by right.
    + intros [Hp Hl]. apply HR. split.
      * by apply (wired_live _ _ _ _ Hw).
      * intros k' r' Hk'. apply (wired_live _ _ _ _ Hw). by eapply Hl.
Qed.

Lemma connectDefinitions_unfold (c : Container) (w : world) :
  connectDefinitions (c, w) = forEach (Storage.all (storage c)) connectBody (c, w).
Proof. reflexivity. Qed.

Lemma connectBody_live (p : loc) (d : definition) (c : Container) (w : world) :
  w_defs w !! p = Some d →
  connectBody (Some p) (c, w) = loadArguments p (p_arguments (def_provider d)) (c, w).
Proof.
  intros H. unfold connectBody, bind, liftW, derefOpt, deref. simpl. by rewrite H.
Qed.

Lemma connectBody_dead (o : option loc) (c : Container) (w : world) :
  (∀ p, o = Some p → w_defs w !! p = None) →
  connectBody o (c, w) = Done (c, w) (Panic nilDeref).
Proof.
  intros H. unfold connectBody, bind, liftW, derefOpt, deref. simpl.
  destruct o as [p|]; [|done]. simpl. by rewrite (H p eq_refl).
Qed.

Lemma connect_loop (c : Container) (os : list (option loc)) (w : world) :
  ∃ w' R, forEach os connectBody (c, w) = Done (c, w') R ∧
    w_mem w' = w_mem w ∧ w_calls w' = w_calls w ∧
    match R with
    | Ret _ => ∃ ps E, os = map Some ps ∧ edges (storage c) (w_defs w) ps = Some E ∧
                       wired E (w_defs w) (w_defs w')
    | Fail e => ∃ p ks k, Some p ∈ os ∧ argsOf (w_defs w) p = Some ks ∧ k ∈ ks ∧
                       e = EWithStack (notProvided k) ∧
                       Storage.get (storage c) k = Fail (notProvided k)
    | Panic _ => ¬ (liveAll (w_defs w) os ∧ targetsLive (storage c) (w_defs w))
    end.
Proof.
  revert w. induction os as [|o os IH]; intros w.
  - exists w, (Ret ()). split_and!; try done. exists [], []. split_and!; try done.
    apply wired_nil.
  - rewrite forEach_cons.
    destruct o as [p|].
    2:{ rewrite connectBody_dead by done. exists w, (Panic nilDeref).
        split_and!; try done. intros [Hl _]. apply Forall_cons_1 in Hl as [(p & ? & _) _]. done. }
    destruct (w_defs w !! p) as [d|] eqn:Hp.
    2:{ rewrite connectBody_dead by (by intros ? [= <-]). exists w, (Panic nilDeref).
        split_and!; try done. intros [Hl _].
        apply Forall_cons_1 in Hl as [(p' & [= <-] & [? ?]) _]. congruence. }
    rewrite (connectBody_live _ _ _ _ Hp).
    destruct (loadArguments_spec p (p_arguments (def_provider d)) c w)
      as (w1 & R1 & H1 & Hm & Hc & HR1).
    rewrite H1. destruct R1 as [[]|e|m].
    + destruct HR1 as (rs & Hrs & Hw).
      destruct (IH w1) as (w' & R & HIH & Hm' & Hc' & HR).
      exists w', R. rewrite HIH. split_and!; try congruence.
      destruct R as [[]|e|m].
      * destruct HR as (ps & E & -> & HE & Hw').
        exists (p :: ps), (map (pair p) rs ++ E). split_and!; try done.
        -- rewrite (edges_wired _ _ _ _ _ Hw) in HE. unfold edges in *. simpl.
           rewrite (edgesOf_live _ _ _ _ _ Hp Hrs). simpl.
           destruct (mapM (edgesOf (storage c) (w_defs w)) ps); [|done].
           simpl in *. by injection HE as <-.
        -- by eapply wired_trans.
      * destruct HR as (p' & ks & k & Hp' & Hks & Hk & He & Hg).
        exists p', ks, k. split_and!; try done; [by right|].
        by rewrite <- (argsOf_wired _ _ _ _ Hw).
      * intros [Hl Ht]. apply HR. split.
        -- apply Forall_cons_1 in Hl as [_ Hl]. eapply Forall_impl; [exact Hl|].
           intros o (p' & -> & Hp'). exists p'. split; [done|].
           by apply (wired_live _ _ _ _ Hw).
        -- intros k r Hk. apply (wired_live _ _ _ _ Hw). by eapply Ht.
    + destruct HR1 as (k & Hk & He & Hg).
      exists w1, (Fail e). split_and!; try done.
      exists p, (p_arguments (def_provider d)), k. split_and!; try done; [by left|].
      unfold argsOf. by rewrite Hp.
    + exists w1, (Panic m). split_and!; try done. intros [Hl Ht]. apply HR1.
      split; [by eexists|done].
Qed.

Lemma insOf_source (p x : loc) (rs : list loc) :
  insOf (map (pair p) rs) x = if decide (p = x) then rs else [].
Proof.
  unfold insOf. destruct (decide (p = x)) as [Hpx|Hpx].
  - induction rs as [|r rs IH]; [done|]. cbn. rewrite decide_True by done.
    f_equal. exact IH.
  - induction rs as [|r rs IH]; [done|]. cbn. rewrite decide_False by done.
    exact IH.
Qed.

Lemma edges_ins (s : Storage.definitions) (h : heap) (ps : list loc)
    (E : list (loc * loc)) (p : loc) (rs : list loc) :
  NoDup ps → p ∈ ps → edges s h ps = Some E →
  edgesOf s h p = Some (map (pair p) rs) →
  insOf E p = rs.
Proof.
  revert E. induction ps as [|q ps IH]; intros E Hnd Hin HE Hp.
  - by apply not_elem_of_nil in Hin.
  - apply NoDup_cons in Hnd as [Hq Hnd]. unfold edges in HE. simpl in HE.
    destruct (edgesOf s h q) as [Eq|] eqn:HEq; [|done]. simpl in HE.
    destruct (mapM (edgesOf s h) ps) as [Es|] eqn:HEs; [|done]. simpl in HE.
    injection HE as <-. rewrite insOf_app.
    assert (∃ rq, Eq = map (pair q) rq) as [rq ->].
    { unfold edgesOf in HEq. destruct (argsOf h q); [|done]. simpl in HEq.
      destruct (mapM (resolve s) l); [|done]. simpl in HEq. injection HEq as <-.
      by eexists. }
    rewrite insOf_source.
    apply elem_of_cons in Hin as [->|Hin].
    + rewrite decide_True by done. rewrite HEq in Hp. injection Hp as Hp.
      assert (rq = rs) as ->.
      { clear -Hp. revert rs Hp. induction rq as [|a rq IH]; intros [|b rs] Hp; try done.
        simpl in Hp. injection Hp as -> Hp. f_equal. by apply IH. }
      assert (insOf (concat Es) q = []) as ->; [|by rewrite app_nil_r].
      clear -Hq HEs. revert Es HEs. induction ps as [|x ps IH]; intros Es HEs.
      * simpl in HEs. by injection HEs as <-.
      * apply not_elem_of_cons in Hq as [Hne Hq]. simpl in HEs.
        destruct (edgesOf s h x) as [Ex|] eqn:HEx; [|done]. simpl in HEs.
        destruct (mapM (edgesOf s h) ps) as [Es'|]; [|done]. simpl in HEs.
        injection HEs as <-. simpl. rewrite insOf_app, (IH Hq Es' eq_refl), app_nil_r.
        unfold edgesOf in HEx. destruct (argsOf h x); [|done]. simpl in HEx.
        destruct (mapM (resolve s) l); [|done]. simpl in HEx. injection HEx as <-.
        rewrite insOf_source. by rewrite decide_False.
    + rewrite decide_False by (intros ->; done). simpl.
      apply (IH (concat Es)); try done. unfold edges. by rewrite HEs.
Qed.

Lemma edges_elem (s : Storage.definitions) (h : heap) (ps : list loc)
    (E : list (loc * loc)) (p r : loc) (rs : list loc) :
  p ∈ ps → edges s h ps = Some E → edgesOf s h p = Some (map (pair p) rs) →
  r ∈ rs → (p, r) ∈ E.
Proof.
  revert E. induction ps as [|q ps IH]; intros E Hin HE Hp Hr.
  - by apply not_elem_of_nil in Hin.
  - unfold edges in HE. simpl in HE.
    destruct (edgesOf s h q) as [Eq|] eqn:HEq; [|done]. simpl in HE.
    destruct (mapM (edgesOf s h) ps) as [Es|] eqn:HEs; [|done]. simpl in HE.
    injection HE as <-. apply elem_of_app.
    destruct (decide (q = p)) as [->|Hne].
    + left. rewrite HEq in Hp. injection Hp as ->. apply list_elem_of_fmap. by exists r.
    + right. apply elem_of_cons in Hin as [->|Hin]; [done|].
      apply IH; try done. unfold edges. by rewrite HEs.
Qed.

Lemma outsOf_elem (E : list (loc * loc)) (p r : loc) : (p, r) ∈ E → p ∈ outsOf E r.
Proof.
  intros H. unfold outsOf. apply list_elem_of_omap. exists (p, r). split; [done|].
  simpl. by rewrite decide_True.
Qed.

Lemma edges_total (s : Storage.definitions) (h : heap) (ps : list loc) (E : list (loc * loc)) :
  edges s h ps = Some E →
  ∀ p, p ∈ ps → ∃ d rs, h !! p = Some d ∧
    mapM (resolve s) (p_arguments (def_provider d)) = Some rs ∧
    edgesOf s h p = Some (map (pair p) rs).
Proof.
  revert E. induction ps as [|q ps IH]; intros E HE p Hin.
  - by apply not_elem_of_nil in Hin.
  - unfold edges in HE. simpl in HE.
    destruct (edgesOf s h q) as [Eq|] eqn:HEq; [|done]. simpl in HE.
    destruct (mapM (edgesOf s h) ps) as [Es|] eqn:HEs; [|done].
    apply elem_of_cons in Hin as [->|Hin].
    + destruct (h !! q) as [d|] eqn:Hq.
      2:{ unfold edgesOf, argsOf in HEq. by rewrite Hq in HEq. }
      destruct (mapM (resolve s) (p_arguments (def_provider d))) as [rs|] eqn:Hrs.
      2:{ unfold edgesOf, argsOf in HEq. rewrite Hq in HEq. simpl in HEq.
          by rewrite Hrs in HEq. }
      exists d, rs. split_and!; [done..|by apply edgesOf_live with d].
    + apply (IH (concat Es)); [|done]. unfold edges. by rewrite HEs.
Qed.

Lemma resolve_get (s : Storage.definitions) (k : key) (r : loc) :
  resolve s k = Some r ↔ Storage.get s k = Ret r.
Proof.
  unfold resolve. destruct (Storage.get s k); split; congruence.
Qed.

(** C9: the wiring adds mutual edges, argument by argument, and aborts
    with the not-provided cause of an argument that does not resolve.
    For a storage that lists the distinct live definitions [ps], whose
    incoming lists are empty before the wiring: the wiring ends without
    a panic; when it succeeds, the incoming list of every definition
    holds, position by position, the definition that [get] resolves for
    the argument at that position, and the definition occurs in the
    outgoing list of each of them; when it fails, the error is the
    not-provided error of an argument of a stored definition; and it
    fails as soon as one argument of a stored definition does not
    resolve. *)
Theorem connect_mutual_edges (c : Container) (w : world) (ps : list loc) :
  registry (w_defs w) (storage c) ps →
  (∀ p d, p ∈ ps → w_defs w !! p = Some d → def_in d = []) →
  ∃ w' R, connectDefinitions (c, w) = Done (c, w') R ∧
    (R = Ret () →
       ∀ p, p ∈ ps → ∃ d d',
         w_defs w !! p = Some d ∧ w_defs w' !! p = Some d' ∧
         Forall2 (λ k r, Storage.get (storage c) k = Ret r ∧
                         ∃ dr, w_defs w' !! r = Some dr ∧ p ∈ def_out dr)
                 (p_arguments (def_provider d)) (def_in d')) ∧
    (∀ e, R = Fail e →
       ∃ p ks k, p ∈ ps ∧ argsOf (w_defs w) p = Some ks ∧ k ∈ ks ∧
         e = EWithStack (notProvided k) ∧
         Storage.get (storage c) k = Fail (notProvided k)) ∧
    ((∃ p ks k, p ∈ ps ∧ argsOf (w_defs w) p = Some ks ∧ k ∈ ks ∧
        Storage.get (storage c) k = Fail (notProvided k)) → is_err R) ∧
    (∀ m, R ≠ Panic m).
Proof.
  intros (Hall & Hnd & Hlive & Hget) Hin.
  rewrite connectDefinitions_unfold, Hall.
  destruct (connect_loop c (map Some ps) w) as (w' & R & Hrun & _ & _ & HR).
  exists w', R. split; [done|].
  assert (HnoPanic : ∀ m, R ≠ Panic m).
  { intros m ->. apply HR. split.
    - apply Forall_fmap, Forall_forall. intros p Hp. exists p. split; [done|]. by apply Hlive.
    - intros k r Hk. apply Hlive. by eapply Hget. }
  assert (Hsucc : R = Ret () → ∃ E, edges (storage c) (w_defs w) ps = Some E ∧
                                    wired E (w_defs w) (w_defs w')).
  { intros ->. destruct HR as (ps' & E & Hps & HE & Hw).
    apply (inj (fmap Some)) in Hps as <-. by exists E. }
  split_and!; [|..|done].
  - intros HRet. destruct (Hsucc HRet) as (E & HE & Hw). intros p Hp.
    destruct (edges_total _ _ _ _ HE p Hp) as (d & rs & Hd & Hrs & HEp).
    destruct (w_defs w' !! p) as [d'|] eqn:Hd'.
    2:{ rewrite (Hw p), Hd in Hd'. done. }
    exists d, d'. split_and!; try done.
    destruct (wired_provider _ _ _ _ _ Hw Hd') as (d0 & Hd0 & _ & _ & _ & _ & _ & Hi & _).
    rewrite Hd in Hd0. injection Hd0 as <-.
    rewrite Hi, (Hin _ _ Hp Hd), (edges_ins _ _ _ _ _ _ Hnd Hp HE HEp). simpl.
    apply mapM_Some in Hrs.
    assert (∀ r, r ∈ rs → ∃ dr, w_defs w' !! r = Some dr ∧ p ∈ def_out dr) as Hout.
    { intros r Hr. pose proof (edges_elem _ _ _ _ _ _ _ Hp HE HEp Hr) as HinE.
      destruct (w_defs w' !! r) as [dr|] eqn:Hdr.
      - exists dr. split; [done|].
        destruct (wired_provider _ _ _ _ _ Hw Hdr) as (? & _ & _ & _ & _ & _ & _ & _ & Ho).
        rewrite Ho. apply elem_of_app. right. by apply outsOf_elem.
      - exfalso. apply list_elem_of_lookup in Hr as [i Hi'].
        destruct (Forall2_lookup_r _ _ _ _ _ Hrs Hi') as (k & _ & Hk).
        apply resolve_get in Hk. apply Hget, Hlive in Hk.
        apply (wired_live _ _ _ r Hw) in Hk. rewrite Hdr in Hk. by destruct Hk. }
    clear -Hrs Hout. induction Hrs as [|k r ks rs Hk _ IH]; [constructor|].
    constructor.
    + split; [by apply resolve_get|]. apply Hout. by left.
    + apply IH. intros r' Hr'. apply Hout. by right.
  - intros e ->. destruct HR as (p & ks & k & Hp & Hks & Hk & He & Hg).
    exists p, ks, k. split_and!; try done.
    apply list_elem_of_fmap in Hp as (p' & [= <-] & Hp'). done.
  - intros (p & ks & k & Hp & Hks & Hk & Hg).
    destruct R as [[]|e|m]; [|by eexists|by destruct (HnoPanic m)].
    exfalso. destruct (Hsucc eq_refl) as (E & HE & _).
    destruct (edges_total _ _ _ _ HE p Hp) as (d & rs & Hd & Hrs & _).
    unfold argsOf in Hks. rewrite Hd in Hks. injection Hks as <-.
    apply mapM_Some in Hrs. apply list_elem_of_lookup in Hk as [i Hi].
    destruct (Forall2_lookup_l _ _ _ _ _ Hrs Hi) as (r & _ & Hr).
    apply resolve_get in Hr. congruence.
Qed.

(** ** Creating and registering definitions *)

(** The wrapper constructors only inspect the signature: whatever the
    outcome, the state is the one they started in. *)
Lemma newFuncProvider_pure (provider : any) (w : world) :
  ∃ r, newFuncProvider provider w = Done w r.
Proof.
  unfold newFuncProvider.
  destruct (TypeOf provider ≫= NumOut) as [n|]; [|by eexists].
  destruct (bool_decide (n ≤ 0)%nat || bool_decide (2 < n)%nat); [by eexists|].
  destruct (bool_decide (n = 2%nat) && negb (outImplements (TypeOf provider) 1 errorInterface));
    [by eexists|].
  destruct (Type_ (ValueOf provider) ≫= λ t, Out t 0); by eexists.
Qed.

Lemma createDefinition_spec (po : providerOptions) (w : world) :
  ∃ w' R, createDefinition po w = Done w' R ∧
    w_mem w' = w_mem w ∧ w_calls w' = w_calls w ∧
    match R with
    | Ret p => ∃ d, w_defs w !! p = None ∧ w_defs w' = <[p := d]> (w_defs w) ∧
                    pristine d ∧ po_name po = name (def_key d)
    | _ => w' = w
    end.
Proof.
  unfold createDefinition. unfold bind at 1.
  assert (∃ r, (match Kind_ (ValueOf (po_provider po)) with
                | Some KFunc => newFuncProvider (po_provider po)
                | _ => newStructProvider (po_provider po)
                end) w = Done w r) as [r ->].
  { destruct (Kind_ (ValueOf (po_provider po))) as [[]|]; try by eexists.
    apply newFuncProvider_pure. }
  destruct r as [wrapper|e|m]; [|by exists w; eexists..].
  unfold bind at 1. destruct (args wrapper) as [arguments|]; [|by exists w; eexists].
  unfold ret at 1. unfold bind at 1.
  destruct (mapM capabilityKey (po_implements po)) as [implements|]; [|by exists w; eexists].
  unfold ret at 1. unfold bind, getState, putState, ret. simpl.
  eexists. eexists. split; [done|]. split_and!; try done.
  eexists. split_and!; try done.
  apply not_elem_of_dom. apply is_fresh.
Qed.

Lemma regInv_empty (h : heap) : regInv h Storage.empty [].
Proof.
  unfold regInv. split_and!.
  - apply NoDup_nil_2.
  - apply Forall2_nil_2.
  - intros p Hp. by apply not_elem_of_nil in Hp.
  - intros k p Hp. simpl in Hp. by rewrite lookup_empty in Hp.
  - intros k p Hp. unfold Storage.claimants in Hp. simpl in Hp.
    rewrite lookup_empty in Hp. by apply not_elem_of_nil in Hp.
Qed.

Lemma regInv_registry (h : heap) (s : Storage.definitions) (ps : list loc) :
  regInv h s ps → registry h s ps.
Proof.
  intros (Hnd & Hk & Hp & Hd & Hc). split_and!; try done.
  - unfold Storage.all. clear -Hk. induction Hk as [|k p ks ps Hkp _ IH]; [done|].
    simpl. by rewrite Hkp, IH.
  - intros p Hin. destruct (Hp p Hin) as (d & -> & _). by eexists.
  - intros k r. unfold Storage.get.
    destruct (Storage.defs s !! k) as [q|] eqn:Hq.
    + intros [= <-]. by eapply Hd.
    + destruct (Storage.claimants s k) as [|q l] eqn:Hcl; [done|].
      intros [= <-]. apply (Hc k). rewrite Hcl. by left.
Qed.

Lemma regInv_add (h : heap) (s : Storage.definitions) (ps : list loc)
    (p : loc) (d : definition) :
  regInv h s ps → h !! p = None → pristine d →
  Storage.defs s !! def_key d = None →
  regInv (<[p := d]> h) (Storage.add (<[p := d]> h) s p).1 (ps ++ [p]).
Proof.
  intros (Hnd & Hk & Hp & Hd & Hc) Hfresh Hpr Hfree.
  assert (Hnew : p ∉ ps).
  { intros Hin. destruct (Hp p Hin) as (? & ? & _). congruence. }
  rewrite (StorageFacts.add_free _ _ _ d) by (by rewrite ?lookup_insert_eq). simpl.
  split_and!; simpl.
  - apply NoDup_app. split_and!; [done| |apply NoDup_singleton].
    intros x Hx Hx'. apply list_elem_of_singleton in Hx'. by subst.
  - apply Forall2_app.
    + eapply Forall2_impl; [exact Hk|]. intros k q Hkq. simpl in Hkq.
      rewrite lookup_insert_ne; [done|]. intros <-. congruence.
    + constructor; [|constructor]. by rewrite lookup_insert_eq.
  - intros q Hq. apply elem_of_app in Hq as [Hq|Hq].
    + destruct (Hp q Hq) as (dq & Hdq & Hprq & Hkq). exists dq. split_and!; try done.
      * rewrite lookup_insert_ne; [done|]. intros <-. congruence.
      * rewrite lookup_insert_ne; [done|]. intros Heq. congruence.
    + apply list_elem_of_singleton in Hq as ->. exists d.
      by rewrite !lookup_insert_eq.
  - intros k q Hq. destruct (decide (def_key d = k)) as [<-|Hne].
    + rewrite lookup_insert_eq in Hq. injection Hq as <-. apply elem_of_app. right. by left.
    + rewrite lookup_insert_ne in Hq by done. apply elem_of_app. left. by eapply Hd.
  - intros k q Hq. unfold Storage.claimants in Hq. simpl in Hq.
    rewrite StorageFacts.addImplements_lookup in Hq.
    apply elem_of_app in Hq as [Hq|Hq].
    + apply elem_of_app. left. by eapply Hc.
    + apply elem_of_replicate in Hq as [-> _]. apply elem_of_app. right. by left.
Qed.

Lemma registerProviders_unfold (c : Container) (w : world) :
  registerProviders (c, w) = forEach (providers c) registerBody (c, w).
Proof. reflexivity. Qed.

Lemma registerBody_spec (po : providerOptions) (c : Container) (w : world) :
  ∃ c' w' R, registerBody po (c, w) = Done (c', w') R ∧
    w_mem w' = w_mem w ∧ w_calls w' = w_calls w ∧ sameOptions c c' ∧
    w_defs w ⊆ w_defs w' ∧
    match R with
    | Ret _ => ∀ ps, regInv (w_defs w) (storage c) ps →
                     ∃ p, regInv (w_defs w') (storage c') (ps ++ [p])
    | Fail e => registerError e
    | Panic _ => True
    end.
Proof.
  unfold registerBody. case_bool_decide as Hnil.
  { exists c, w. eexists. split; [done|]. split_and!; try done. by left. }
  unfold bind, orWrap, liftW. simpl.
  destruct (createDefinition_spec po w) as (w1 & R1 & -> & Hm & Hc & HR1).
  destruct R1 as [p|e|m].
  2:{ subst w1. exists c, w. eexists. split; [done|]. split_and!; try done.
      right. left. by eexists. }
  2:{ subst w1. exists c, w. eexists. split; [done|]. split_and!; try done. }
  destruct HR1 as (d & Hfresh & Hdefs & Hpr & _).
  unfold storageAdd. simpl.
  assert (Hsub : w_defs w ⊆ w_defs w1).
  { rewrite Hdefs. by apply insert_subseteq. }
  destruct (Storage.defs (storage c) !! def_key d) as [x|] eqn:Hk.
  - rewrite (StorageFacts.add_bound _ _ _ d x) by (by rewrite ?Hdefs, ?lookup_insert_eq).
    simpl. eexists. eexists. eexists. split; [done|]. split_and!; try done.
    right. right. by eexists.
  - pose proof (StorageFacts.add_free (w_defs w1) (storage c) p d) as Hadd.
    assert (Hp1 : w_defs w1 !! p = Some d) by (by rewrite Hdefs, lookup_insert_eq).
    specialize (Hadd Hp1 Hk). rewrite Hadd. simpl.
    eexists. eexists. eexists. split; [done|]. split_and!; try done.
    intros ps Hinv. exists p. simpl.
    pose proof (regInv_add _ _ _ p d Hinv Hfresh Hpr Hk) as Hnew.
    rewrite <- Hdefs, Hadd in Hnew. exact Hnew.
Qed.

Lemma sameOptions_trans c1 c2 c3 :
  sameOptions c1 c2 → sameOptions c2 c3 → sameOptions c1 c3.
Proof. intros (? & ? & ?) (? & ? & ?). split_and!; congruence. Qed.

Lemma register_loop (pos : list providerOptions) (c : Container) (w : world) :
  ∃ c' w' R, forEach pos registerBody (c, w) = Done (c', w') R ∧
    w_mem w' = w_mem w ∧ w_calls w' = w_calls w ∧ sameOptions c c' ∧
    w_defs w ⊆ w_defs w' ∧
    match R with
    | Ret _ => ∀ ps, regInv (w_defs w) (storage c) ps →
                     ∃ qs, length qs = length pos ∧
                           regInv (w_defs w') (storage c') (ps ++ qs)
    | Fail e => registerError e
    | Panic _ => True
    end.
Proof.
  revert c w. induction pos as [|po pos IH]; intros c w.
  - exists c, w, (Ret ()). split_and!; try done.
    intros ps Hps. exists []. by rewrite app_nil_r.
  - rewrite forEach_cons.
    destruct (registerBody_spec po c w) as (c1 & w1 & R1 & -> & Hm & Hc & Ho & Hsub & HR1).
    destruct R1 as [[]|e|m]; [|by exists c1, w1; eexists..].
    destruct (IH c1 w1) as (c' & w' & R & -> & Hm' & Hc' & Ho' & Hsub' & HR).
    exists c', w', R. split_and!; try congruence.
    { by eapply sameOptions_trans. }
    { by etrans. }
    destruct R as [[]|e|m]; try done.
    intros ps Hps. destruct (HR1 ps Hps) as (p & Hp).
    destruct (HR _ Hp) as (qs & Hlen & Hqs). exists (p :: qs). split.
    + simpl. by rewrite Hlen.
    + by rewrite <- app_assoc in Hqs.
Qed.

(** From the empty storage, a successful registration leaves a
    well-formed registry of pristine definitions. *)
Lemma registerProviders_registry (c c' : Container) (w w' : world) :
  storage c = Storage.empty →
  registerProviders (c, w) = Done (c', w') (Ret ()) →
  ∃ ps, registry (w_defs w') (storage c') ps ∧
        (∀ p, p ∈ ps → ∃ d, w_defs w' !! p = Some d ∧ pristine d) ∧
        length ps = length (providers c) ∧
        sameOptions c c' ∧ w_mem w' = w_mem w ∧ w_calls w' = w_calls w.
Proof.
  intros Hs Hrun. rewrite registerProviders_unfold in Hrun.
  destruct (register_loop (providers c) c w) as (c1 & w1 & R & Hrun' & Hm & Hc & Ho & _ & HR).
  rewrite Hrun in Hrun'. injection Hrun' as <- <- <-.
  destruct (HR [] ltac:(rewrite Hs; apply regInv_empty)) as (qs & Hlen & Hqs).
  simpl in Hqs. exists qs. split_and!; try done.
  - by apply regInv_registry.
  - intros p Hp. destruct Hqs as (_ & _ & Hq & _).
    destruct (Hq p Hp) as (d & ? & ? & _). by exists d.
Qed.

(** ** Cycle detection *)

Lemma sameGraph_lookup (h h' : heap) (x : loc) :
  sameGraph h h' →
  match h !! x, h' !! x with
  | Some d, Some d' => d' = setVisited (def_visited d') d
  | None, None => True
  | _, _ => False
  end.
Proof.
  intros H. apply (f_equal (λ m, m !! x)) in H. unfold erase in H.
  rewrite !lookup_fmap in H.
  destruct (h !! x) as [d|], (h' !! x) as [d'|]; simpl in H; try done.
  injection H as H. destruct d, d'. unfold setVisited in *. simpl in *.
  congruence.
Qed.

Lemma sameGraph_out (h h' : heap) (x : loc) :
  sameGraph h h' → def_out <$> h' !! x = def_out <$> h !! x.
Proof.
  intros H. pose proof (sameGraph_lookup h h' x H) as Hx.
  destruct (h !! x) as [d|], (h' !! x) as [d'|]; try done. simpl. by rewrite Hx.
Qed.

Lemma edge_out (h : heap) (x y : loc) :
  edge h x y ↔ ∃ l, def_out <$> h !! x = Some l ∧ y ∈ l.
Proof.
  unfold edge. split.
  - intros (d & -> & Hy). by exists (def_out d).
  - intros (l & Hl & Hy). destruct (h !! x) as [d|]; [|done].
    injection Hl as <-. by exists d.
Qed.

Lemma sameGraph_edge (h h' : heap) (x y : loc) :
  sameGraph h h' → edge h x y ↔ edge h' x y.
Proof. intros H. by rewrite !edge_out, (sameGraph_out _ _ _ H). Qed.

Lemma sameGraph_tc (h h' : heap) (x y : loc) :
  sameGraph h h' → tc (edge h) x y ↔ tc (edge h') x y.
Proof.
  intros H. split; intros Htc.
  - induction Htc as [a b Hab|a b c Hab _ IH].
    + apply tc_once. by apply (sameGraph_edge _ _ _ _ H).
    + eapply tc_l; [|exact IH]. by apply (sameGraph_edge _ _ _ _ H).
  - induction Htc as [a b Hab|a b c Hab _ IH].
    + apply tc_once. by apply (sameGraph_edge _ _ _ _ H).
    + eapply tc_l; [|exact IH]. by apply (sameGraph_edge _ _ _ _ H).
Qed.

Lemma sameGraph_cyclic (h h' : heap) (N : list loc) :
  sameGraph h h' → cyclic h N ↔ cyclic h' N.
Proof.
  intros H. unfold cyclic. split; intros (x & Hx & Hc); exists x; split; try done;
    by apply (sameGraph_tc _ _ _ _ H).
Qed.

Lemma sameGraph_closed (h h' : heap) (N : list loc) :
  sameGraph h h' → closed h N → closed h' N.
Proof.
  intros H Hc x Hx. destruct (Hc x Hx) as (d & Hd & Hout).
  pose proof (sameGraph_lookup h h' x H) as Hx'. rewrite Hd in Hx'.
  destruct (h' !! x) as [d'|]; [|done]. exists d'. split; [done|].
  rewrite Hx'. done.
Qed.

Lemma sameGraph_refl (h : heap) : sameGraph h h.
Proof. done. Qed.

Lemma sameGraph_trans (h1 h2 h3 : heap) :
  sameGraph h1 h2 → sameGraph h2 h3 → sameGraph h1 h3.
Proof. unfold sameGraph. congruence. Qed.

Lemma sameGraph_mark (h : heap) (p : loc) (d : definition) (m : visitMark) :
  h !! p = Some d → sameGraph h (<[p := setVisited m d]> h).
Proof.
  intros Hp. unfold sameGraph, erase. rewrite fmap_insert.
  symmetry. apply insert_id. rewrite lookup_fmap, Hp. done.
Qed.

Lemma markOf_insert (h : heap) (p x : loc) (d : definition) (m : visitMark) :
  markOf (<[p := setVisited m d]> h) x = if decide (p = x) then Some m else markOf h x.
Proof.
  unfold markOf. destruct (decide (p = x)) as [->|Hne].
  - by rewrite lookup_insert_eq.
  - by rewrite lookup_insert_ne.
Qed.

Lemma sameGraph_live_mark (h h' : heap) (x : loc) :
  sameGraph h h' → is_Some (markOf h x) ↔ is_Some (markOf h' x).
Proof.
  intros H. pose proof (sameGraph_lookup h h' x H) as Hx. unfold markOf.
  destruct (h !! x), (h' !! x); try done; split; intros [? ?]; done.
Qed.

Lemma unmarked_mono (h h' : heap) (N : list loc) :
  (∀ x, x ∈ N → markOf h' x = Some visitMarkUnmarked →
        markOf h x = Some visitMarkUnmarked) →
  unmarked h' N ≤ unmarked h N.
Proof.
  unfold unmarked. induction N as [|x N IH]; intros H; [done|].
  rewrite !filter_cons.
  assert (IH' : length (filter (λ x, markOf h' x = Some visitMarkUnmarked) N)
              ≤ length (filter (λ x, markOf h x = Some visitMarkUnmarked) N)).
  { apply IH. intros y Hy. apply H. by right. }
  destruct (decide (markOf h' x = Some visitMarkUnmarked)) as [Hx|Hx].
  - rewrite decide_True by (apply H; [by left|done]). simpl. lia.
  - destruct (decide (markOf h x = Some visitMarkUnmarked)); simpl; lia.
Qed.

Lemma unmarked_dec (h h' : heap) (N : list loc) (p : loc) :
  (∀ x, x ∈ N → markOf h' x = Some visitMarkUnmarked →
        markOf h x = Some visitMarkUnmarked) →
  p ∈ N → markOf h p = Some visitMarkUnmarked →
  markOf h' p ≠ Some visitMarkUnmarked →
  unmarked h' N < unmarked h N.
Proof.
  unfold unmarked. induction N as [|x N IH]; intros H Hp Hm Hm'.
  - by apply not_elem_of_nil in Hp.
  - rewrite !filter_cons.
    assert (Hle : length (filter (λ x, markOf h' x = Some visitMarkUnmarked) N)
              ≤ length (filter (λ x, markOf h x = Some visitMarkUnmarked) N)).
    { apply (unmarked_mono h h' N). intros y Hy. apply H. by right. }
    destruct (decide (x = p)) as [->|Hne].
    + rewrite decide_False by done. rewrite decide_True by done. simpl. lia.
    + apply elem_of_cons in Hp as [->|Hp]; [done|].
      assert (Hlt : length (filter (λ x, markOf h' x = Some visitMarkUnmarked) N)
                  < length (filter (λ x, markOf h x = Some visitMarkUnmarked) N)).
      { apply IH; try done. intros y Hy. apply H. by right. }
      destruct (decide (markOf h' x = Some visitMarkUnmarked)) as [Hx|Hx].
      * rewrite decide_True by (apply H; [by left|done]). simpl. lia.
      * destruct (decide (markOf h x = Some visitMarkUnmarked)); simpl; lia.
Qed.

Lemma unmarked_le_length (h : heap) (N : list loc) : unmarked h N ≤ length N.
Proof. unfold unmarked. apply length_filter. Qed.

Lemma advances_refl (N : list loc) (h : heap) : advances N h h.
Proof. by split_and!. Qed.

Lemma advances_trans (N : list loc) (h1 h2 h3 : heap) :
  advances N h1 h2 → advances N h2 h3 → advances N h1 h3.
Proof.
  intros (Hg & Ht & Hp & Hi) (Hg' & Ht' & Hp' & Hi'). split_and!.
  - by eapply sameGraph_trans.
  - intros x. by rewrite Ht', Ht.
  - intros x Hx. by apply Hp', Hp.
  - intros H. by apply Hi', Hi.
Qed.

Lemma advances_unmarked (N : list loc) (h h' : heap) (x : loc) :
  advances N h h' → markOf h' x = Some visitMarkUnmarked →
  markOf h x = Some visitMarkUnmarked.
Proof.
  intros (Hg & Ht & Hp & _) Hx.
  destruct (proj2 (sameGraph_live_mark h h' x Hg)) as [m Hm]; [by eexists|].
  destruct m; [done|..].
  - apply Ht in Hm. congruence.
  - apply Hp in Hm. congruence.
Qed.

Lemma visit_loop (N : list loc) (f : nat) :
  (∀ w p, closed (w_defs w) N → p ∈ N → unmarked (w_defs w) N < f →
          visitPost N p w (visit f p w)) →
  ∀ outs w, closed (w_defs w) N → (∀ o, o ∈ outs → o ∈ N) →
            unmarked (w_defs w) N < f →
            loopPost N outs w (forEach outs (visit f) w).
Proof.
  intros IHf outs. induction outs as [|o outs IH]; intros w Hcl Hin Hfuel.
  - exists w, (Ret ()). do 3 (split; [done|]). split; [apply advances_refl|].
    intros o Ho. by apply not_elem_of_nil in Ho.
  - rewrite forEach_cons.
    destruct (IHf w o Hcl (Hin o ltac:(by left)) Hfuel)
      as (w1 & R1 & -> & Hm1 & Hc1 & HR1).
    destruct R1 as [[]|e|m]; [| |done].
    2:{ exists w1, (Fail e). do 3 (split; [done|]).
        destruct HR1 as [-> Hcyc]. split; [done|]. intros Ht. apply Hcyc.
        intros t Ht1 Ht2. apply (Ht o t); [by left|done..]. }
    destruct HR1 as [Hadv Ho].
    assert (Hcl1 : closed (w_defs w1) N).
    { eapply sameGraph_closed; [|exact Hcl]. apply Hadv. }
    assert (Hfuel1 : unmarked (w_defs w1) N < f).
    { eapply Nat.le_lt_trans; [|exact Hfuel]. apply unmarked_mono.
      intros x _. by apply (advances_unmarked N). }
    destruct (IH w1 Hcl1 (λ o' Ho', Hin o' ltac:(by right)) Hfuel1)
      as (w2 & R2 & -> & Hm2 & Hc2 & HR2).
    exists w2, R2. split; [done|]. do 2 (split; [congruence|]).
    destruct R2 as [[]|e|m]; [| |done].
    + destruct HR2 as [Hadv2 Houts]. split; [by eapply advances_trans|].
      intros o' Ho'. apply elem_of_cons in Ho' as [->|Ho']; [|by apply Houts].
      destruct Hadv2 as (_ & _ & Hp & _). by apply Hp.
    + destruct HR2 as [-> Hcyc]. split; [done|]. intros Ht.
      destruct Hadv as (Hg & HT & _).
      apply (sameGraph_cyclic _ _ _ Hg). apply Hcyc.
      intros o' t Ho' HtN Htm. apply (sameGraph_tc _ _ _ _ Hg).
      apply (Ht o' t); [by right|done|]. by apply HT.
Qed.

Lemma visit_S (fuel : nat) (p : loc) (w : world) :
  visit (S fuel) p w =
  match w_defs w !! p with
  | None => Done w (Panic nilDeref)
  | Some d =>
      match def_visited d with
      | visitMarkPermanent => Done w (Ret ())
      | visitMarkTemporary => Done w (Fail errCycleDetected)
      | visitMarkUnmarked =>
          match forEach (def_out d) (visit fuel)
                  (setDefs w (<[p := setVisited visitMarkTemporary d]> (w_defs w))) with
          | Done w2 (Ret _) => update p (setVisited visitMarkPermanent) w2
          | Done w2 (Fail e) => Done w2 (Fail e)
          | Done w2 (Panic m) => Done w2 (Panic m)
          | Diverge => Diverge
          end
      end
  end.
Proof.
  simpl. unfold bind at 1, deref.
  destruct (w_defs w !! p) as [d|] eqn:Hp; [|done].
  destruct (def_visited d); try done.
  unfold bind at 1. rewrite (update_live _ _ _ _ Hp). unfold bind.
  by destruct (forEach _ _ _) as [? [[]| |]|].
Qed.

(** Done nodes reach done nodes only. *)
Lemma doneInv_reach (h : heap) (N : list loc) (x y : loc) :
  closed h N → doneInv h N → x ∈ N → markOf h x = Some visitMarkPermanent →
  tc (edge h) x y → markOf h y = Some visitMarkPermanent.
Proof.
  intros Hcl [Hd _] Hx Hm Htc. induction Htc as [a b Hab|a b c Hab _ IH].
  - by eapply Hd.
  - apply IH.
    + destruct Hab as (d & Hd' & Hb). destruct (Hcl a Hx) as (d' & Hd'' & Hout).
      apply Hout. congruence.
    + by eapply Hd.
Qed.

Lemma visit_spec (N : list loc) (fuel : nat) :
  ∀ w p, closed (w_defs w) N → p ∈ N → unmarked (w_defs w) N < fuel →
         visitPost N p w (visit fuel p w).
Proof.
  induction fuel as [|f IHf]; intros w p Hcl Hp Hfuel; [lia|].
  rewrite visit_S. destruct (Hcl p Hp) as (d & Hd & Hout). rewrite Hd.
  destruct (def_visited d) eqn:Hv.
  - (* unmarked: enter, traverse, leave *)
    set (h1 := <[p := setVisited visitMarkTemporary d]> (w_defs w)).
    set (w1 := setDefs w h1).
    assert (Hmp : markOf (w_defs w) p = Some visitMarkUnmarked).
    { unfold markOf. by rewrite Hd, <- Hv. }
    assert (Hg1 : sameGraph (w_defs w) h1) by (by apply sameGraph_mark).
    assert (Hcl1 : closed (w_defs w1) N) by (by eapply sameGraph_closed).
    assert (Hfuel1 : unmarked (w_defs w1) N < f).
    { assert (unmarked h1 N < unmarked (w_defs w) N); [|simpl; lia].
      apply (unmarked_dec (w_defs w) h1 N p); try done.
      - intros x _. unfold h1. rewrite markOf_insert.
        destruct (decide (p = x)); [done|tauto].
      - unfold h1. rewrite markOf_insert, decide_True by done. done. }
    destruct (visit_loop N f IHf (def_out d) w1 Hcl1 Hout Hfuel1)
      as (w2 & R2 & -> & Hm2 & Hc2 & HR2).
    destruct R2 as [[]|e|m]; [| |done].
    + destruct HR2 as [(Hg2 & HT2 & HP2 & HI2) Houts].
      assert (Hmp2 : markOf (w_defs w2) p = Some visitMarkTemporary).
      { apply HT2. simpl. unfold h1. by rewrite markOf_insert, decide_True. }
      destruct ((w_defs w2) !! p) as [d2|] eqn:Hd2; [|by unfold markOf in Hmp2; rewrite Hd2 in Hmp2].
      rewrite (update_live _ _ _ _ Hd2).
      set (h3 := <[p := setVisited visitMarkPermanent d2]> (w_defs w2)).
      assert (Hg3 : sameGraph (w_defs w2) h3) by (by apply sameGraph_mark).
      assert (Hg : sameGraph (w_defs w) h3).
      { eapply sameGraph_trans; [exact Hg1|]. eapply sameGraph_trans; [exact Hg2|done]. }
      eexists. eexists. split; [done|]. split; [done|]. split; [done|]. simpl.
      fold h3. split; [|by unfold h3; rewrite markOf_insert, decide_True].
      split_and!; [done|..].
      * intros x. unfold h3. rewrite markOf_insert.
        destruct (decide (p = x)) as [<-|Hne].
        { split; [done|congruence]. }
        rewrite HT2. simpl. unfold h1. rewrite markOf_insert, decide_False by done. done.
      * intros x Hx. unfold h3. rewrite markOf_insert.
        destruct (decide (p = x)) as [<-|Hne]; [done|].
        apply HP2. simpl. unfold h1. by rewrite markOf_insert, decide_False.
      * intros Hinv.
        assert (Hinv1 : doneInv h1 N).
        { destruct Hinv as [Hc Ha]. split.
          - intros x y Hx Hm Hxy. unfold h1 in *. rewrite markOf_insert in Hm.
            destruct (decide (p = x)) as [<-|Hne]; [done|].
            apply (sameGraph_edge _ _ _ _ Hg1) in Hxy.
            pose proof (Hc x y Hx Hm Hxy) as Hy. rewrite markOf_insert.
            destruct (decide (p = y)) as [<-|Hne']; [congruence|done].
          - intros x Hx Hm Htc. unfold h1 in Hm. rewrite markOf_insert in Hm.
            destruct (decide (p = x)) as [<-|Hne]; [done|].
            apply (Ha x Hx Hm). by apply (sameGraph_tc _ _ _ _ Hg1). }
        pose proof (HI2 Hinv1) as Hinv2. simpl in Hinv2.
        assert (Hcl2 : closed (w_defs w2) N).
        { eapply sameGraph_closed; [exact Hg2|exact Hcl1]. }
        assert (Hout2 : ∀ y, edge (w_defs w2) p y → markOf (w_defs w2) y = Some visitMarkPermanent).
        { intros y Hy. apply Houts. apply (sameGraph_edge _ _ _ _ Hg2) in Hy.
          apply (sameGraph_edge _ _ _ _ Hg1) in Hy.
          destruct Hy as (d' & Hd' & Hy). congruence. }
        destruct Hinv2 as [Hc2' Ha2]. split.
        -- intros x y Hx Hm Hxy. unfold h3 in Hm |- *. rewrite markOf_insert in Hm.
           apply (sameGraph_edge _ _ _ _ Hg3) in Hxy. rewrite markOf_insert.
           destruct (decide (p = y)) as [<-|Hne']; [done|].
           destruct (decide (p = x)) as [<-|Hne]; [by apply Hout2|].
           by apply (Hc2' x y).
        -- intros x Hx Hm Htc. unfold h3 in Hm. rewrite markOf_insert in Hm.
           apply (sameGraph_tc _ _ _ _ Hg3) in Htc.
           destruct (decide (p = x)) as [<-|Hne]; [|by apply (Ha2 x)].
           assert (markOf (w_defs w2) p = Some visitMarkPermanent); [|congruence].
           inversion Htc as [a b Hab|a b c Hab Hbc]; subst.
           ++ by apply Hout2.
           ++ apply (doneInv_reach (w_defs w2) N b p); try done.
              ** destruct Hab as (d' & Hd' & Hb). destruct (Hcl2 p Hp) as (d'' & Hd'' & Ho).
                 apply Ho. congruence.
              ** by apply Hout2.
    + destruct HR2 as [-> Hcyc].
      eexists. eexists. split; [done|]. split; [done|]. split; [done|].
      split; [done|]. intros HT. apply (sameGraph_cyclic _ _ _ Hg1). apply Hcyc.
      intros o t Ho Ht Hm. apply (sameGraph_tc _ _ _ _ Hg1). simpl in Hm.
      unfold h1 in Hm. rewrite markOf_insert in Hm.
      assert (Hpo : edge (w_defs w) p o) by (by exists d).
      destruct (decide (p = t)) as [<-|Hne]; [by apply tc_once|].
      eapply tc_r; [|exact Hpo]. by apply HT.
  - (* in progress: a cycle *)
    exists w. eexists. split; [done|]. split; [done|]. split; [done|].
    split; [done|]. intros HT. exists p. split; [done|]. apply HT; [done|].
    unfold markOf. by rewrite Hd, <- Hv.
  - (* done: skipped *)
    exists w. eexists. split; [done|]. split; [done|]. split; [done|].
    split; [apply advances_refl|]. unfold markOf. by rewrite Hd, <- Hv.
Qed.

Lemma verifyCycles_unfold (fuel : nat) (c : Container) (w : world) :
  verifyCycles fuel (c, w) = forEach (Storage.all (storage c)) (verifyBody fuel) (c, w).
Proof. reflexivity. Qed.

Lemma verify_loop (N : list loc) (fuel : nat) (c : Container) :
  length N < fuel →
  ∀ l w, (∀ x, x ∈ l → x ∈ N) → closed (w_defs w) N →
    noneInProgress (w_defs w) N → doneInv (w_defs w) N →
    ∃ w' R, forEach (map Some l) (verifyBody fuel) (c, w) = Done (c, w') R ∧
      w_mem w' = w_mem w ∧ w_calls w' = w_calls w ∧
      match R with
      | Ret _ =>
          sameGraph (w_defs w) (w_defs w') ∧
          noneInProgress (w_defs w') N ∧ doneInv (w_defs w') N ∧
          (∀ x, markOf (w_defs w) x = Some visitMarkPermanent →
                markOf (w_defs w') x = Some visitMarkPermanent) ∧
          (∀ x, x ∈ l → markOf (w_defs w') x = Some visitMarkPermanent)
      | Fail e => e = cycleError ∧ cyclic (w_defs w) N
      | Panic _ => False
      end.
Proof.
  intros Hfuel l. induction l as [|x l IH]; intros w Hl Hcl HnoT Hinv.
  - exists w, (Ret ()). do 3 (split; [done|]). split_and!; try done.
    intros x Hx. by apply not_elem_of_nil in Hx.
  - change (map Some (x :: l)) with (Some x :: map Some l). rewrite forEach_cons.
    assert (HxN : x ∈ N) by (apply Hl; by left).
    destruct (Hcl x HxN) as (d & Hd & _).
    assert (Hrest : ∀ w1, w_mem w1 = w_mem w → w_calls w1 = w_calls w →
      advances N (w_defs w) (w_defs w1) →
      markOf (w_defs w1) x = Some visitMarkPermanent →
      ∃ w' R, forEach (map Some l) (verifyBody fuel) (c, w1) = Done (c, w') R ∧
        w_mem w' = w_mem w ∧ w_calls w' = w_calls w ∧
        match R with
        | Ret _ =>
            sameGraph (w_defs w) (w_defs w') ∧
            noneInProgress (w_defs w') N ∧ doneInv (w_defs w') N ∧
            (∀ y, markOf (w_defs w) y = Some visitMarkPermanent →
                  markOf (w_defs w') y = Some visitMarkPermanent) ∧
            (∀ y, y ∈ x :: l → markOf (w_defs w') y = Some visitMarkPermanent)
        | Fail e => e = cycleError ∧ cyclic (w_defs w) N
        | Panic _ => False
        end).
    { intros w1 Hm1 Hc1 (Hg & HT & HP & HI) Hx1.
      destruct (IH w1) as (w' & R & Hrun & Hm' & Hc' & HR).
      - intros y Hy. apply Hl. by right.
      - by eapply sameGraph_closed.
      - intros t Ht Hm. apply (HnoT t Ht). by apply HT.
      - by apply HI.
      - exists w', R. split; [done|]. do 2 (split; [congruence|]).
        destruct R as [[]|e|m]; [| |done].
        + destruct HR as (Hg' & HnoT' & Hinv' & HP' & Hl').
          split_and!; try done.
          * by eapply sameGraph_trans.
          * intros y Hy. by apply HP', HP.
          * intros y Hy. apply elem_of_cons in Hy as [->|Hy]; [by apply HP'|by apply Hl'].
        + destruct HR as [-> Hcyc]. split; [done|]. by apply (sameGraph_cyclic _ _ _ Hg). }
    unfold verifyBody at 1. unfold bind at 1, liftW at 1. simpl. unfold deref. rewrite Hd.
    case_bool_decide as Hv.
    + unfold orWrap, liftW. simpl.
      destruct (visit_spec N fuel w x Hcl HxN) as (w1 & R1 & -> & Hm1 & Hc1 & HR1).
      { pose proof (unmarked_le_length (w_defs w) N). lia. }
      destruct R1 as [[]|e|m]; [| |done].
      * destruct HR1 as [Hadv Hx1]. by apply Hrest.
      * destruct HR1 as [-> Hcyc]. exists w1. eexists. do 3 (split; [done|]).
        split; [done|]. apply Hcyc. intros t Ht Hm. by destruct (HnoT t Ht).
    + unfold ret. apply Hrest; [done|done|apply advances_refl|].
      assert (markOf (w_defs w) x = Some (def_visited d)) as Hm
        by (unfold markOf; by rewrite Hd).
      destruct (def_visited d); [done| |done]. by destruct (HnoT x HxN).
Qed.

(** The third stage, on a registry of unmarked definitions whose edges
    stay in the registry: it reports a cycle exactly when there is one,
    and otherwise leaves every definition done. *)
Lemma verifyCycles_spec (fuel : nat) (c : Container) (w : world) (ps : list loc) :
  Storage.all (storage c) = map Some ps →
  closed (w_defs w) ps →
  (∀ p, p ∈ ps → markOf (w_defs w) p = Some visitMarkUnmarked) →
  length ps < fuel →
  ∃ w' R, verifyCycles fuel (c, w) = Done (c, w') R ∧
    w_mem w' = w_mem w ∧ w_calls w' = w_calls w ∧
    ((R = Fail cycleError ∧ cyclic (w_defs w) ps) ∨
     (R = Ret () ∧ ¬ cyclic (w_defs w) ps ∧ sameGraph (w_defs w) (w_defs w') ∧
      ∀ p, p ∈ ps → markOf (w_defs w') p = Some visitMarkPermanent)).
Proof.
  intros Hall Hcl HU Hfuel. rewrite verifyCycles_unfold, Hall.
  destruct (verify_loop ps fuel c Hfuel ps w) as (w' & R & -> & Hm & Hc & HR); try done.
  - intros t Ht Hm. rewrite (HU t Ht) in Hm. done.
  - split.
    + intros x y Hx Hm. rewrite (HU x Hx) in Hm. done.
    + intros x Hx Hm. rewrite (HU x Hx) in Hm. done.
  - exists w', R. do 3 (split; [done|]).
    destruct R as [[]|e|m]; [| |done].
    + right. destruct HR as (Hg & _ & [_ Hacyc] & _ & Hdone). split_and!; try done.
      intros (x & Hx & Htc). apply (Hacyc x Hx); [by apply Hdone|].
      by apply (sameGraph_tc _ _ _ _ Hg).
    + left. by destruct HR as [-> ?].
Qed.

(** ** Lazy instantiation *)

Section Resolution.
Variable code : nat → list callev → list Value → nat → data.
Variable ProvideOption : Type.

Lemma evolves_refl (w : world) : evolves w w.
Proof.
  split.
  - intros x. destruct (w_defs w !! x) as [d|]; [|done]. exists d.
    split_and!; try done. by destruct d.
  - exists []. split; [by rewrite app_nil_r|]. intros ev x Hev.
    by apply not_elem_of_nil in Hev.
Qed.

Lemma evolves_trans (w1 w2 w3 : world) :
  evolves w1 w2 → evolves w2 w3 → evolves w1 w3.
Proof.
  intros [H1 (e1 & Hc1 & He1)] [H2 (e2 & Hc2 & He2)]. split.
  - intros x. specialize (H1 x). specialize (H2 x).
    destruct (w_defs w1 !! x) as [d1|]; [|by rewrite H1 in H2].
    destruct H1 as (d2 & Hd2 & Heq2 & Hv2). rewrite Hd2 in H2.
    destruct H2 as (d3 & Hd3 & Heq3 & Hv3). exists d3. split_and!; try done.
    + rewrite Heq3, Heq2. by destruct d1.
    + intros Hv. rewrite Hv3; [by apply Hv2|]. by rewrite (Hv2 Hv).
  - exists (e1 ++ e2). split; [by rewrite Hc2, Hc1, app_assoc|].
    intros ev x Hev Hx. apply elem_of_app in Hev as [Hev|Hev]; [by eapply He1|].
    destruct (He2 ev x Hev Hx) as (d2 & Hd2 & Hv2).
    specialize (H1 x). destruct (w_defs w1 !! x) as [d1|]; [|congruence].
    destruct H1 as (d2' & Hd2' & _ & Hv). exists d1. split; [done|].
    destruct (IsValid (def_instance d1)) eqn:Hv1; [|done].
    rewrite Hd2 in Hd2'. injection Hd2' as <-. rewrite (Hv eq_refl) in Hv2. congruence.
Qed.

Lemma evolves_cached (w w' : world) (p : loc) (v : Value) :
  evolves w w' → cached (w_defs w) p v → cached (w_defs w') p v.
Proof.
  intros [H _] (d & Hd & <- & Hv). specialize (H p). rewrite Hd in H.
  destruct H as (d' & Hd' & _ & Hi). exists d'.
  split; [done|]. split; [by apply Hi|done].
Qed.

Lemma Call_spec (tag : option loc) (fv : Value) (args : list Value) (w : world) :
  ∃ w' R, Call code tag fv args w = Done w' R ∧
    match R with
    | Ret res =>
        ∃ f ins outs, fv = VVal (TFunc ins outs) (DFunc (Some f)) ∧
          w' = setCalls w (w_calls w ++ [{| ce_def := tag; ce_fn := f; ce_args := args |}]) ∧
          res = imap (λ i t, VVal t (code f (w_calls w) args i)) outs
    | _ => w' = w
    end.
Proof.
  unfold Call.
  destruct fv as [|t d|t a]; try (exists w; eexists; by split).
  destruct t as [| | |ins outs]; try (exists w; eexists; by split).
  destruct d as [|a|[f|]| |]; try (exists w; eexists; by split).
  destruct (argsMatch args ins); [|exists w; eexists; by split].
  unfold bind, getState, putState, ret. simpl. eexists. eexists. split; [done|].
  by exists f, ins, outs.
Qed.

Lemma Call_no_fail (tag : option loc) (fv : Value) (args : list Value)
    (w w' : world) (e : error) :
  Call code tag fv args w ≠ Done w' (Fail e).
Proof.
  unfold Call.
  destruct fv as [|t d|t a]; try done.
  destruct t as [| | |ins outs]; try done.
  destruct d as [|a|[f|]| |]; try done.
  by destruct (argsMatch args ins).
Qed.

Lemma assertError_user (x : any) (e : error) :
  assertError x = Some e → ∃ t d, e = EUser t d.
Proof.
  destruct x as [|t d]; [done|]. unfold assertError.
  destruct (Implements t errorInterface); [|done]. intros [= <-]. by eexists _, _.
Qed.

Lemma imap_valid (f : nat → rtype → data) (outs : list rtype) (v : Value) :
  v ∈ imap (λ i t, VVal t (f i t)) outs → IsValid v = true.
Proof.
  intros Hv. apply list_elem_of_lookup in Hv as [i Hi].
  rewrite list_lookup_imap in Hi. destruct (outs !! i); [|done].
  simpl in Hi. by injection Hi as <-.
Qed.

Lemma init_S (fuel : nat) (p : loc) (w : world) :
  init code (S fuel) p w =
  match w_defs w !! p with
  | None => Done w (Panic nilDeref)
  | Some d =>
      if IsValid (def_instance d) then Done w (Ret (def_instance d))
      else
        match collect (def_in d) (init code fuel) w with
        | Done w1 (Ret values) =>
            match Call code (Some p) (pw_providerValue (p_wrapper (def_provider d))) values w1 with
            | Done w2 (Ret result) => initFinish p d result w2
            | Done w2 (Fail e) => Done w2 (Fail e)
            | Done w2 (Panic m) => Done w2 (Panic m)
            | Diverge => Diverge
            end
        | Done w1 (Fail e) => Done w1 (Fail e)
        | Done w1 (Panic m) => Done w1 (Panic m)
        | Diverge => Diverge
        end
  end.
Proof.
  simpl. unfold bind at 1, deref.
  destruct (w_defs w !! p) as [d|]; [|done].
  destruct (IsValid (def_instance d)); [done|].
  unfold bind at 1. destruct (collect _ _ w) as [w1 [values| |]|]; try done.
Qed.

Lemma collect_cons {S A B} (x : A) (l : list A) (body : A → M S B) (s : S) :
  collect (x :: l) body s =
  match body x s with
  | Done s1 (Ret y) =>
      match collect l body s1 with
      | Done s2 (Ret ys) => Done s2 (Ret (y :: ys))
      | Done s2 (Fail e) => Done s2 (Fail e)
      | Done s2 (Panic m) => Done s2 (Panic m)
      | Diverge => Diverge
      end
  | Done s1 (Fail e) => Done s1 (Fail e)
  | Done s1 (Panic m) => Done s1 (Panic m)
  | Diverge => Diverge
  end.
Proof.
  simpl. unfold bind at 1. destruct (body x s) as [s1 [y| |]|]; try done.
Qed.

Lemma initFinish_spec (p : loc) (d d2 : definition) (result : list Value) (w2 : world) :
  w_defs w2 !! p = Some d2 →
  (∀ v, v ∈ result → IsValid v = true) →
  ∃ w' R, initFinish p d result w2 = Done w' R ∧
    match R with
    | Ret v => w' = setDefs w2 (<[p := setInstance v d2]> (w_defs w2)) ∧
               IsValid v = true
    | _ => w' = w2
    end.
Proof.
  intros Hp Hvalid. unfold initFinish.
  destruct result as [|v [|e [|x result]]]; try (by exists w2; eexists).
  - unfold bind, ret. rewrite (update_live _ _ _ _ Hp). eexists. eexists.
    split; [done|]. split; [done|]. apply Hvalid. by left.
  - destruct (IsNil e).
    + unfold bind, ret. rewrite (update_live _ _ _ _ Hp). eexists. eexists.
      split; [done|]. split; [done|]. apply Hvalid. by left.
    + unfold bind, getState.
      destruct (Interface (w_mem w2) e ≫= assertError); by exists w2; eexists.
Qed.

Lemma init_evolves (fuel : nat) :
  ∀ p w w' R, init code fuel p w = Done w' R →
    w_mem w' = w_mem w ∧ evolves w w' ∧ (∀ v, R = Ret v → cached (w_defs w') p v).
Proof.
  induction fuel as [|f IHf]; intros p w w' R Hrun; [done|].
  rewrite init_S in Hrun.
  destruct (w_defs w !! p) as [d|] eqn:Hd.
  2:{ injection Hrun as <- <-. split_and!; [done|apply evolves_refl|done]. }
  destruct (IsValid (def_instance d)) eqn:Hv.
  { injection Hrun as <- <-. split_and!; [done|apply evolves_refl|].
    intros v [= <-]. by exists d. }
  assert (Hcollect : ∀ l w0 w1 R1, collect l (init code f) w0 = Done w1 R1 →
            w_mem w1 = w_mem w0 ∧ evolves w0 w1).
  { induction l as [|x l IHl]; intros w0 w1 R1 Hc.
    - injection Hc as <- <-. split; [done|apply evolves_refl].
    - rewrite collect_cons in Hc.
      destruct (init code f x w0) as [wa [y|e|m]|] eqn:Hx; try done.
      + destruct (IHf _ _ _ _ Hx) as (Hm & He & _).
        destruct (collect l (init code f) wa) as [wb Rb|] eqn:Hl; [|done].
        destruct (IHl _ _ _ Hl) as (Hm' & He').
        assert (w1 = wb) as -> by (destruct Rb; congruence).
        split; [congruence|by eapply evolves_trans].
      + injection Hc as <- <-. by destruct (IHf _ _ _ _ Hx) as (Hm & He & _).
      + injection Hc as <- <-. by destruct (IHf _ _ _ _ Hx) as (Hm & He & _). }
  destruct (collect (def_in d) (init code f) w) as [w1 R1|] eqn:Hc; [|done].
  destruct (Hcollect _ _ _ _ Hc) as (Hm1 & He1).
  destruct R1 as [values|e|m]; try (injection Hrun as <- <-; by split_and!).
  destruct (Call_spec (Some p) (pw_providerValue (p_wrapper (def_provider d))) values w1)
    as (w2 & R2 & HCall & HR2).
  rewrite HCall in Hrun.
  assert (Hstay : evolves w w2 ∧ w_mem w2 = w_mem w ∧ w_defs w2 = w_defs w1).
  { destruct R2 as [res|e|m]; try (subst w2; by split_and!).
    destruct HR2 as (fn & ins & outs & _ & -> & _). split_and!; try done.
    destruct He1 as [Hh (evs & Hcalls & Hevs)]. split; [done|]. simpl.
    eexists. split; [by rewrite Hcalls, <- app_assoc|].
    intros ev x Hev Hx. apply elem_of_app in Hev as [Hev|Hev]; [by eapply Hevs|].
    apply list_elem_of_singleton in Hev as ->. simpl in Hx. injection Hx as <-.
    by exists d. }
  destruct Hstay as (He2 & Hm2 & Hd2).
  destruct R2 as [res|e|m]; try (injection Hrun as <- <-; by split_and!).
  destruct HR2 as (fn & ins & outs & _ & _ & Hres).
  pose proof (proj1 He2 p) as Hp2. rewrite Hd in Hp2.
  destruct Hp2 as (d2 & Hp2 & Heq2 & _).
  destruct (initFinish_spec p d d2 res w2 Hp2) as (w3 & R3 & Hfin & HR3).
  { intros v Hv'. rewrite Hres in Hv'.
    by apply (imap_valid (λ i _, code fn (w_calls w1) values i) outs). }
  rewrite Hfin in Hrun. injection Hrun as <- <-.
  destruct R3 as [v|e|m]; try (subst w3; by split_and!).
  destruct HR3 as [-> Hvv]. split_and!; [done| |].
  - destruct He2 as [Hh Hev]. split; [|done].
    intros x. simpl. destruct (decide (p = x)) as [<-|Hne].
    + rewrite Hd, lookup_insert_eq. eexists. split_and!; [done| |congruence].
      rewrite Heq2. by destruct d.
    + rewrite lookup_insert_ne by done. apply Hh.
  - intros v' [= <-]. eexists. simpl. rewrite lookup_insert_eq. by split_and!.
Qed.

Lemma cache_calls (p : loc) (v v' : Value) (w2 w' : world) :
  (update p (setInstance v) ;;; ret v) w2 = Done w' (Ret v') →
  w_calls w' = w_calls w2.
Proof.
  unfold bind. destruct (w_defs w2 !! p) as [d|] eqn:Hp.
  - rewrite (update_live _ _ _ _ Hp). unfold ret. by intros [= <- _].
  - by rewrite (update_dead _ _ _ Hp).
Qed.

(** A resolution that is not cached ends with the call of the
    constructor on behalf of the definition. *)
Lemma init_calls_constructor (fuel : nat) (p : loc) (w w' : world) (v : Value) (d : definition) :
  init code fuel p w = Done w' (Ret v) →
  w_defs w !! p = Some d → IsValid (def_instance d) = false →
  ∃ evs f args, w_calls w' = w_calls w ++ evs ++
                  [{| ce_def := Some p; ce_fn := f; ce_args := args |}] ∧
                DFunc (Some f) = match pw_providerValue (p_wrapper (def_provider d)) with
                                 | VVal _ x => x | _ => DNilIface end.
Proof.
  destruct fuel as [|f]; [done|]. rewrite init_S. intros Hrun Hd Hv.
  rewrite Hd, Hv in Hrun.
  assert (Hcollect : ∀ l w0 w1 R1, collect l (init code f) w0 = Done w1 R1 →
            ∃ evs, w_calls w1 = w_calls w0 ++ evs).
  { induction l as [|x l IHl]; intros w0 w1 R1 Hc.
    - injection Hc as <- <-. exists []. by rewrite app_nil_r.
    - rewrite collect_cons in Hc.
      destruct (init code f x w0) as [wa Ra|] eqn:Hx; [|done].
      destruct (init_evolves _ _ _ _ _ Hx) as (_ & [_ (e1 & He1 & _)] & _).
      destruct Ra as [y|e|m]; try (injection Hc as <- <-; by exists e1).
      destruct (collect l (init code f) wa) as [wb Rb|] eqn:Hl; [|done].
      destruct (IHl _ _ _ Hl) as (e2 & He2).
      assert (w1 = wb) as -> by (destruct Rb; congruence).
      exists (e1 ++ e2). by rewrite He2, He1, app_assoc. }
  destruct (collect (def_in d) (init code f) w) as [w1 R1|] eqn:Hc; [|done].
  destruct (Hcollect _ _ _ _ Hc) as (evs & Hevs).
  destruct R1 as [values|e|m]; try done.
  destruct (Call_spec (Some p) (pw_providerValue (p_wrapper (def_provider d))) values w1)
    as (w2 & R2 & HCall & HR2).
  rewrite HCall in Hrun. destruct R2 as [res|e|m]; try done.
  destruct HR2 as (fn & ins & outs & Hfv & -> & Hres).
  exists evs, fn, values. split; [|by rewrite Hfv].
  assert (w_calls w' = w_calls w1 ++ [{| ce_def := Some p; ce_fn := fn; ce_args := values |}])
    as ->; [|by rewrite Hevs, app_assoc].
  revert Hrun. unfold initFinish.
  destruct res as [|v0 [|e0 [|x res]]]; try done.
  - intros Hrun. by rewrite (cache_calls _ _ _ _ _ Hrun).
  - destruct (IsNil e0).
    + intros Hrun. by rewrite (cache_calls _ _ _ _ _ Hrun).
    + unfold bind, getState. simpl.
      by destruct (Interface (w_mem w1) e0 ≫= assertError).
Qed.

(** *** Populate *)

Lemma Populate_ptr (fuel : nat) (t : rtype) (a : addr) (opts : list ProvideOption)
    (c : Container) (w : world) :
  Populate code ProvideOption fuel (ptrTo t a) opts (c, w) =
  match Storage.get (storage c) (keyOf t) with
  | Ret def =>
      match init code fuel def w with
      | Done w1 (Ret instance) =>
          match Set_ (w_mem w1) (VRef t a) instance with
          | Some m => Done (c, setMem w1 m) (Ret ())
          | None => Done (c, w1) (Panic "reflect.Set: value is not assignable")
          end
      | Done w1 (Fail e) => Done (c, w1) (Fail (EWrapf e "%s" (FType t)))
      | Done w1 (Panic m) => Done (c, w1) (Panic m)
      | Diverge => Diverge
      end
  | Fail e => Done (c, w) (Fail (EWithStack e))
  | Panic m => Done (c, w) (Panic m)
  end.
Proof.
  unfold Populate, ptrTo. simpl. unfold bind at 1, theWorld. simpl.
  unfold bind at 1, orWrap, storageGet, bind at 1, theContainer, lift. simpl.
  destruct (Storage.get (storage c) (keyOf t)) as [def|e|m]; try done.
  unfold bind at 1, liftW at 1. simpl.
  destruct (init code fuel def w) as [w1 [instance|e|m]|]; try done.
  unfold bind, theWorld, liftW, putState. cbn -[Set_].
  match goal with |- match ?X with _ => _ end _ = _ => by destruct X end.
Qed.

Lemma Populate_frame (fuel : nat) (target : any) (opts : list ProvideOption)
    (c c' : Container) (w w' : world) (R : outcome unit) :
  Populate code ProvideOption fuel target opts (c, w) = Done (c', w') R →
  c' = c ∧ evolves w w'.
Proof.
  unfold Populate.
  destruct (negb (IsValid (ValueOf target)) ||
            (bool_decide (Kind_ (ValueOf target) = Some KPtr) && IsNil (ValueOf target))).
  { intros [= <- <- <-]. split; [done|apply evolves_refl]. }
  unfold bind at 1, theWorld. simpl.
  destruct (Elem (w_mem w) (ValueOf target)) as [rvalue|].
  2:{ intros [= <- <- <-]. split; [done|apply evolves_refl]. }
  destruct (Type_ rvalue) as [t|].
  2:{ intros [= <- <- <-]. split; [done|apply evolves_refl]. }
  unfold bind at 1, orWrap, storageGet, bind at 1, theContainer, lift. simpl.
  destruct (Storage.get (storage c) (keyOf t)) as [def|e|m].
  2,3: intros [= <- <- <-]; split; [done|apply evolves_refl].
  unfold bind at 1, liftW at 1. simpl.
  destruct (init code fuel def w) as [w1 R1|] eqn:Hinit; [|done].
  destruct (init_evolves _ _ _ _ _ Hinit) as (Hm & He & _).
  destruct R1 as [instance|e|m]; try (by intros [= <- <- <-]).
  unfold bind, theWorld, liftW, putState. cbn -[Set_].
  destruct (Set_ (w_mem w1) rvalue instance); [|by intros [= <- <- <-]].
  intros [= <- <- <-]. split; [done|].
  destruct He as [Hh Hc]. by split.
Qed.

(** *** Loops keep what each round keeps *)

Lemma collect_preserves {S A B} (Rel : S → S → Prop) (body : A → M S B) (l : list A) :
  (∀ s, Rel s s) → (∀ s1 s2 s3, Rel s1 s2 → Rel s2 s3 → Rel s1 s3) →
  (∀ x s s' R, body x s = Done s' R → Rel s s') →
  ∀ s s' R, collect l body s = Done s' R → Rel s s'.
Proof.
  intros Hrefl Htrans Hbody. induction l as [|x l IH]; intros s s' R Hrun.
  - injection Hrun as <- <-. apply Hrefl.
  - rewrite collect_cons in Hrun.
    destruct (body x s) as [s1 R1|] eqn:Hx; [|done].
    pose proof (Hbody _ _ _ _ Hx) as H1.
    destruct R1 as [y|e|m]; try (by injection Hrun as <- <-).
    destruct (collect l body s1) as [s2 R2|] eqn:Hl; [|done].
    pose proof (IH _ _ _ Hl) as H2.
    assert (s' = s2) as -> by (destruct R2; congruence).
    by eapply Htrans.
Qed.

Lemma forEach_preserves {S A} (Rel : S → S → Prop) (body : A → M S unit) (l : list A) :
  (∀ s, Rel s s) → (∀ s1 s2 s3, Rel s1 s2 → Rel s2 s3 → Rel s1 s3) →
  (∀ x s s' R, body x s = Done s' R → Rel s s') →
  ∀ s s' R, forEach l body s = Done s' R → Rel s s'.
Proof.
  intros Hrefl Htrans Hbody. induction l as [|x l IH]; intros s s' R Hrun.
  - injection Hrun as <- <-. apply Hrefl.
  - rewrite forEach_cons in Hrun.
    destruct (body x s) as [s1 R1|] eqn:Hx; [|done].
    pose proof (Hbody _ _ _ _ Hx) as H1.
    destruct R1 as [[]|e|m]; try (by injection Hrun as <- <-).
    pose proof (IH _ _ _ Hrun) as H2. by eapply Htrans.
Qed.

Lemma serves_refl (s : Container * world) : serves s s.
Proof. split; [done|apply evolves_refl]. Qed.

Lemma serves_trans (s1 s2 s3 : Container * world) :
  serves s1 s2 → serves s2 s3 → serves s1 s3.
Proof.
  intros [H1 E1] [H2 E2]. split; [congruence|by eapply evolves_trans].
Qed.

Lemma resolveArg_serves (fuel : nat) (t : rtype) (s s' : Container * world)
    (R : outcome Value) :
  resolveArg code fuel t s = Done s' R → serves s s'.
Proof.
  destruct s as [c w]. unfold resolveArg.
  unfold bind at 1, orWrap at 1, storageGet, bind at 1, theContainer, lift. simpl.
  destruct (Storage.get (storage c) (keyOf t)) as [def|e|m].
  2,3: intros [= <- <-]; apply serves_refl.
  unfold orWrap, liftW. simpl.
  destruct (init code fuel def w) as [w1 R1|] eqn:Hinit; [|done].
  destruct (init_evolves _ _ _ _ _ Hinit) as (_ & He & _).
  destruct R1; intros [= <- <-]; by split.
Qed.

Lemma apply_serves (fuel : nat) (mo : modifierOptions) (s s' : Container * world)
    (R : outcome unit) :
  apply code fuel mo s = Done s' R → serves s s'.
Proof.
  unfold apply. case_bool_decide.
  { intros [= <- <-]. apply serves_refl. }
  destruct (Type_ (ValueOf (mo_modifier mo))) as [[| | |ins outs]|];
    try (intros [= <- <-]; apply serves_refl).
  case_bool_decide; [intros [= <- <-]; apply serves_refl|].
  destruct (bool_decide (length outs = 1) &&
            negb (outImplements (Some (TFunc ins outs)) 0 errorInterface));
    [intros [= <- <-]; apply serves_refl|].
  fold (resolveArg code fuel). unfold bind at 1.
  destruct (collect ins (resolveArg code fuel) s) as [s1 R1|] eqn:Hc; [|done].
  assert (H1 : serves s s1).
  { eapply (collect_preserves serves); [apply serves_refl|apply serves_trans| |exact Hc].
    intros. by eapply resolveArg_serves. }
  destruct R1 as [args|e|m]; try (by intros [= <- <-]).
  unfold bind at 1, liftW at 1. destruct s1 as [c1 w1]. simpl.
  destruct (Call_spec None (ValueOf (mo_modifier mo)) args w1) as (w2 & R2 & -> & HR2).
  assert (H2 : serves s (c1, w2)).
  { eapply serves_trans; [exact H1|]. split; [done|]. simpl.
    destruct R2 as [res| |]; try (subst w2; apply evolves_refl).
    destruct HR2 as (f & _ & _ & _ & -> & _). split.
    - intros x. simpl. destruct (w_defs w1 !! x) as [d|]; [|done].
      exists d. split_and!; try done. by destruct d.
    - simpl. eexists. split; [done|]. intros ev x Hev Hx.
      apply list_elem_of_singleton in Hev as ->. done. }
  destruct R2 as [res|e|m]; try (by intros [= <- <-]).
  destruct res as [|r [|r' res]]; try (by intros [= <- <-]).
  unfold bind, theWorld. simpl.
  destruct (Interface (w_mem w2) r ≫= assertError); simpl; by intros [= <- <-].
Qed.

Lemma step_serves (s s' : Container * world) : step code ProvideOption s s' → serves s s'.
Proof.
  intros [fuel target opts [c w] [c' w'] R H|fuel mo s1 s2 R H|fuel p c w w' R H].
  - destruct (Populate_frame _ _ _ _ _ _ _ _ H) as [-> He]. by split.
  - by eapply apply_serves.
  - destruct (init_evolves _ _ _ _ _ H) as (_ & He & _). by split.
Qed.

Lemma steps_serves (s s' : Container * world) : rtc (step code ProvideOption) s s' → serves s s'.
Proof.
  induction 1 as [|s1 s2 s3 H12 _ IH]; [apply serves_refl|].
  eapply serves_trans; [|exact IH]. by apply step_serves.
Qed.

Lemma init_cached (fuel : nat) (p : loc) (w : world) (v : Value) :
  cached (w_defs w) p v → init code (S fuel) p w = Done w (Ret v).
Proof.
  intros (d & Hd & <- & Hv). rewrite init_S, Hd, Hv. done.
Qed.

Lemma Populate_cached (fuel : nat) (t : rtype) (a : addr) (opts : list ProvideOption)
    (s : Container * world) (p : loc) (v : Value) :
  Storage.get (storage s.1) (keyOf t) = Ret p →
  cached (w_defs s.2) p v →
  Populate code ProvideOption (S fuel) (ptrTo t a) opts s = assign t a v s.
Proof.
  destruct s as [c w]. simpl. intros Hget Hc.
  rewrite Populate_ptr, Hget, (init_cached _ _ _ _ Hc). unfold assign. simpl.
  by destruct (Set_ (w_mem w) (VRef t a) v).
Qed.

End Resolution.

(** ** The wired graph *)

Lemma elem_of_insOf (E : list (loc * loc)) (p r : loc) : r ∈ insOf E p ↔ (p, r) ∈ E.
Proof.
  unfold insOf. rewrite list_elem_of_omap. split.
  - intros ([a b] & Hin & Hab). simpl in Hab.
    destruct (decide (a = p)) as [->|]; [|done]. by injection Hab as ->.
  - intros Hin. exists (p, r). split; [done|]. simpl. by rewrite decide_True.
Qed.

Lemma elem_of_outsOf (E : list (loc * loc)) (p r : loc) : p ∈ outsOf E r ↔ (p, r) ∈ E.
Proof.
  unfold outsOf. rewrite list_elem_of_omap. split.
  - intros ([a b] & Hin & Hab). simpl in Hab.
    destruct (decide (b = r)) as [->|]; [|done]. by injection Hab as ->.
  - intros Hin. exists (p, r). split; [done|]. simpl. by rewrite decide_True.
Qed.

Lemma edges_sources (s : Storage.definitions) (h : heap) (ps : list loc)
    (E : list (loc * loc)) (a b : loc) :
  edges s h ps = Some E → (a, b) ∈ E → a ∈ ps.
Proof.
  revert E. induction ps as [|q ps IH]; intros E HE Hin.
  - unfold edges in HE. simpl in HE. injection HE as <-. by apply not_elem_of_nil in Hin.
  - unfold edges in HE. simpl in HE.
    destruct (edgesOf s h q) as [Eq|] eqn:HEq; [|done]. simpl in HE.
    destruct (mapM (edgesOf s h) ps) as [Es|] eqn:HEs; [|done]. simpl in HE.
    injection HE as <-. apply elem_of_app in Hin as [Hin|Hin].
    + unfold edgesOf in HEq. destruct (argsOf h q); [|done]. simpl in HEq.
      destruct (mapM (resolve s) l); [|done]. simpl in HEq. injection HEq as <-.
      apply list_elem_of_fmap in Hin as (r & [= -> ->] & _). by left.
    + right. apply (IH (concat Es)); [|done]. unfold edges. by rewrite HEs.
Qed.

(** After a successful wiring of a registry of pristine definitions, the
    graph stays in the registry, nothing is marked, and the outgoing
    edges are the incoming edges reversed. *)
Lemma connect_graph (c : Container) (w w' : world) (ps : list loc) :
  registry (w_defs w) (storage c) ps →
  (∀ p, p ∈ ps → ∃ d, w_defs w !! p = Some d ∧ pristine d) →
  connectDefinitions (c, w) = Done (c, w') (Ret ()) →
  closed (w_defs w') ps ∧
  (∀ p, p ∈ ps → markOf (w_defs w') p = Some visitMarkUnmarked) ∧
  (∀ p r, p ∈ ps → r ∈ ps → edge (w_defs w') r p ↔ dependsOn (w_defs w') p r) ∧
  w_mem w' = w_mem w ∧ w_calls w' = w_calls w.
Proof.
  intros (Hall & Hnd & Hlive & Hget) Hpr Hrun.
  rewrite connectDefinitions_unfold, Hall in Hrun.
  destruct (connect_loop c (map Some ps) w) as (w1 & R & Hrun' & Hm & Hc & HR).
  rewrite Hrun in Hrun'. injection Hrun' as <- <-.
  destruct HR as (ps' & E & Hps & HE & Hw).
  apply (inj (fmap Some)) in Hps as <-.
  assert (Hlook : ∀ x, x ∈ ps → ∃ d', w_defs w' !! x = Some d' ∧
            def_in d' = insOf E x ∧ def_out d' = outsOf E x ∧
            def_visited d' = visitMarkUnmarked).
  { intros x Hx. destruct (Hpr x Hx) as (d & Hd & Hi & Ho & Hv & _).
    exists (addEdges E x d). rewrite (Hw x), Hd. split; [done|].
    unfold addEdges. simpl. by rewrite Hi, Ho. }
  split_and!; try done.
  - intros x Hx. destruct (Hlook x Hx) as (d' & Hd' & _ & Ho & _).
    exists d'. split; [done|]. intros y Hy. rewrite Ho in Hy.
    apply elem_of_outsOf in Hy. by eapply edges_sources.
  - intros p Hp. destruct (Hlook p Hp) as (d' & Hd' & _ & _ & Hv).
    unfold markOf. by rewrite Hd', <- Hv.
  - intros p r Hp Hr.
    destruct (Hlook p Hp) as (dp & Hdp & Hip & _).
    destruct (Hlook r Hr) as (dr & Hdr & _ & Hor & _).
    unfold edge, dependsOn. split.
    + intros (d & Hd & Hin). exists dp. split; [done|].
      rewrite Hdr in Hd. injection Hd as <-. rewrite Hor in Hin. rewrite Hip.
      by apply elem_of_insOf, elem_of_outsOf.
    + intros (d & Hd & Hin). exists dr. split; [done|].
      rewrite Hdp in Hd. injection Hd as <-. rewrite Hip in Hin. rewrite Hor.
      by apply elem_of_outsOf, elem_of_insOf.
Qed.

(** ** Failures of the stages *)

Lemma forEach_fail {S A} (P : error → Prop) (body : A → M S unit) (l : list A) :
  (∀ x s s' e, body x s = Done s' (Fail e) → P e) →
  ∀ s s' e, forEach l body s = Done s' (Fail e) → P e.
Proof.
  intros Hbody. induction l as [|x l IH]; intros s s' e Hrun; [done|].
  rewrite forEach_cons in Hrun.
  destruct (body x s) as [s1 [[]|e1|m]|] eqn:Hx; try done.
  - by eapply IH.
  - injection Hrun as <- <-. by eapply Hbody.
Qed.

Lemma collect_fail {S A B} (P : error → Prop) (body : A → M S B) (l : list A) :
  (∀ x s s' e, body x s = Done s' (Fail e) → P e) →
  ∀ s s' e, collect l body s = Done s' (Fail e) → P e.
Proof.
  intros Hbody. induction l as [|x l IH]; intros s s' e Hrun; [done|].
  rewrite collect_cons in Hrun.
  destruct (body x s) as [s1 [y|e1|m]|] eqn:Hx; try done.
  - destruct (collect l body s1) as [s2 [ys|e2|m]|] eqn:Hl; try done.
    injection Hrun as <- <-. by eapply IH.
  - injection Hrun as <- <-. by eapply Hbody.
Qed.


Lemma visit_fail (fuel : nat) :
  ∀ p w w' e, visit fuel p w = Done w' (Fail e) → e = errCycleDetected.
Proof.
  induction fuel as [|f IH]; intros p w w' e Hrun; [done|].
  rewrite visit_S in Hrun.
  destruct (w_defs w !! p) as [d|]; [|done].
  destruct (def_visited d); try done; [|by injection Hrun as _ <-].
  destruct (forEach (def_out d) (visit f) _) as [w2 [[]|e2|m]|] eqn:Hl; try done.
  - destruct (w_defs w2 !! p) as [d2|] eqn:Hp2.
    + by rewrite (update_live _ _ _ _ Hp2) in Hrun.
    + by rewrite (update_dead _ _ _ Hp2) in Hrun.
  - injection Hrun as <- <-.
    eapply (forEach_fail (λ e, e = errCycleDetected)); [|exact Hl].
    intros x s s' e. apply IH.
Qed.

Lemma verifyCycles_fail (fuel : nat) (s s' : Container * world) (e : error) :
  verifyCycles fuel s = Done s' (Fail e) → e = cycleError.
Proof.
  destruct s as [c w]. rewrite verifyCycles_unfold.
  apply (forEach_fail (λ e, e = cycleError)). clear.
  intros n [c w] s' e. unfold verifyBody, bind, liftW, derefOpt. simpl.
  destruct n as [n|]; [|done]. unfold deref.
  destruct (w_defs w !! n) as [d|]; [|done].
  case_bool_decide; [|done]. unfold orWrap. simpl.
  destruct (visit fuel n w) as [w1 [[]|e1|m]|] eqn:Hv; try done.
  intros [= <- <-]. by rewrite (visit_fail _ _ _ _ _ Hv).
Qed.

Section Compile.
Variable code : nat → list callev → list Value → nat → data.

Lemma resolveArg_fail (fuel : nat) (t : rtype) (s s' : Container * world) (e : error) :
  resolveArg code fuel t s = Done s' (Fail e) → applyError e.
Proof.
  destruct s as [c w]. unfold resolveArg.
  unfold bind at 1, orWrap at 1, storageGet, bind at 1, theContainer, lift. simpl.
  destruct (get_cases (storage c) (keyOf t)) as [(r & -> & _)|[-> _]].
  2:{ intros [= <- <-]. constructor. }
  unfold orWrap, liftW. simpl.
  destruct (init code fuel r w) as [w1 [v|e1|m]|]; try done.
  intros [= <- <-]. constructor.
Qed.

Lemma apply_fail (fuel : nat) (mo : modifierOptions) (s s' : Container * world) (e : error) :
  apply code fuel mo s = Done s' (Fail e) → applyError e.
Proof.
  unfold apply. case_bool_decide.
  { intros [= <- <-]. constructor. }
  destruct (Type_ (ValueOf (mo_modifier mo))) as [[| | |ins outs]|];
    try (intros [= <- <-]; constructor).
  case_bool_decide; [intros [= <- <-]; constructor|].
  destruct (bool_decide (length outs = 1) &&
            negb (outImplements (Some (TFunc ins outs)) 0 errorInterface));
    [intros [= <- <-]; constructor|].
  fold (resolveArg code fuel). unfold bind at 1.
  destruct (collect ins (resolveArg code fuel) s) as [s1 [args|e1|m]|] eqn:Hc; try done.
  2:{ intros [= <- <-]. eapply (collect_fail applyError); [|exact Hc].
      intros. by eapply resolveArg_fail. }
  unfold bind at 1, liftW at 1. destruct s1 as [c1 w1]. simpl.
  destruct (Call code None (ValueOf (mo_modifier mo)) args w1) as [w2 [res|e2|m]|] eqn:HCall;
    try done.
  2:{ by destruct (Call_no_fail code _ _ _ _ _ _ HCall). }
  destruct res as [|r [|r' res]]; try done.
  unfold bind, theWorld. simpl.
  destruct (Interface (w_mem w2) r ≫= assertError) as [err|] eqn:Hi; simpl; try done.
  intros [= <- <-].
  destruct (Interface (w_mem w2) r) as [x|]; [|done]. simpl in Hi.
  destruct (assertError_user _ _ Hi) as (t & d & ->). constructor.
Qed.

Lemma applyModifiers_fail (fuel : nat) (s s' : Container * world) (e : error) :
  applyModifiers code fuel s = Done s' (Fail e) → applyError e.
Proof.
  destruct s as [c w]. unfold applyModifiers, bind, theContainer. simpl.
  apply (forEach_fail applyError). intros. by eapply apply_fail.
Qed.
End Compile.

Section CompileCycles.
Variable code : nat → list callev → list Value → nat → data.

Lemma compile_stages (fuel : nat) (s s1 s2 : Container * world) :
  registerProviders s = Done s1 (Ret ()) →
  connectDefinitions s1 = Done s2 (Ret ()) →
  compile code fuel s =
  match verifyCycles fuel s2 with
  | Done s3 (Ret _) => applyModifiers code fuel s3
  | Done s3 (Fail e) => Done s3 (Fail e)
  | Done s3 (Panic m) => Done s3 (Panic m)
  | Diverge => Diverge
  end.
Proof.
  intros H1 H2. unfold compile. unfold bind at 1. rewrite H1.
  unfold bind at 1. rewrite H2. unfold bind at 1. done.
Qed.

Lemma compile_cycles (fuel : nat) (c c1 c2 : Container) (w w0 w1 : world) :
  storage c = Storage.empty →
  length (providers c) < fuel →
  registerProviders (c, w) = Done (c1, w0) (Ret ()) →
  connectDefinitions (c1, w0) = Done (c2, w1) (Ret ()) →
  c2 = c1 ∧ ∃ ps, Storage.all (storage c1) = map Some ps ∧
    (∀ p, p ∈ ps → is_Some (w_defs w1 !! p)) ∧
    (∀ p r, p ∈ ps → r ∈ ps → edge (w_defs w1) r p ↔ dependsOn (w_defs w1) p r) ∧
    (cyclic (w_defs w1) ps ↔
       ∃ s2, compile code fuel (c, w) = Done s2 (Fail cycleError)) ∧
    (¬ cyclic (w_defs w1) ps ↔
       ∃ w2, verifyCycles fuel (c1, w1) = Done (c1, w2) (Ret ()) ∧
             (∀ p, p ∈ ps → markOf (w_defs w2) p = Some visitMarkPermanent) ∧
             compile code fuel (c, w) = applyModifiers code fuel (c1, w2)).
Proof.
  intros Hs Hfuel Hreg Hconn.
  assert (c2 = c1) as ->.
  { rewrite connectDefinitions_unfold in Hconn.
    destruct (connect_loop c1 (Storage.all (storage c1)) w0) as (w' & R & Hrun & _).
    rewrite Hconn in Hrun. by injection Hrun as ->. }
  split; [done|].
  destruct (registerProviders_registry _ _ _ _ Hs Hreg) as (ps & Hregis & Hpr & Hlen & _).
  destruct (connect_graph _ _ _ _ Hregis Hpr Hconn) as (Hcl & HU & Hmut & _ & _).
  exists ps. destruct Hregis as (Hall & _).
  destruct (verifyCycles_spec fuel c1 w1 ps Hall Hcl HU ltac:(lia))
    as (w2 & R & Hver & _ & _ & HR).
  pose proof (compile_stages fuel _ _ _ Hreg Hconn) as Hcomp. rewrite Hver in Hcomp.
  split_and!; try done.
  - intros p Hp. destruct (Hcl p Hp) as (d & -> & _). by eexists.
  - split.
    + intros Hcyc. destruct HR as [[-> _]|(_ & Hn & _)]; [|done].
      by exists (c1, w2).
    + intros (s2 & Hs2). destruct HR as [[-> Hcyc]|(-> & _)]; [done|].
      rewrite Hs2 in Hcomp. symmetry in Hcomp.
      apply applyModifiers_fail in Hcomp. inversion Hcomp.
  - split.
    + intros Hn. destruct HR as [[-> Hcyc]|(-> & _ & _ & Hdone)]; [done|].
      by exists w2.
    + intros (w2' & Hver' & _) Hcyc. destruct HR as [[-> _]|(_ & Hn & _)]; [|done].
      rewrite Hver in Hver'. done.
Qed.
End CompileCycles.

(** ** Claims about the compile pipeline *)

Lemma returned_inv {S A} (r : run S A) :
  Examples.returned r = true → ∃ s a, r = Done s (Ret a).
Proof. destruct r as [s [a| |]|]; try done. by exists s, a. Qed.

Lemma failedWith_inv {S A} (e : error) (r : run S A) :
  Examples.failedWith e r = true → ∃ s, r = Done s (Fail e).
Proof.
  destruct r as [s [a|e'|]|]; try done. simpl. intros H.
  apply bool_decide_eq_true in H as ->. by exists s.
Qed.

(** C4: cycle detection.  When the providers of a container that starts
    with the empty storage are registered and wired, the outgoing edges
    of the stored definitions are their incoming edges reversed, and,
    with fuel for one more than the number of providers, compilation
    fails with the cycle error exactly when that graph has a cycle;
    when it has none, the traversal leaves every definition done and
    compilation goes on with the modifiers.  For the providers
    A -> B -> C -> A construction returns no container and the cycle
    error, and for A -> B -> C it returns a container and no error. *)
Theorem cycle_detection :
  (∀ code fuel c c1 c2 w w0 w1,
     storage c = Storage.empty →
     length (providers c) < fuel →
     registerProviders (c, w) = Done (c1, w0) (Ret ()) →
     connectDefinitions (c1, w0) = Done (c2, w1) (Ret ()) →
     c2 = c1 ∧
     ∃ ps, Storage.all (storage c1) = map Some ps ∧
       (∀ p, p ∈ ps → is_Some (w_defs w1 !! p)) ∧
       (∀ p r, p ∈ ps → r ∈ ps → edge (w_defs w1) r p ↔ dependsOn (w_defs w1) p r) ∧
       (cyclic (w_defs w1) ps ↔
          ∃ s2, compile code fuel (c, w) = Done s2 (Fail cycleError)) ∧
       (¬ cyclic (w_defs w1) ps ↔
          ∃ w2, verifyCycles fuel (c1, w1) = Done (c1, w2) (Ret ()) ∧
                (∀ p, p ∈ ps → markOf (w_defs w2) p = Some visitMarkPermanent) ∧
                compile code fuel (c, w) = applyModifiers code fuel (c1, w2))) ∧
  (∀ code n,
     Examples.newResult
       (New code (4 + n) [Examples.Provide Examples.cyclicProviders] Examples.w0)
     = Some (false, Some (EWrap cycleError "could not compile container"))) ∧
  (∀ code n,
     Examples.newResult
       (New code (4 + n) [Examples.Provide Examples.chainProviders] Examples.w0)
     = Some (true, None)).
Proof.
  split_and!.
  - intros. by eapply compile_cycles.
  - intros code n. vm_compute. reflexivity.
  - intros code n. vm_compute. reflexivity.
Qed.

Lemma cyclic_example_wired :
  ∃ c1 c2 wA w1,
    registerProviders (Examples.container Examples.cyclicProviders [], Examples.w0)
      = Done (c1, wA) (Ret ()) ∧
    connectDefinitions (c1, wA) = Done (c2, w1) (Ret ()).
Proof.
  pose (s := (Examples.container Examples.cyclicProviders [], Examples.w0)).
  assert (H : Examples.returned ((registerProviders ;;; connectDefinitions) s) = true)
    by (vm_compute; reflexivity).
  apply returned_inv in H as (s2 & [] & H). unfold bind in H.
  fold s. destruct (registerProviders s) as [[c1 wA] [[]|e|m]|]; try done.
  destruct (connectDefinitions (c1, wA)) as [[c2 w1] [[]|e|m]|] eqn:H2; try done.
  by exists c1, c2, wA, w1.
Qed.

Lemma cycle_detection_witness :
  ∃ c1 c2 wA w1 ps,
    registerProviders (Examples.container Examples.cyclicProviders [], Examples.w0)
      = Done (c1, wA) (Ret ()) ∧
    connectDefinitions (c1, wA) = Done (c2, w1) (Ret ()) ∧
    cyclic (w_defs w1) ps.
Proof.
  destruct cyclic_example_wired as (c1 & c2 & wA & w1 & H1 & H2).
  exists c1, c2, wA, w1.
  destruct (proj1 cycle_detection Examples.code0 4
              (Examples.container Examples.cyclicProviders []) c1 c2 Examples.w0 wA w1
              eq_refl ltac:(simpl; lia) H1 H2) as (_ & ps & _ & _ & _ & Hcyc & _).
  exists ps. split; [exact H1|]. split; [exact H2|]. apply Hcyc.
  apply (failedWith_inv cycleError). vm_compute. reflexivity.
Defined.

(** ** The provider wrapper *)

Lemma args_of_func (ins outs : list rtype) (d : data) (rt : rtype) :
  args {| pw_providerType := providerTypeFunc;
          pw_providerValue := VVal (TFunc ins outs) d;
          pw_resultType := rt |} = Some (map keyOf ins).
Proof.
  unfold args. simpl.
  assert (H : ∀ pre l, mapM (λ i, keyOf <$> (pre ++ l) !! i) (seq (length pre) (length l))
                       = Some (map keyOf l)).
  { intros pre l. revert pre. induction l as [|t l IH]; intros pre; [done|].
    simpl. rewrite lookup_app_r by lia. rewrite Nat.sub_diag. simpl.
    specialize (IH (pre ++ [t])). rewrite length_app in IH. simpl in IH.
    rewrite Nat.add_1_r, <- app_assoc in IH. simpl in IH. by rewrite IH. }
  exact (H [] ins).
Qed.


(** C7: the callable provider wrapper.  For a constructor of function
    type, construction ends in the state it started in (nothing is
    called); it fails, with the incorrect-provider-type error, exactly
    when the number of outputs is neither 1 nor 2, or is 2 and the
    second output does not implement the error interface; when it
    succeeds the result type is the first output and the argument
    identifiers are the input types in order, each with the empty name
    qualifier. *)
Theorem newFuncProvider_signature (ins outs : list rtype) (d : data) (w : world) :
  ∃ r, newFuncProvider (box (TFunc ins outs) d) w = Done w r ∧
    (is_err r ↔
       (length outs ≠ 1 ∧ length outs ≠ 2) ∨
       (length outs = 2 ∧ ∃ t, outs !! 1 = Some t ∧ Implements t errorInterface = false)) ∧
    (is_err r → r = Fail (EWithStack ErrIncorrectProviderType)) ∧
    (¬ is_err r →
       ∃ out0 pw, r = Ret pw ∧ outs !! 0 = Some out0 ∧
         pw_providerType pw = providerTypeFunc ∧
         pw_providerValue pw = VVal (TFunc ins outs) d ∧
         pw_resultType pw = out0 ∧
         args pw = Some (map keyOf ins) ∧
         Forall2 (λ k t, typ k = t ∧ name k = "") (map keyOf ins) ins).
Proof.
  unfold newFuncProvider. simpl.
  destruct outs as [|o0 [|o1 [|o2 outs]]]; simpl.
  - eexists. split; [done|]. split_and!.
    + split; [intros _; left; by split|intros _; by eexists].
    + done.
    + intros H. destruct H. by eexists.
  - eexists. split; [done|]. split_and!.
    + split; [by intros [e ?]|]. intros [[? ?]|[? ?]]; done.
    + by intros [e ?].
    + intros _. eexists _, _. split_and!; try done.
      * apply args_of_func.
      * clear. induction ins as [|t ins IH]; by constructor.
  - unfold outImplements. simpl.
    match goal with |- context [negb ?b] => destruct b eqn:Hi end; simpl.
    + eexists. split; [done|]. split_and!.
      * split; [by intros [e ?]|]. intros [[? ?]|[_ (t & Ht & Hf)]]; [done|].
        injection Ht as <-. congruence.
      * by intros [e ?].
      * intros _. eexists _, _. split_and!; try done.
        -- apply args_of_func.
        -- clear. induction ins as [|t ins IH]; by constructor.
    + eexists. split; [done|]. split_and!.
      * split; [|intros _; by eexists]. intros _. right. split; [done|]. by exists o1.
      * done.
      * intros H. destruct H. by eexists.
  - eexists. split; [done|]. split_and!.
    + split; [intros _; left; by split|intros _; by eexists].
    + done.
    + intros H. destruct H. by eexists.
Qed.

(** C10: [Populate] does not read its options: two runs from the same
    state with different option lists are the same run. *)
Theorem Populate_ignores_options (code : nat → list callev → list Value → nat → data)
    (ProvideOption : Type) (fuel : nat) (target : any)
    (options1 options2 : list ProvideOption) (s : Container * world) :
  Populate code ProvideOption fuel target options1 s
  = Populate code ProvideOption fuel target options2 s.
Proof. reflexivity. Qed.

(** ** Construction is all-or-nothing *)

Lemma newFuncProvider_fail (provider : any) (w w' : world) (e : error) :
  newFuncProvider provider w = Done w' (Fail e) → e = EWithStack ErrIncorrectProviderType.
Proof.
  unfold newFuncProvider.
  destruct (TypeOf provider ≫= NumOut) as [n|]; [|done].
  destruct (bool_decide (n ≤ 0) || bool_decide (2 < n)); [by intros [= _ <-]|].
  destruct (bool_decide (n = 2) && negb (outImplements (TypeOf provider) 1 errorInterface));
    [by intros [= _ <-]|].
  by destruct (Type_ (ValueOf provider) ≫= λ t, Out t 0).
Qed.

Lemma wrap_cases (po : providerOptions) (w : world) :
  (∃ ins outs d, po_provider po = box (TFunc ins outs) d ∧
     (match Kind_ (ValueOf (po_provider po)) with
      | Some KFunc => newFuncProvider (po_provider po)
      | _ => newStructProvider (po_provider po)
      end) w = newFuncProvider (box (TFunc ins outs) d) w) ∨
  (match Kind_ (ValueOf (po_provider po)) with
   | Some KFunc => newFuncProvider (po_provider po)
   | _ => newStructProvider (po_provider po)
   end) w = Done w (Fail (ENew "struct provider not implemented yet")).
Proof.
  destruct (po_provider po) as [|t d]; [by right|].
  destruct t; try by right. left. by eexists _, _, _.
Qed.

Lemma createDefinition_fail (po : providerOptions) (w w' : world) (e : error) :
  createDefinition po w = Done w' (Fail e) →
  e = EWithStack ErrIncorrectProviderType ∨ e = ENew "struct provider not implemented yet".
Proof.
  unfold createDefinition. unfold bind at 1.
  destruct (wrap_cases po w) as [(ins & outs & d & _ & ->)| ->].
  2:{ intros [= _ <-]. by right. }
  destruct (newFuncProvider (box (TFunc ins outs) d) w) as [w1 [wrapper|e1|m]|] eqn:Hn;
    try done.
  2:{ intros [= _ <-]. left. by eapply newFuncProvider_fail. }
  unfold bind at 1. destruct (args wrapper) as [arguments|]; [|done].
  unfold ret at 1. unfold bind at 1.
  destruct (mapM capabilityKey (po_implements po)) as [implements|]; [|done].
  done.
Qed.


Lemma registerBody_fail (po : providerOptions) (s s' : Container * world) (e : error) :
  registerBody po s = Done s' (Fail e) → fatalCause e.
Proof.
  destruct s as [c w]. unfold registerBody. case_bool_decide.
  { intros [= _ <-]. constructor. }
  unfold bind, orWrap, liftW. simpl.
  destruct (createDefinition po w) as [w1 [p|e1|m]|] eqn:Hc; try done.
  - unfold storageAdd. simpl.
    destruct (w_defs w1 !! p) as [d|] eqn:Hp.
    2:{ unfold Storage.add. by rewrite Hp. }
    destruct (Storage.defs (storage c) !! def_key d) as [x|] eqn:Hk.
    + rewrite (StorageFacts.add_bound _ _ _ _ _ Hp Hk). simpl. intros [= _ <-]. constructor.
    + by rewrite (StorageFacts.add_free _ _ _ _ Hp Hk).
  - intros [= _ <-]. destruct (createDefinition_fail _ _ _ _ Hc) as [-> | ->]; constructor.
Qed.



Lemma connectDefinitions_fail (s s' : Container * world) (e : error) :
  connectDefinitions s = Done s' (Fail e) → ∃ k, e = EWithStack (notProvided k).
Proof.
  destruct s as [c w]. rewrite connectDefinitions_unfold. intros Hrun.
  destruct (connect_loop c (Storage.all (storage c)) w) as (w' & R & Hrun' & _ & _ & HR).
  rewrite Hrun in Hrun'. injection Hrun' as _ <-.
  destruct HR as (_ & _ & k & _ & _ & _ & -> & _). by exists k.
Qed.

Section Construction.
Variable code : nat → list callev → list Value → nat → data.


(** The outcome of a compilation comes from its stages, in order. *)
Lemma compile_outcome (fuel : nat) (s s' : Container * world) (R : outcome unit) :
  compile code fuel s = Done s' R →
  match R with
  | Ret _ => ∃ s1 s2 s3,
      registerProviders s = Done s1 (Ret ()) ∧
      connectDefinitions s1 = Done s2 (Ret ()) ∧
      verifyCycles fuel s2 = Done s3 (Ret ()) ∧
      applyModifiers code fuel s3 = Done s' (Ret ())
  | Fail e => fatalCause e
  | Panic _ => True
  end.
Proof.
  unfold compile. unfold bind at 1.
  destruct (registerProviders s) as [s1 [[]|e1|m1]|] eqn:H1; try done.
  2:{ intros [= _ <-]. destruct s as [c w]. rewrite registerProviders_unfold in H1.
      eapply (forEach_fail fatalCause); [|exact H1]. intros. by eapply registerBody_fail. }
  2:{ by intros [= _ <-]. }
  unfold bind at 1.
  destruct (connectDefinitions s1) as [s2 [[]|e2|m2]|] eqn:H2; try done.
  2:{ intros [= _ <-]. destruct (connectDefinitions_fail _ _ _ H2) as [k ->]. constructor. }
  2:{ by intros [= _ <-]. }
  unfold bind at 1.
  destruct (verifyCycles fuel s2) as [s3 [[]|e3|m3]|] eqn:H3; try done.
  2:{ intros [= _ <-]. rewrite (verifyCycles_fail _ _ _ _ H3). constructor. }
  2:{ by intros [= _ <-]. }
  intros H4. destruct R as [[]|e|m]; [|constructor; by eapply applyModifiers_fail|done].
  by exists s1, s2, s3.
Qed.

Lemma New_unfold (fuel : nat) (options : list Option) (w : world) :
  New code fuel options w =
  match compile code fuel (configured options, w) with
  | Done (c, w') (Fail err) =>
      Done w' (Ret (None, Some (EWrap err "could not compile container")))
  | Done (c, w') (Ret _) => Done w' (Ret (Some c, None))
  | Done (_, w') (Panic msg) => Done w' (Panic msg)
  | Diverge => Diverge
  end.
Proof. reflexivity. Qed.


End Construction.

(** ** Modifiers *)

(** A modifier with one output never lets [apply] return without an
    error: a nil error makes the type assertion panic, any other value
    is wrapped and returned. *)
Lemma apply_single_output (code : nat → list callev → list Value → nat → data)
    (fuel : nat) (ins : list rtype) (t : rtype) (d : data) (s s' : Container * world) :
  apply code fuel {| mo_modifier := box (TFunc ins [t]) d |} s ≠ Done s' (Ret ()).
Proof.
  unfold apply. cbn [mo_modifier ValueOf Type_ length].
  rewrite bool_decide_eq_false_2 by done.
  rewrite bool_decide_eq_false_2 by lia.
  rewrite bool_decide_eq_true_2 by done. cbn [andb].
  destruct (negb (outImplements (Some (TFunc ins [t])) 0 errorInterface)); [done|].
  unfold bind at 1.
  destruct (collect ins _ s) as [[c1 w1] [args| |]|]; try done.
  unfold bind at 1, liftW at 1. cbn [fst snd].
  destruct (Call_spec code None (VVal (TFunc ins [t]) d) args w1) as (w2 & R2 & -> & HR2).
  destruct R2 as [res| |]; try done.
  destruct HR2 as (f & ins' & outs' & [= <- <- ->] & _ & ->). cbn [imap].
  unfold bind, theWorld. cbn [fst snd Interface mbind option_bind].
  destruct (assertError (boxed t (code f (w_calls w1) args 0))); done.
Qed.

(** A modifier [func() error] that returns nil makes [apply] panic. *)
Lemma apply_nil_error (code : nat → list callev → list Value → nat → data)
    (fuel f : nat) (c : Container) (w : world) :
  code f (w_calls w) [] 0 = DNilIface →
  apply code fuel (Examples.modify f [] [errorInterface]) (c, w)
  = Done (c, setCalls w (w_calls w ++ [{| ce_def := None; ce_fn := f; ce_args := [] |}]))
         (Panic "interface conversion: interface is nil, not error").
Proof.
  intros Hnil. unfold apply. simpl.
  unfold bind, liftW, ret, Call, getState, putState. simpl. by rewrite Hnil.
Qed.

(** C5, on the code: the modifier [func() error { return nil }] has a
    valid signature and no arguments, and returns the nil error; [apply]
    calls it and then panics in the type assertion on the nil result,
    and [New] with this modifier panics instead of returning the
    container. *)
Theorem modifier_returning_nil_panics :
  apply Examples.code0 1 Examples.okModifier
    (Examples.container [] [Examples.okModifier], Examples.w0)
  = Done (Examples.container [] [Examples.okModifier],
          setCalls Examples.w0 [{| ce_def := None; ce_fn := 9; ce_args := [] |}])
         (Panic "interface conversion: interface is nil, not error") ∧
  New Examples.code0 1 [Examples.Apply [Examples.okModifier]] Examples.w0
  = Done (setCalls Examples.w0 [{| ce_def := None; ce_fn := 9; ce_args := [] |}])
         (Panic "interface conversion: interface is nil, not error").
Proof. split; vm_compute; reflexivity. Qed.

(** ** Populate *)


Section PopulateTarget.
Variable code : nat → list callev → list Value → nat → data.
Variable ProvideOption : Type.

End PopulateTarget.

(** ** The calls of a resolution *)

Section Trace.
Variable code : nat → list callev → list Value → nat → data.

Lemma evolves_dependsOn (w w' : world) (x y : loc) :
  evolves w w' → dependsOn (w_defs w') x y ↔ dependsOn (w_defs w) x y.
Proof.
  intros [H _]. specialize (H x). unfold dependsOn. split.
  - intros (d' & Hd' & Hin). destruct (w_defs w !! x) as [d|]; [|congruence].
    destruct H as (d2 & Hd2 & Heq & _). exists d. split; [done|].
    rewrite Hd' in Hd2. injection Hd2 as <-. by rewrite Heq in Hin.
  - intros (d & Hd & Hin). rewrite Hd in H. destruct H as (d' & Hd' & Heq & _).
    exists d'. split; [done|]. by rewrite Heq.
Qed.

Lemma evolves_rtc (w w' : world) (x y : loc) :
  evolves w w' → rtc (dependsOn (w_defs w')) x y ↔ rtc (dependsOn (w_defs w)) x y.
Proof.
  intros H. split; apply rtc_subrel; intros a b; by apply (evolves_dependsOn _ _ _ _ H).
Qed.

Lemma evolves_tc (w w' : world) (x y : loc) :
  evolves w w' → tc (dependsOn (w_defs w')) x y ↔ tc (dependsOn (w_defs w)) x y.
Proof.
  intros H. split; intros Htc.
  - induction Htc as [a b Hab|a b c Hab _ IH].
    + apply tc_once. by apply (evolves_dependsOn _ _ _ _ H).
    + eapply tc_l; [|exact IH]. by apply (evolves_dependsOn _ _ _ _ H).
  - induction Htc as [a b Hab|a b c Hab _ IH].
    + apply tc_once. by apply (evolves_dependsOn _ _ _ _ H).
    + eapply tc_l; [|exact IH]. by apply (evolves_dependsOn _ _ _ _ H).
Qed.

Lemma evolves_acyclicFrom (w w' : world) (p : loc) :
  evolves w w' → acyclicFrom (w_defs w) p ↔ acyclicFrom (w_defs w') p.
Proof.
  intros H. unfold acyclicFrom. split; intros Ha x Hx Hc.
  - apply (Ha x); [by apply (evolves_rtc _ _ _ _ H)|by apply (evolves_tc _ _ _ _ H)].
  - apply (Ha x); [by apply (evolves_rtc _ _ _ _ H)|by apply (evolves_tc _ _ _ _ H)].
Qed.

Lemma acyclicFrom_step (h : heap) (p x : loc) :
  acyclicFrom h p → rtc (dependsOn h) p x → acyclicFrom h x.
Proof. intros Ha Hpx y Hy. apply Ha. by etrans. Qed.

(** A definition without an instance had none before, and was the same
    but for the instance. *)
Lemma evolves_uncached (w w' : world) (y : loc) (d' : definition) :
  evolves w w' → w_defs w' !! y = Some d' → IsValid (def_instance d') = false →
  ∃ d, w_defs w !! y = Some d ∧ IsValid (def_instance d) = false ∧
       def_provider d = def_provider d' ∧ def_in d = def_in d'.
Proof.
  intros [H _] Hd' Hv. specialize (H y).
  destruct (w_defs w !! y) as [d|]; [|congruence].
  destruct H as (d2 & Hd2 & Heq & Hsame). rewrite Hd' in Hd2. injection Hd2 as <-.
  exists d. split; [done|]. rewrite Heq. split_and!; try done.
  destruct (IsValid (def_instance d)) eqn:Hvd; [|done].
  rewrite (Hsame eq_refl) in Hv. congruence.
Qed.

Lemma evolves_in (w w' : world) (y : loc) (d d' : definition) :
  evolves w w' → w_defs w !! y = Some d → w_defs w' !! y = Some d' →
  def_in d' = def_in d.
Proof.
  intros [H _] Hd Hd'. specialize (H y). rewrite Hd in H.
  destruct H as (d2 & Hd2 & Heq & _). rewrite Hd' in Hd2. injection Hd2 as <-.
  by rewrite Heq.
Qed.

Lemma constructions_nil (roots : list loc) (h h' : heap) (log : list callev) (ok : bool) :
  constructions code roots h h' log [] ok.
Proof. split; [apply NoDup_nil_2|]. intros i ev Hi. done. Qed.

Lemma traced_refl (roots : list loc) (w : world) (ok : bool) : traced code roots w w ok.
Proof. exists []. split; [by rewrite app_nil_r|apply constructions_nil]. Qed.

(** What the roots depend on, other roots depend on. *)
Lemma traced_roots (roots roots' : list loc) (w w' : world) (ok : bool) :
  (∀ x, x ∈ roots → ∃ x', x' ∈ roots' ∧ rtc (dependsOn (w_defs w)) x' x) →
  traced code roots w w' ok → traced code roots' w w' ok.
Proof.
  intros Hr (evs & Hc & Hnd & Hevs). exists evs. split; [done|]. split; [done|].
  intros i ev Hi.
  destruct (Hevs i ev Hi) as (y & d & ins & outs & Hy & (x & Hx & Hxy) & Hrest).
  exists y, d, ins, outs. split; [done|]. split; [|done].
  destruct (Hr x Hx) as (x' & Hx' & Hx'x). exists x'. split; [done|]. by etrans.
Qed.

Lemma traced_weaken (roots : list loc) (w w' : world) (ok : bool) :
  traced code roots w w' true → traced code roots w w' ok.
Proof.
  intros (evs & Hc & Hnd & Hevs). exists evs. split; [done|]. split; [done|].
  intros i ev Hi.
  destruct (Hevs i ev Hi) as (y & d & ins & outs & H1 & H2 & H3 & H4 & H5 & H6 & H7).
  exists y, d, ins, outs. split_and!; try done.
  destruct (constructs code outs (w_calls w ++ take i evs) ev); [done|].
  by destruct H7.
Qed.

(** One run after another that succeeded. *)
Lemma traced_seq (roots : list loc) (w w1 w2 : world) (ok : bool) :
  evolves w w1 → evolves w1 w2 →
  traced code roots w w1 true → traced code roots w1 w2 ok →
  traced code roots w w2 ok.
Proof.
  intros He1 He2 (evs1 & Hc1 & Hnd1 & Hevs1) (evs2 & Hc2 & Hnd2 & Hevs2).
  exists (evs1 ++ evs2). split; [by rewrite Hc2, Hc1, app_assoc|]. split.
  - rewrite fmap_app. apply NoDup_app. split_and!; try done.
    intros o Ho1 Ho2.
    apply list_elem_of_fmap in Ho1 as (ev1 & -> & Hev1).
    apply list_elem_of_fmap in Ho2 as (ev2 & Heq & Hev2).
    apply list_elem_of_lookup in Hev1 as [i Hi].
    apply list_elem_of_lookup in Hev2 as [j Hj].
    destruct (Hevs1 i ev1 Hi) as (y & d & ins & outs & Hy & _ & _ & _ & _ & _ & Hc).
    destruct (constructs code outs (w_calls w ++ take i evs1) ev1); [|by destruct Hc].
    destruct Hc as (t & _ & (dy & Hdy & Hinst & Hvalid)).
    destruct (Hevs2 j ev2 Hj) as (y2 & d2 & _ & _ & Hy2 & _ & Hd2 & Hv2 & _).
    rewrite Hy, Hy2 in Heq. injection Heq as ->.
    rewrite Hdy in Hd2. injection Hd2 as <-. rewrite Hinst in Hv2. congruence.
  - intros i ev Hi. destruct (decide (i < length evs1)) as [Hlt|Hge].
    + rewrite lookup_app_l in Hi by done.
      destruct (Hevs1 i ev Hi) as (y & d & ins & outs & H1 & H2 & H3 & H4 & H5 & H6 & H7).
      exists y, d, ins, outs. split_and!; try done.
      * eapply Forall2_impl; [exact H6|]. intros x a Hxa. by eapply evolves_cached.
      * rewrite take_app_le by lia.
        destruct (constructs code outs (w_calls w ++ take i evs1) ev); [|by destruct H7].
        destruct H7 as (t & Ht & Hcached). exists t. split; [done|].
        by eapply evolves_cached.
    + rewrite lookup_app_r in Hi by lia.
      destruct (Hevs2 _ ev Hi)
        as (y & d1 & ins & outs & H1 & (x & Hx & Hxy) & H3 & H4 & H5 & H6 & H7).
      destruct (evolves_uncached _ _ _ _ He1 H3 H4) as (d & Hd & Hv & Hp & Hin).
      exists y, d, ins, outs. split_and!; try done.
      * exists x. split; [done|]. by apply (evolves_rtc _ _ _ _ He1).
      * by rewrite Hp.
      * by rewrite Hin.
      * rewrite take_app_ge by lia. rewrite Hc1, <- app_assoc in H7.
        destruct (constructs code outs (w_calls w ++ evs1 ++ take (i - length evs1) evs2) ev);
          [done|].
        destruct H7 as [Hlast ->]. split; [|done]. rewrite length_app. lia.
Qed.
Lemma collect_init_evolves (f : nat) (l : list loc) (w w1 : world)
    (R1 : outcome (list Value)) :
  collect l (init code f) w = Done w1 R1 → evolves w w1.
Proof.
  apply (collect_preserves evolves); [apply evolves_refl|apply evolves_trans|].
  intros x s s' R Hx. by destruct (init_evolves code _ _ _ _ _ Hx) as (_ & He & _).
Qed.

(** The arguments of a definition, resolved one after the other. *)
Lemma collect_traced (f : nat) :
  (∀ p w w' R, init code f p w = Done w' R → acyclicFrom (w_defs w) p →
               traced code [p] w w' (succeeded R)) →
  ∀ l w w1 R1, collect l (init code f) w = Done w1 R1 →
    (∀ x, x ∈ l → acyclicFrom (w_defs w) x) →
    traced code l w w1 (succeeded R1) ∧
    ∀ values, R1 = Ret values → Forall2 (λ x a, cached (w_defs w1) x a) l values.
Proof.
  intros IH. induction l as [|x l IHl]; intros w w1 R1 Hrun Hac.
  - injection Hrun as <- <-. split; [apply traced_refl|]. intros values [= <-]. constructor.
  - rewrite collect_cons in Hrun.
    destruct (init code f x w) as [wa Ra|] eqn:Hx; [|done].
    assert (Hxa : traced code (x :: l) w wa (succeeded Ra)).
    { eapply (traced_roots [x]); [|apply (IH _ _ _ _ Hx); apply Hac; by left].
      intros x0 Hx0. apply list_elem_of_singleton in Hx0 as ->. exists x.
      split; [by left|done]. }
    destruct (init_evolves code _ _ _ _ _ Hx) as (_ & Hea & Hca).
    destruct Ra as [y|e|m]; try (injection Hrun as <- <-; by split).
    destruct (collect l (init code f) wa) as [wb Rb|] eqn:Hl; [|done].
    pose proof (collect_init_evolves _ _ _ _ _ Hl) as Heb.
    destruct (IHl _ _ _ Hl) as [Htb Hvb].
    { intros x0 Hx0. apply (evolves_acyclicFrom _ _ _ Hea). apply Hac. by right. }
    assert (Hlb : traced code (x :: l) wa wb (succeeded Rb)).
    { eapply (traced_roots l); [|exact Htb]. intros x0 Hx0. exists x0.
      split; [by right|done]. }
    pose proof (traced_seq _ _ _ _ _ Hea Heb Hxa Hlb) as Hall.
    destruct Rb as [ys|e|m]; injection Hrun as <- <-; (split; [done|]); try done.
    intros values [= <-]. constructor; [|by apply Hvb].
    eapply evolves_cached; [exact Heb|]. by apply Hca.
Qed.

(** The end of a resolution: when the call constructed, its first
    output is stored in the definition and returned; otherwise the
    resolution does not succeed and stores nothing. *)
Lemma initFinish_result (p : loc) (d d2 : definition) (outs : list rtype)
    (g : nat → rtype → data) (w2 w' : world) (R : outcome Value) :
  w_defs w2 !! p = Some d2 →
  initFinish p d (imap (λ i t, VVal t (g i t)) outs) w2 = Done w' R →
  if match outs with
     | [_] => true
     | [_; te] => IsNil (VVal te (g 1 te))
     | _ => false
     end
  then ∃ t, outs !! 0 = Some t ∧ R = Ret (VVal t (g 0 t)) ∧
            w' = setDefs w2 (<[p := setInstance (VVal t (g 0 t)) d2]> (w_defs w2))
  else w' = w2 ∧ succeeded R = false.
Proof.
  intros Hp.
  assert (Hupd : ∀ t, (update p (setInstance (VVal t (g 0 t))) ;;; ret (VVal t (g 0 t))) w2
                      = Done w' R →
            ∃ t', Some t = Some t' ∧ R = Ret (VVal t' (g 0 t')) ∧
                  w' = setDefs w2 (<[p := setInstance (VVal t' (g 0 t')) d2]> (w_defs w2))).
  { intros t. unfold bind. rewrite (update_live _ _ _ _ Hp). unfold ret.
    intros [= <- <-]. by exists t. }
  unfold initFinish. destruct outs as [|t [|t2 [|t3 outs]]]; cbn [imap].
  - by intros [= <- <-].
  - apply Hupd.
  - change ((λ i t, VVal t (g i t)) ∘ S) with (λ i t, VVal t (g (S i) t)). cbn [imap].
    destruct (IsNil (VVal t2 (g 1 t2))); [apply Hupd|].
    unfold bind, getState. simpl.
    match goal with |- context [assertError ?x] => destruct (assertError x) end;
      by intros [= <- <-].
  - by intros [= <- <-].
Qed.

Lemma cached_insert_ne (h : heap) (p y : loc) (dnew : definition) (v : Value) :
  y ≠ p → cached h y v → cached (<[p := dnew]> h) y v.
Proof.
  intros Hne (d & Hd & Hi & Hv). exists d. by rewrite lookup_insert_ne.
Qed.

(** Every call of a resolution is a construction, when no definition
    that is resolved depends on itself. *)
Lemma init_traced (fuel : nat) :
  ∀ p w w' R, init code fuel p w = Done w' R → acyclicFrom (w_defs w) p →
              traced code [p] w w' (succeeded R).
Proof.
  induction fuel as [|f IHf]; intros p w w' R Hrun Hac; [done|].
  rewrite init_S in Hrun.
  destruct (w_defs w !! p) as [d|] eqn:Hd.
  2:{ injection Hrun as <- <-. apply traced_refl. }
  destruct (IsValid (def_instance d)) eqn:Hv.
  { injection Hrun as <- <-. apply traced_refl. }
  destruct (collect (def_in d) (init code f) w) as [w1 R1|] eqn:Hc; [|done].
  pose proof (collect_init_evolves _ _ _ _ _ Hc) as He1.
  assert (Hdep : ∀ x, x ∈ def_in d → dependsOn (w_defs w) p x).
  { intros x Hx. by exists d. }
  destruct (collect_traced f IHf _ _ _ _ Hc) as [Ht1 Hvals].
  { intros x Hx. apply (acyclicFrom_step _ p); [done|]. apply rtc_once. by apply Hdep. }
  assert (Ht1p : traced code [p] w w1 (succeeded R1)).
  { eapply (traced_roots (def_in d)); [|exact Ht1]. intros x Hx. exists p.
    split; [by left|]. apply rtc_once. by apply Hdep. }
  destruct R1 as [values|e|m]; try (injection Hrun as <- <-; exact Ht1p).
  specialize (Hvals values eq_refl).
  destruct (Call_spec code (Some p) (pw_providerValue (p_wrapper (def_provider d))) values w1)
    as (w2 & R2 & HCall & HR2).
  rewrite HCall in Hrun.
  destruct R2 as [res|e|m];
    try (subst w2; injection Hrun as <- <-; by apply traced_weaken).
  destruct HR2 as (fn & ins & outs & Hfv & -> & ->).
  assert (∃ d1, w_defs w1 !! p = Some d1) as [d1 Hd1].
  { destruct He1 as [Hh _]. specialize (Hh p). rewrite Hd in Hh.
    destruct Hh as (d1 & Hd1 & _). by exists d1. }
  assert (Hd2 : w_defs (setCalls w1 (w_calls w1 ++
                  [{| ce_def := Some p; ce_fn := fn; ce_args := values |}])) !! p = Some d1)
    by exact Hd1.
  pose proof (initFinish_result p d d1 outs (λ i _, code fn (w_calls w1) values i)
                _ _ _ Hd2 Hrun) as Hfin.
  destruct Ht1 as (evs1 & Hcalls1 & Hnd1 & Hevs1).
  (* no definition resolved for the arguments is [p], nor depends on it *)
  assert (Hnotp : ∀ y, (∃ x, x ∈ def_in d ∧ rtc (dependsOn (w_defs w)) x y) → y ≠ p).
  { intros y (x & Hx & Hxy) ->. apply (Hac p); [done|].
    eapply tc_rtc_r; [|exact Hxy]. apply tc_once. by apply Hdep. }
  assert (Hkeep : ∀ y v, (∃ x, x ∈ def_in d ∧ rtc (dependsOn (w_defs w)) x y) →
            cached (w_defs w1) y v → cached (w_defs w') y v).
  { intros y v Hy Hcy.
    destruct (match outs with
              | [_] => true
              | [_; te] => IsNil (VVal te (code fn (w_calls w1) values 1))
              | _ => false
              end).
    - destruct Hfin as (t & _ & _ & ->). simpl.
      apply cached_insert_ne; [by apply Hnotp|done].
    - by destruct Hfin as [-> _]. }
  assert (Hw' : w_calls w' = w_calls w1 ++ [{| ce_def := Some p; ce_fn := fn; ce_args := values |}]).
  { destruct (match outs with
              | [_] => true
              | [_; te] => IsNil (VVal te (code fn (w_calls w1) values 1))
              | _ => false
              end).
    - by destruct Hfin as (t & _ & _ & ->).
    - by destruct Hfin as [-> _]. }
  exists (evs1 ++ [{| ce_def := Some p; ce_fn := fn; ce_args := values |}]).
  split; [by rewrite Hw', Hcalls1, app_assoc|]. split.
  - rewrite fmap_app. apply NoDup_app. split_and!; [done| |apply NoDup_singleton].
    intros o Ho Hp. apply list_elem_of_singleton in Hp as ->.
    apply list_elem_of_fmap in Ho as (ev & Hev & Hin).
    apply list_elem_of_lookup in Hin as [i Hi].
    destruct (Hevs1 i ev Hi) as (y & dy & _ & _ & Hy & Hreach & _).
    simpl in Hev. rewrite Hy in Hev. injection Hev as <-. by apply (Hnotp p).
  - intros i ev Hi. destruct (decide (i < length evs1)) as [Hlt|Hge].
    + rewrite lookup_app_l in Hi by done.
      destruct (Hevs1 i ev Hi) as (y & dy & ins' & outs' & H1 & H2 & H3 & H4 & H5 & H6 & H7).
      exists y, dy, ins', outs'. split_and!; try done.
      * destruct H2 as (x & Hx & Hxy). exists p. split; [by left|].
        eapply rtc_l; [|exact Hxy]. by apply Hdep.
      * assert (Hargs : ∀ x, x ∈ def_in dy →
                  ∃ x0, x0 ∈ def_in d ∧ rtc (dependsOn (w_defs w)) x0 x).
        { intros x Hx. destruct H2 as (x0 & Hx0 & Hx0y). exists x0. split; [done|].
          eapply rtc_r; [exact Hx0y|]. by exists dy. }
        clear -H6 Hargs Hkeep. induction H6 as [|x a xs as_ Hxa _ IH]; constructor.
        -- apply Hkeep; [|done]. apply Hargs. by left.
        -- apply IH. intros x' Hx'. apply Hargs. by right.
      * rewrite take_app_le by lia.
        destruct (constructs code outs' (w_calls w ++ take i evs1) ev); [|by destruct H7].
        destruct H7 as (t & Ht & Hcached). exists t. split; [done|]. by apply Hkeep.
    + rewrite lookup_app_r in Hi by lia.
      assert (i = length evs1) as ->.
      { apply lookup_lt_Some in Hi. simpl in Hi. lia. }
      rewrite Nat.sub_diag in Hi. injection Hi as <-. cbn [ce_def ce_fn ce_args].
      exists p, d, ins, outs. split_and!; try done.
      * exists p. split; [by left|done].
      * clear -Hvals Hkeep. induction Hvals as [|x a xs as_ Hxa Hrest IH]; constructor.
        -- apply Hkeep; [|done]. exists x. split; [by left|done].
        -- apply IH. intros y v (x0 & Hx0 & Hx0y). apply Hkeep. exists x0.
           split; [by right|done].
      * rewrite take_app_le, firstn_all by lia. rewrite <- Hcalls1.
        unfold constructs. cbn [ce_fn ce_args].
        destruct (match outs with
                  | [_] => true
                  | [_; te] => IsNil (VVal te (code fn (w_calls w1) values 1))
                  | _ => false
                  end).
        -- destruct Hfin as (t & Ht & -> & ->). exists t. split; [done|].
           eexists. simpl. rewrite lookup_insert_eq. split; [done|]. by split.
        -- destruct Hfin as [_ Hfail]. split; [|done]. rewrite length_app. simpl. lia.
Qed.
End Trace.

(** ** The graph of a compiled container *)

Lemma edges_targets (s : Storage.definitions) (h : heap) (ps : list loc)
    (E : list (loc * loc)) (a b : loc) :
  edges s h ps = Some E → (a, b) ∈ E → ∃ k, Storage.get s k = Ret b.
Proof.
  revert E. induction ps as [|q ps IH]; intros E HE Hin.
  - unfold edges in HE. simpl in HE. injection HE as <-. by apply not_elem_of_nil in Hin.
  - unfold edges in HE. simpl in HE.
    destruct (edgesOf s h q) as [Eq|] eqn:HEq; [|done]. simpl in HE.
    destruct (mapM (edgesOf s h) ps) as [Es|] eqn:HEs; [|done]. simpl in HE.
    injection HE as <-. apply elem_of_app in Hin as [Hin|Hin].
    + unfold edgesOf in HEq. destruct (argsOf h q) as [ks|]; [|done]. simpl in HEq.
      destruct (mapM (resolve s) ks) as [rs|] eqn:Hrs; [|done]. simpl in HEq.
      injection HEq as <-. apply list_elem_of_fmap in Hin as (r & [= -> ->] & Hr).
      apply mapM_Some in Hrs. apply list_elem_of_lookup in Hr as [i Hi].
      destruct (Forall2_lookup_r _ _ _ _ _ Hrs Hi) as (k & _ & Hk).
      exists k. by apply resolve_get.
    + apply (IH (concat Es)); [|done]. unfold edges. by rewrite HEs.
Qed.

(** After the wiring of a registry of pristine definitions, what a
    stored definition depends on is a stored definition. *)
Lemma connect_in_closed (c : Container) (w w' : world) (ps : list loc) :
  registry (w_defs w) (storage c) ps →
  (∀ p, p ∈ ps → ∃ d, w_defs w !! p = Some d ∧ pristine d) →
  connectDefinitions (c, w) = Done (c, w') (Ret ()) →
  ∀ p r, p ∈ ps → dependsOn (w_defs w') p r → r ∈ ps.
Proof.
  intros (Hall & Hnd & Hlive & Hget) Hpr Hrun p r Hp (d' & Hd' & Hr).
  rewrite connectDefinitions_unfold, Hall in Hrun.
  destruct (connect_loop c (map Some ps) w) as (w1 & R & Hrun' & _ & _ & HR).
  rewrite Hrun in Hrun'. injection Hrun' as <- <-.
  destruct HR as (ps' & E & Hps & HE & Hw).
  apply (inj (fmap Some)) in Hps as <-.
  destruct (Hpr p Hp) as (d & Hd & Hi & _).
  rewrite (Hw p), Hd in Hd'. injection Hd' as <-.
  unfold addEdges in Hr. simpl in Hr. rewrite Hi in Hr. simpl in Hr.
  apply elem_of_insOf in Hr. destruct (edges_targets _ _ _ _ _ _ HE Hr) as (k & Hk).
  by eapply Hget.
Qed.

Lemma sameGraph_dependsOn (h h' : heap) (x y : loc) :
  sameGraph h h' → dependsOn h x y ↔ dependsOn h' x y.
Proof.
  intros H. pose proof (sameGraph_lookup h h' x H) as Hx. unfold dependsOn.
  destruct (h !! x) as [d|], (h' !! x) as [d'|]; try done;
    try (split; by intros (d0 & ? & _)).
  split; intros (d0 & [= <-] & Hin); eexists; (split; [done|]).
  - by rewrite Hx.
  - by rewrite Hx in Hin.
Qed.

(** A path of dependencies between stored definitions is a path of
    edges, reversed. *)
Lemma dependsOn_tc_edge (h : heap) (ps : list loc) :
  (∀ p r, p ∈ ps → dependsOn h p r → r ∈ ps) →
  (∀ p r, p ∈ ps → r ∈ ps → edge h r p ↔ dependsOn h p r) →
  ∀ x y, tc (dependsOn h) x y → x ∈ ps → y ∈ ps ∧ tc (edge h) y x.
Proof.
  intros Hin Hmut x y Htc. induction Htc as [x y Hxy|x z y Hxz _ IH]; intros Hx.
  - pose proof (Hin _ _ Hx Hxy) as Hy. split; [done|]. apply tc_once. by apply Hmut.
  - pose proof (Hin _ _ Hx Hxz) as Hz. destruct (IH Hz) as [Hy Hyz]. split; [done|].
    eapply tc_r; [exact Hyz|]. by apply Hmut.
Qed.

Lemma dependsOn_rtc_in (h : heap) (ps : list loc) :
  (∀ p r, p ∈ ps → dependsOn h p r → r ∈ ps) →
  ∀ x y, rtc (dependsOn h) x y → x ∈ ps → y ∈ ps.
Proof.
  intros Hin x y Hxy. induction Hxy as [|x z y Hxz _ IH]; [done|].
  intros Hx. apply IH. by eapply Hin.
Qed.

Section Compiled.
Variable code : nat → list callev → list Value → nat → data.
Variable ProvideOption : Type.

(** In a container that compiled, from the empty storage and with fuel
    for one more than the number of providers, and whatever was
    resolved, populated or applied since, no definition that the
    storage resolves an identifier to depends on itself, directly or
    not. *)
Lemma compiled_acyclic (fuel : nat) (c : Container) (w : world) (s0 s : Container * world)
    (k : key) (p : loc) :
  storage c = Storage.empty → length (providers c) < fuel →
  compile code fuel (c, w) = Done s0 (Ret ()) →
  rtc (step code ProvideOption) s0 s →
  Storage.get (storage s.1) k = Ret p →
  acyclicFrom (w_defs s.2) p.
Proof.
  intros Hs Hfuel Hcomp Hsteps Hget.
  destruct (compile_outcome code _ _ _ _ Hcomp)
    as ([c1 w1] & [c2 w2] & s3 & H1 & H2 & H3 & H4).
  assert (c2 = c1) as ->.
  { rewrite connectDefinitions_unfold in H2.
    destruct (connect_loop c1 (Storage.all (storage c1)) w1) as (w' & R & Hrun & _).
    rewrite H2 in Hrun. by injection Hrun as ->. }
  destruct (registerProviders_registry _ _ _ _ Hs H1) as (ps & Hregis & Hpr & Hlen & _).
  destruct (connect_graph _ _ _ _ Hregis Hpr H2) as (Hcl & HU & Hmut & _ & _).
  pose proof (connect_in_closed _ _ _ _ Hregis Hpr H2) as Hin.
  destruct Hregis as (Hall & _ & _ & Hgetps).
  destruct (verifyCycles_spec fuel c1 w2 ps Hall Hcl HU ltac:(lia))
    as (w3 & R & Hver & _ & _ & HR).
  rewrite H3 in Hver. injection Hver as -> <-.
  destruct HR as [[? _]|(_ & Hacyc & Hsame & _)]; [done|].
  assert (H03 : serves (c1, w3) s0).
  { revert H4. unfold applyModifiers, bind, theContainer. simpl.
    apply (forEach_preserves serves); [apply serves_refl|apply serves_trans|].
    intros mo sa sb R0. apply apply_serves. }
  pose proof (steps_serves code ProvideOption _ _ Hsteps) as H0s.
  destruct (serves_trans _ _ _ H03 H0s) as [Hc He]. simpl in Hc, He.
  rewrite Hc in Hget. apply Hgetps in Hget.
  apply (evolves_acyclicFrom _ _ _ He).
  intros x Hpx Hxx.
  assert (Hin3 : ∀ a b, a ∈ ps → dependsOn (w_defs w3) a b → b ∈ ps).
  { intros a b Ha Hab. apply (Hin a); [done|]. by apply (sameGraph_dependsOn _ _ _ _ Hsame). }
  assert (Hmut3 : ∀ a b, a ∈ ps → b ∈ ps → edge (w_defs w3) b a ↔ dependsOn (w_defs w3) a b).
  { intros a b Ha Hb. rewrite <- (sameGraph_edge _ _ _ _ Hsame).
    rewrite <- (sameGraph_dependsOn _ _ _ _ Hsame). by apply Hmut. }
  pose proof (dependsOn_rtc_in _ _ Hin3 _ _ Hpx Hget) as Hx.
  destruct (dependsOn_tc_edge _ _ Hin3 Hmut3 _ _ Hxx Hx) as [_ Hcyc].
  apply Hacyc. exists x. split; [done|]. by apply (sameGraph_tc _ _ _ _ Hsame).
Qed.
End Compiled.

(** ** The calls of a container in use *)

Section Chronicle.
Variable code : nat → list callev → list Value → nat → data.
Variable ProvideOption : Type.

Lemma chronicle_nil (h0 h : heap) (log : list callev) : chronicle code h0 h log [].
Proof. intros i ev y Hi. done. Qed.

Lemma chronicled_refl (s : Container * world) : chronicled code s s.
Proof. exists []. split; [by rewrite app_nil_r|apply chronicle_nil]. Qed.

Lemma traced_chronicle (roots : list loc) (w w' : world) (ok : bool) (c : Container) :
  traced code roots w w' ok → chronicled code (c, w) (c, w').
Proof.
  intros (evs & Hc & Hnd & Hevs). exists evs. split; [done|]. simpl.
  intros i ev y Hi Hy.
  destruct (Hevs i ev Hi) as (y' & d & ins & outs & Hy' & _ & Hd & Hv & Hfv & Hargs & Hout).
  rewrite Hy in Hy'. injection Hy' as <-.
  exists d, ins, outs. split_and!; try done.
  intros Hcon. rewrite Hcon in Hout. split; [done|].
  intros j ev' Hij Hj Hy'.
  assert (i = j); [|lia].
  eapply NoDup_lookup; [exact Hnd|..].
  - by rewrite list_lookup_fmap, Hi.
  - rewrite list_lookup_fmap, Hj. simpl. by rewrite Hy, Hy'.
Qed.

(** One stretch of calls after another. *)
Lemma chronicled_trans (s0 s1 s2 : Container * world) :
  evolves s0.2 s1.2 → evolves s1.2 s2.2 →
  chronicled code s0 s1 → chronicled code s1 s2 → chronicled code s0 s2.
Proof.
  intros He1 He2 (evs1 & Hc1 & H1) (evs2 & Hc2 & H2).
  exists (evs1 ++ evs2). split; [by rewrite Hc2, Hc1, app_assoc|].
  intros i ev y Hi Hy. destruct (decide (i < length evs1)) as [Hlt|Hge].
  - rewrite lookup_app_l in Hi by done.
    destruct (H1 i ev y Hi Hy) as (d & ins & outs & Hd & Hv & Hfv & Hargs & Hout).
    exists d, ins, outs. split_and!; try done.
    + eapply Forall2_impl; [exact Hargs|]. intros x a Hxa. by eapply evolves_cached.
    + rewrite take_app_le by lia. intros Hcon.
      destruct (Hout Hcon) as [(t & Ht & Hcached) Hlater]. split.
      * exists t. split; [done|]. by eapply evolves_cached.
      * intros j ev' Hij Hj Hy'. destruct (decide (j < length evs1)) as [Hjlt|Hjge].
        -- rewrite lookup_app_l in Hj by done. by eapply Hlater.
        -- rewrite lookup_app_r in Hj by lia.
           destruct (H2 _ ev' y Hj Hy') as (d' & _ & _ & Hd' & Hv' & _).
           destruct Hcached as (dy & Hdy & Hinst & Hvalid).
           rewrite Hdy in Hd'. injection Hd' as <-. rewrite Hinst in Hv'. congruence.
  - rewrite lookup_app_r in Hi by lia.
    destruct (H2 _ ev y Hi Hy) as (d1 & ins & outs & Hd1 & Hv1 & Hfv & Hargs & Hout).
    destruct (evolves_uncached _ _ _ _ He1 Hd1 Hv1) as (d & Hd & Hv & Hp & Hin).
    exists d, ins, outs. split_and!; try done.
    + by rewrite Hp.
    + by rewrite Hin.
    + rewrite take_app_ge by lia. rewrite Hc1, <- app_assoc in Hout. intros Hcon.
      destruct (Hout Hcon) as [Hcached Hlater]. split; [done|].
      intros j ev' Hij Hj. rewrite lookup_app_r in Hj by lia.
      apply (Hlater (j - length evs1)); [lia|done].
Qed.

(** A call of a modifier at the end. *)
Lemma chronicled_modifier (s0 : Container * world) (c : Container) (w : world)
    (f : nat) (args : list Value) :
  chronicled code s0 (c, w) →
  chronicled code s0
    (c, setCalls w (w_calls w ++ [{| ce_def := None; ce_fn := f; ce_args := args |}])).
Proof.
  intros (evs & Hc & H). exists (evs ++ [{| ce_def := None; ce_fn := f; ce_args := args |}]).
  simpl in *. split; [by rewrite Hc, app_assoc|].
  intros i ev y Hi Hy. destruct (decide (i < length evs)) as [Hlt|Hge].
  - rewrite lookup_app_l in Hi by done.
    destruct (H i ev y Hi Hy) as (d & ins & outs & Hd & Hv & Hfv & Hargs & Hout).
    exists d, ins, outs. split_and!; try done.
    rewrite take_app_le by lia. intros Hcon.
    destruct (Hout Hcon) as [Hcached Hlater]. split; [done|].
    intros j ev' Hij Hj Hy'. destruct (decide (j < length evs)) as [Hjlt|Hjge].
    + rewrite lookup_app_l in Hj by done. by eapply Hlater.
    + rewrite lookup_app_r in Hj by lia.
      destruct (j - length evs) as [|n]; [|done]. by injection Hj as <-.
  - rewrite lookup_app_r in Hi by lia.
    destruct (i - length evs) as [|n]; [|done]. by injection Hi as <-.
Qed.

Lemma resolvesAcyclic_serves (s s' : Container * world) :
  serves s s' → resolvesAcyclic s → resolvesAcyclic s'.
Proof.
  intros [Hc He] Ha k p Hget. rewrite Hc in Hget.
  apply (evolves_acyclicFrom _ _ _ He). by eapply Ha.
Qed.

Lemma resolveArg_chronicled (fuel : nat) (t : rtype) (s s' : Container * world)
    (R : outcome Value) :
  resolvesAcyclic s → resolveArg code fuel t s = Done s' R → chronicled code s s'.
Proof.
  destruct s as [c w]. intros Ha. unfold resolveArg.
  unfold bind at 1, orWrap at 1, storageGet, bind at 1, theContainer, lift. simpl.
  destruct (Storage.get (storage c) (keyOf t)) as [def|e|m] eqn:Hget.
  2,3: intros [= <- <-]; apply chronicled_refl.
  unfold orWrap, liftW. simpl.
  destruct (init code fuel def w) as [w1 R1|] eqn:Hinit; [|done].
  pose proof (init_traced code _ _ _ _ _ Hinit (Ha _ _ Hget)) as Ht.
  destruct R1; intros [= <- <-]; by eapply traced_chronicle.
Qed.

Lemma collect_chronicled (fuel : nat) (ins : list rtype) :
  ∀ s s' R, resolvesAcyclic s →
    collect ins (resolveArg code fuel) s = Done s' R → chronicled code s s'.
Proof.
  induction ins as [|t ins IH]; intros s s' R Ha Hrun.
  - injection Hrun as <- <-. apply chronicled_refl.
  - rewrite collect_cons in Hrun.
    destruct (resolveArg code fuel t s) as [sa Ra|] eqn:Ht; [|done].
    pose proof (resolveArg_chronicled _ _ _ _ _ Ha Ht) as Hca.
    pose proof (resolveArg_serves code _ _ _ _ _ Ht) as Hsa.
    destruct Ra as [v|e|m]; try (by injection Hrun as <- <-).
    destruct (collect ins (resolveArg code fuel) sa) as [sb Rb|] eqn:Hl; [|done].
    pose proof (IH _ _ _ (resolvesAcyclic_serves _ _ Hsa Ha) Hl) as Hcb.
    assert (Hsb : serves sa sb).
    { eapply (collect_preserves serves); [apply serves_refl|apply serves_trans| |exact Hl].
      intros. by eapply resolveArg_serves. }
    assert (s' = sb) as -> by (destruct Rb; congruence).
    eapply chronicled_trans; [apply Hsa|apply Hsb|done|done].
Qed.

Lemma apply_chronicled (fuel : nat) (mo : modifierOptions) (s s' : Container * world)
    (R : outcome unit) :
  resolvesAcyclic s → apply code fuel mo s = Done s' R → chronicled code s s'.
Proof.
  intros Ha. unfold apply. case_bool_decide.
  { intros [= <- <-]. apply chronicled_refl. }
  destruct (Type_ (ValueOf (mo_modifier mo))) as [[| | |ins outs]|];
    try (intros [= <- <-]; apply chronicled_refl).
  case_bool_decide; [intros [= <- <-]; apply chronicled_refl|].
  destruct (bool_decide (length outs = 1) &&
            negb (outImplements (Some (TFunc ins outs)) 0 errorInterface));
    [intros [= <- <-]; apply chronicled_refl|].
  fold (resolveArg code fuel). unfold bind at 1.
  destruct (collect ins (resolveArg code fuel) s) as [s1 R1|] eqn:Hc; [|done].
  pose proof (collect_chronicled _ _ _ _ _ Ha Hc) as H1.
  destruct R1 as [args|e|m]; try (by intros [= <- <-]).
  unfold bind at 1, liftW at 1. destruct s1 as [c1 w1]. simpl.
  destruct (Call_spec code None (ValueOf (mo_modifier mo)) args w1) as (w2 & R2 & -> & HR2).
  assert (H2 : chronicled code s (c1, w2)).
  { destruct R2 as [res| |]; try (by subst w2).
    destruct HR2 as (f & _ & _ & _ & -> & _). by apply chronicled_modifier. }
  destruct R2 as [res|e|m]; try (by intros [= <- <-]).
  destruct res as [|r [|r' res]]; try (by intros [= <- <-]).
  unfold bind, theWorld. simpl.
  destruct (Interface (w_mem w2) r ≫= assertError); simpl; by intros [= <- <-].
Qed.

Lemma Populate_chronicled (fuel : nat) (target : any) (opts : list ProvideOption)
    (s s' : Container * world) (R : outcome unit) :
  resolvesAcyclic s →
  Populate code ProvideOption fuel target opts s = Done s' R → chronicled code s s'.
Proof.
  destruct s as [c w]. intros Ha. unfold Populate.
  destruct (negb (IsValid (ValueOf target)) ||
            (bool_decide (Kind_ (ValueOf target) = Some KPtr) && IsNil (ValueOf target))).
  { intros [= <- <-]. apply chronicled_refl. }
  unfold bind at 1, theWorld. simpl.
  destruct (Elem (w_mem w) (ValueOf target)) as [rvalue|].
  2:{ intros [= <- <-]. apply chronicled_refl. }
  destruct (Type_ rvalue) as [t|].
  2:{ intros [= <- <-]. apply chronicled_refl. }
  unfold bind at 1, orWrap, storageGet, bind at 1, theContainer, lift. simpl.
  destruct (Storage.get (storage c) (keyOf t)) as [def|e|m] eqn:Hget.
  2,3: intros [= <- <-]; apply chronicled_refl.
  unfold bind at 1, liftW at 1. simpl.
  destruct (init code fuel def w) as [w1 R1|] eqn:Hinit; [|done].
  pose proof (traced_chronicle _ _ _ _ c (init_traced code _ _ _ _ _ Hinit (Ha _ _ Hget)))
    as Ht.
  destruct R1 as [instance|e|m]; try (by intros [= <- <-]).
  unfold bind, theWorld, liftW, putState. cbn -[Set_].
  destruct (Set_ (w_mem w1) rvalue instance); by intros [= <- <-].
Qed.

Lemma uses_step (s s' : Container * world) :
  uses code ProvideOption s s' → step code ProvideOption s s'.
Proof.
  intros [fuel target opts s1 s2 R H|fuel mo s1 s2 R H].
  - by eapply step_Populate.
  - by eapply step_apply.
Qed.

(** Whatever a container is used for, its calls are constructions, and
    no definition is constructed again. *)
Lemma uses_chronicled (s0 s : Container * world) :
  rtc (uses code ProvideOption) s0 s → resolvesAcyclic s0 → chronicled code s0 s.
Proof.
  induction 1 as [s|s0 s1 s2 H01 H12 IH]; intros Ha; [apply chronicled_refl|].
  pose proof (step_serves code ProvideOption _ _ (uses_step _ _ H01)) as Hs01.
  assert (Hs12 : serves s1 s2).
  { apply (steps_serves code ProvideOption). eapply rtc_subrel; [|exact H12].
    apply uses_step. }
  assert (Hc01 : chronicled code s0 s1).
  { destruct H01 as [fuel target opts s0 s1 R H|fuel mo s0 s1 R H].
    - by eapply Populate_chronicled.
    - by eapply apply_chronicled. }
  eapply chronicled_trans; [apply Hs01|apply Hs12|done|].
  apply IH. by eapply resolvesAcyclic_serves.
Qed.
End Chronicle.

(** ** Resolution is memoized *)

Section Memoized.
Variable code : nat → list callev → list Value → nat → data.
Variable ProvideOption : Type.

Lemma cached_unique (h : heap) (p : loc) (v v' : Value) :
  cached h p v → cached h p v' → v = v'.
Proof. intros (d & Hd & <- & _) (d' & Hd' & <- & _). congruence. Qed.

(** The first resolution of a definition constructs it: the last call
    of the run is the call of its constructor, the only one made on its
    behalf, on the instances of the definitions it depends on, and what
    the run returns and stores is the first output of that call. *)
Lemma init_constructs (fuel : nat) (p : loc) (w w1 : world) (v : Value) (d : definition) :
  init code fuel p w = Done w1 (Ret v) →
  w_defs w !! p = Some d → IsValid (def_instance d) = false →
  acyclicFrom (w_defs w) p →
  ∃ evs f ins outs t args,
    pw_providerValue (p_wrapper (def_provider d)) = VVal (TFunc ins outs) (DFunc (Some f)) ∧
    outs !! 0 = Some t ∧
    w_calls w1 = w_calls w ++ evs ++ [{| ce_def := Some p; ce_fn := f; ce_args := args |}] ∧
    (∀ ev, ev ∈ evs → ce_def ev ≠ Some p) ∧
    NoDup (ce_def <$> evs) ∧
    Forall2 (λ x a, cached (w_defs w1) x a) (def_in d) args ∧
    v = VVal t (code f (w_calls w ++ evs) args 0) ∧
    cached (w_defs w1) p v.
Proof.
  intros Hinit Hd Hv Hac.
  destruct (init_evolves code _ _ _ _ _ Hinit) as (_ & _ & Hc). specialize (Hc v eq_refl).
  destruct (init_calls_constructor code _ _ _ _ _ _ Hinit Hd Hv) as (evs & f & args & Hlog & _).
  destruct (init_traced code _ _ _ _ _ Hinit Hac) as (evs' & Hlog' & Hnd & Hevs).
  rewrite Hlog in Hlog'. apply app_inv_head in Hlog'. subst evs'.
  destruct (Hevs (length evs) {| ce_def := Some p; ce_fn := f; ce_args := args |})
    as (y & d' & ins & outs & Hy & _ & Hd' & _ & Hfv & Hargs & Hout).
  { rewrite lookup_app_r by lia. by rewrite Nat.sub_diag. }
  simpl in Hy, Hfv, Hargs, Hout. injection Hy as <-.
  rewrite Hd in Hd'. injection Hd' as <-.
  rewrite take_app_le, firstn_all in Hout by lia.
  destruct (constructs code outs (w_calls w ++ evs)
              {| ce_def := Some p; ce_fn := f; ce_args := args |}); [|by destruct Hout].
  destruct Hout as (t & Ht & Hct).
  rewrite fmap_app in Hnd. apply NoDup_app in Hnd as (Hnd1 & Hdisj & _).
  exists evs, f, ins, outs, t, args. split_and!; try done.
  - intros ev Hev Hp. apply (Hdisj (Some p)).
    + apply list_elem_of_fmap. by exists ev.
    + by left.
  - by eapply cached_unique.
Qed.

(** C3: resolution is memoized.  A successful resolution of a definition
    leaves its instance cached, and when it was not cached before, the
    log ends with the call of its constructor.  From then on, whatever
    modifiers are applied and whatever is resolved or populated, the
    instance stays the cached one, resolving the definition again
    returns it and leaves the world as it is, and no call is made on
    behalf of the definition.  A successful [Populate] of a type assigns
    the instance of the resolved definition, and every later [Populate]
    of that type assigns that same instance without any call.
    The first resolution invokes the constructor and caches its result:
    where no definition that is resolved depends on itself, the run
    that gives a definition its instance calls the constructor of the
    definition once, as its last call, on the instances of the
    definitions it depends on, and the instance it returns and caches
    is the first output of that call.  In every run of a resolution,
    successful or not, no definition is constructed twice, and every
    call is the call of the constructor of a definition that had no
    instance, whose first output the definition then holds, except for
    the last call of a run that fails.  In a compiled container no
    definition that the storage resolves depends on itself; so there the
    first successful [Populate] of a type whose definition has no
    instance calls its constructor exactly once and writes the first
    output of that call into the target, and a [Populate] of a type
    whose definition has an instance makes no call and writes that
    instance.  And over the whole use of a compiled container, whatever
    is populated and whatever modifiers are applied, every call made on
    behalf of a definition is a call of its constructor, made when the
    definition had no instance, on instances of the definitions it
    depends on; a call that constructs (the constructor has no error
    output, or returns the nil error) leaves its first output in the
    definition, and no call is made on behalf of the definition after
    it: a definition is constructed at most once. *)
Theorem resolution_memoized :
  (∀ fuel p c w w1 v,
     init code fuel p w = Done w1 (Ret v) →
     cached (w_defs w1) p v ∧
     (∀ d, w_defs w !! p = Some d → IsValid (def_instance d) = false →
        ∃ evs f args, w_calls w1 = w_calls w ++ evs ++
                        [{| ce_def := Some p; ce_fn := f; ce_args := args |}]) ∧
     ∀ s2, rtc (step code ProvideOption) (c, w1) s2 →
       cached (w_defs s2.2) p v ∧
       (∀ fuel', init code (S fuel') p s2.2 = Done s2.2 (Ret v)) ∧
       (∃ evs, w_calls s2.2 = w_calls w1 ++ evs ∧
               ∀ ev, ev ∈ evs → ce_def ev ≠ Some p)) ∧
  (∀ fuel t a opts s s1,
     Populate code ProvideOption fuel (ptrTo t a) opts s = Done s1 (Ret ()) →
     ∃ p v w1,
       Storage.get (storage s.1) (keyOf t) = Ret p ∧
       init code fuel p s.2 = Done w1 (Ret v) ∧
       assign t a v (s.1, w1) = Done s1 (Ret ()) ∧
       ∀ s2, rtc (step code ProvideOption) s1 s2 →
         ∀ fuel' a' opts',
           Populate code ProvideOption (S fuel') (ptrTo t a') opts' s2
           = assign t a' v s2 ∧
           ∀ ts d, v = VVal ts d →
             w_mem s1.2 !! a = Some (stored ts t d) ∧
             assign t a' v s2
             = Done (s2.1, setMem s2.2 (<[a' := stored ts t d]> (w_mem s2.2))) (Ret ())) ∧
  (∀ fuel p w w1 v d,
     init code fuel p w = Done w1 (Ret v) →
     w_defs w !! p = Some d → IsValid (def_instance d) = false →
     acyclicFrom (w_defs w) p →
     ∃ evs f ins outs t args,
       pw_providerValue (p_wrapper (def_provider d))
         = VVal (TFunc ins outs) (DFunc (Some f)) ∧
       outs !! 0 = Some t ∧
       w_calls w1 = w_calls w ++ evs ++
                      [{| ce_def := Some p; ce_fn := f; ce_args := args |}] ∧
       (∀ ev, ev ∈ evs → ce_def ev ≠ Some p) ∧
       NoDup (ce_def <$> evs) ∧
       Forall2 (λ x a, cached (w_defs w1) x a) (def_in d) args ∧
       v = VVal t (code f (w_calls w ++ evs) args 0) ∧
       cached (w_defs w1) p v) ∧
  (∀ fuel p w w1 R,
     init code fuel p w = Done w1 R → acyclicFrom (w_defs w) p →
     traced code [p] w w1 (succeeded R)) ∧
  (∀ fuel0 c0 w0 s0,
     storage c0 = Storage.empty → length (providers c0) < fuel0 →
     compile code fuel0 (c0, w0) = Done s0 (Ret ()) →
     ∀ s, rtc (step code ProvideOption) s0 s →
       (∀ k p, Storage.get (storage s.1) k = Ret p → acyclicFrom (w_defs s.2) p) ∧
       ∀ fuel t a opts s1,
         Populate code ProvideOption fuel (ptrTo t a) opts s = Done s1 (Ret ()) →
         ∃ p d, Storage.get (storage s.1) (keyOf t) = Ret p ∧
           w_defs s.2 !! p = Some d ∧
           (IsValid (def_instance d) = false →
              ∃ evs f ins outs t0 args,
                pw_providerValue (p_wrapper (def_provider d))
                  = VVal (TFunc ins outs) (DFunc (Some f)) ∧
                outs !! 0 = Some t0 ∧
                w_calls s1.2 = w_calls s.2 ++ evs ++
                                 [{| ce_def := Some p; ce_fn := f; ce_args := args |}] ∧
                (∀ ev, ev ∈ evs → ce_def ev ≠ Some p) ∧
                NoDup (ce_def <$> evs) ∧
                Forall2 (λ x a, cached (w_defs s1.2) x a) (def_in d) args ∧
                cached (w_defs s1.2) p (VVal t0 (code f (w_calls s.2 ++ evs) args 0)) ∧
                w_mem s1.2 !! a
                  = Some (stored t0 t (code f (w_calls s.2 ++ evs) args 0))) ∧
           (∀ ts x, def_instance d = VVal ts x →
              w_calls s1.2 = w_calls s.2 ∧ w_defs s1.2 = w_defs s.2 ∧
              w_mem s1.2 !! a = Some (stored ts t x))) ∧
  (∀ fuel0 c0 w0 s0,
     storage c0 = Storage.empty → length (providers c0) < fuel0 →
     compile code fuel0 (c0, w0) = Done s0 (Ret ()) →
     ∀ s, rtc (uses code ProvideOption) s0 s → chronicled code s0 s).
Proof.
  split_and!.
  - intros fuel p c w w1 v Hinit.
    destruct (init_evolves code _ _ _ _ _ Hinit) as (_ & _ & Hc). specialize (Hc v eq_refl).
    split_and!; [done| |].
    + intros d Hd Hv.
      destruct (init_calls_constructor code _ _ _ _ _ _ Hinit Hd Hv)
        as (evs & f & args & H & _).
      by exists evs, f, args.
    + intros s2 Hsteps.
      destruct (steps_serves code ProvideOption _ _ Hsteps) as [_ He]. simpl in He.
      pose proof (evolves_cached _ _ _ _ He Hc) as Hc2.
      split_and!; [done|intros; by apply init_cached|].
      destruct He as [_ (evs & Hcalls & Hevs)]. exists evs. split; [done|].
      intros ev Hev Hp. destruct (Hevs ev p Hev Hp) as (d & Hd & Hv).
      destruct Hc as (d' & Hd' & <- & Hv'). congruence.
  - intros fuel t a opts [c w] s1 Hpop. rewrite Populate_ptr in Hpop. simpl.
    destruct (Storage.get (storage c) (keyOf t)) as [p|e|m] eqn:Hget; try done.
    destruct (init code fuel p w) as [w1 [v|e|m]|] eqn:Hinit; try done.
    exists p, v, w1. split_and!; try done.
    destruct (init_evolves code _ _ _ _ _ Hinit) as (_ & _ & Hc). specialize (Hc v eq_refl).
    assert (Hs1 : s1.1 = c ∧ cached (w_defs s1.2) p v ∧
                  ∀ ts d, v = VVal ts d → w_mem s1.2 !! a = Some (stored ts t d)).
    { destruct (Set_ (w_mem w1) (VRef t a) v) as [m|] eqn:HS; [|done].
      injection Hpop as <-. split_and!; try done.
      intros ts d ->. simpl in *. destruct (assignable ts t); [|done].
      injection HS as <-. by rewrite lookup_insert_eq. }
    destruct Hs1 as (Hc1 & Hcached1 & Hmem1).
    intros s2 Hsteps fuel' a' opts'.
    destruct (steps_serves code ProvideOption _ _ Hsteps) as [Hc2 He].
    pose proof (evolves_cached _ _ _ _ He Hcached1) as Hcached2.
    split.
    + apply (Populate_cached code ProvideOption _ _ _ _ _ p); [|done]. by rewrite Hc2, Hc1.
    + intros ts d ->. split; [by apply Hmem1|].
      unfold assign. simpl.
      destruct (assignable ts t) eqn:Ha; [done|].
      exfalso. simpl in Hpop. rewrite Ha in Hpop. done.
  - intros fuel p w w1 v d. apply init_constructs.
  - intros fuel p w w1 R. apply init_traced.
  - intros fuel0 c0 w0 s0 Hs Hfuel Hcomp s Hsteps.
    assert (Hacyc : ∀ k p, Storage.get (storage s.1) k = Ret p → acyclicFrom (w_defs s.2) p).
    { intros k p. by eapply compiled_acyclic. }
    split; [exact Hacyc|].
    intros fuel t a opts s1 Hpop. destruct s as [c w].
    rewrite Populate_ptr in Hpop. cbn [fst snd] in *.
    destruct (Storage.get (storage c) (keyOf t)) as [p|e|m] eqn:Hget; try done.
    destruct (init code fuel p w) as [w1 [v|e|m]|] eqn:Hinit; try done.
    destruct (Set_ (w_mem w1) (VRef t a) v) as [m|] eqn:HS; [|done].
    injection Hpop as <-. cbn [fst snd setMem w_calls w_defs w_mem].
    destruct fuel as [|fuel]; [done|]. pose proof Hinit as Hinit'.
    rewrite init_S in Hinit'.
    destruct (w_defs w !! p) as [d|] eqn:Hd; [|done].
    exists p, d. split; [done|]. split; [done|]. split.
    + intros Hv. rewrite Hv in Hinit'. clear Hinit'.
      destruct (init_constructs _ _ _ _ _ _ Hinit Hd Hv (Hacyc _ _ Hget))
        as (evs & f & ins & outs & t0 & args & Hfv & Ht0 & Hlog & Hno & Hnd & Hargs & -> & Hc).
      exists evs, f, ins, outs, t0, args. split_and!; try done.
      simpl in HS. destruct (assignable t0 t); [|done]. injection HS as <-.
      by rewrite lookup_insert_eq.
    + intros ts x Hinst. rewrite Hinst in Hinit'. simpl in Hinit'.
      injection Hinit' as <- <-. split_and!; try done.
      simpl in HS. destruct (assignable ts t); [|done]. injection HS as <-.
      by rewrite lookup_insert_eq.
  - intros fuel0 c0 w0 s0 Hs Hfuel Hcomp s Huses.
    apply (uses_chronicled code ProvideOption); [done|].
    intros k p Hget.
    by apply (compiled_acyclic code ProvideOption fuel0 c0 w0 s0 s0 k p Hs Hfuel Hcomp
                (rtc_refl _ _)).
Qed.
End Memoized.

(** ** The theorems at work on the examples *)

Lemma server_example_registered :
  Storage.addAll Examples.serverDefs Storage.empty [0; 1]
    = ((Storage.addAll Examples.serverDefs Storage.empty [0; 1]).1, Ret ()).
Proof.
  assert (H : Examples.isRet
                (Storage.addAll Examples.serverDefs Storage.empty [0; 1]).2 = true)
    by (vm_compute; reflexivity).
  destruct (Storage.addAll Examples.serverDefs Storage.empty [0; 1]) as [s [[]| |]];
    simpl in *; done.
Qed.

Lemma get_first_registered_witness :
  Storage.addAll Examples.serverDefs Storage.empty [0; 1]
    = ((Storage.addAll Examples.serverDefs Storage.empty [0; 1]).1, Ret ()) ∧
  Storage.get (Storage.addAll Examples.serverDefs Storage.empty [0; 1]).1
    (keyOf Examples.tServer) = Ret 0.
Proof.
  pose proof server_example_registered as Hadd.
  split; [exact Hadd|].
  destruct (StorageFacts.get_first_registered Examples.serverDefs
              (Storage.addAll Examples.serverDefs Storage.empty [0; 1]).1
              (keyOf Examples.tServer)) as (_ & _ & _ & H).
  destruct (H [0; 1] Hadd) as (_ & Hfirst & _).
  apply (Hfirst [] 0 [1]).
  - reflexivity.
  - vm_compute. reflexivity.
  - constructor.
  - vm_compute. lia.
Defined.

(** Two providers declare the capability [Server]: after compilation it
    resolves to the one registered first. *)
Lemma server_example_first_wins :
  Examples.resolvesTo
    (compile Examples.code0 3 (Examples.container Examples.serverProviders [], Examples.w0))
    (keyOf Examples.tServer)
  = Some (keyOf Examples.tB).
Proof. vm_compute. reflexivity. Qed.

Lemma add_conflict_iff_bound_witness :
  Examples.serverDefs !! 0 = Some (Examples.claimant 2 Examples.tB [keyOf Examples.tServer]) ∧
  (Storage.add Examples.serverDefs Storage.empty 0).2 = Ret () ∧
  Storage.keys (Storage.add Examples.serverDefs Storage.empty 0).1 = [keyOf Examples.tB].
Proof.
  assert (H0 : Examples.serverDefs !! 0
               = Some (Examples.claimant 2 Examples.tB [keyOf Examples.tServer]))
    by (vm_compute; reflexivity).
  split; [exact H0|].
  destruct (StorageFacts.add_conflict_iff_bound Examples.serverDefs Storage.empty 0 _ H0)
    as (_ & _ & Hfree).
  destruct Hfree as (Hret & Hkeys & _); [vm_compute; reflexivity|].
  split; [exact Hret|exact Hkeys].
Defined.

Lemma chain_example_registered :
  ∃ c1 wA,
    registerProviders (Examples.container Examples.chainProviders [], Examples.w0)
      = Done (c1, wA) (Ret ()).
Proof.
  pose (s := (Examples.container Examples.chainProviders [], Examples.w0)).
  assert (H : Examples.returned (registerProviders s) = true) by (vm_compute; reflexivity).
  apply returned_inv in H as ([c1 wA] & [] & H). by exists c1, wA.
Qed.

Lemma connect_mutual_edges_witness :
  ∃ c1 wA ps w' R,
    registerProviders (Examples.container Examples.chainProviders [], Examples.w0)
      = Done (c1, wA) (Ret ()) ∧
    registry (w_defs wA) (storage c1) ps ∧
    connectDefinitions (c1, wA) = Done (c1, w') R ∧ ∀ m, R ≠ Panic m.
Proof.
  destruct chain_example_registered as (c1 & wA & H1).
  destruct (registerProviders_registry (Examples.container Examples.chainProviders []) c1
              Examples.w0 wA eq_refl H1) as (ps & Hreg & Hpr & _).
  destruct (connect_mutual_edges c1 wA ps Hreg) as (w' & R & Hrun & _ & _ & _ & Hnp).
  { intros p d Hp Hd. destruct (Hpr p Hp) as (d' & Hd' & Hi & _). congruence. }
  by exists c1, wA, ps, w', R.
Defined.

Lemma newFuncProvider_signature_witness :
  ∃ r, newFuncProvider (box (TFunc [Examples.tB] [Examples.tA; errorInterface])
                            (DFunc (Some 1))) Examples.w0
       = Done Examples.w0 r ∧ ¬ is_err r.
Proof.
  destruct (newFuncProvider_signature [Examples.tB] [Examples.tA; errorInterface]
              (DFunc (Some 1)) Examples.w0) as (r & Hrun & Hiff & _).
  exists r. split; [exact Hrun|]. intros Herr. apply Hiff in Herr.
  destruct Herr as [[_ Hbad]|(_ & t & Ht & Hf)]; [by apply Hbad|].
  injection Ht as <-. vm_compute in Hf. discriminate Hf.
Defined.




Lemma chain_example_populated :
  ∃ s s1,
    compile Examples.code0 4 (Examples.container Examples.chainProviders [], Examples.w0)
      = Done s (Ret ()) ∧
    Populate Examples.code0 unit 4 (ptrTo Examples.tA 50) [] s = Done s1 (Ret ()).
Proof.
  pose (s0 := (Examples.container Examples.chainProviders [], Examples.w0)).
  assert (H : Examples.returned
                ((compile Examples.code0 4 ;;;
                  Populate Examples.code0 unit 4 (ptrTo Examples.tA 50) []) s0) = true)
    by (vm_compute; reflexivity).
  apply returned_inv in H as (s1 & [] & H). unfold bind in H. fold s0.
  destruct (compile Examples.code0 4 s0) as [s [[]|e|m]|]; try done.
  by exists s, s1.
Qed.

Lemma resolution_memoized_witness :
  ∃ s s1 p d v w1,
    compile Examples.code0 4 (Examples.container Examples.chainProviders [], Examples.w0)
      = Done s (Ret ()) ∧
    Populate Examples.code0 unit 4 (ptrTo Examples.tA 50) [] s = Done s1 (Ret ()) ∧
    Storage.get (storage s.1) (keyOf Examples.tA) = Ret p ∧
    w_defs s.2 !! p = Some d ∧
    acyclicFrom (w_defs s.2) p ∧
    init Examples.code0 4 p s.2 = Done w1 (Ret v) ∧
    Populate Examples.code0 unit 1 (ptrTo Examples.tA 51) [] s1
      = assign Examples.tA 51 v s1.
Proof.
  destruct chain_example_populated as (s & s1 & Hcomp & Hpop).
  destruct (resolution_memoized Examples.code0 unit) as (_ & Hsecond & _ & _ & Hcompiled & _).
  destruct (Hsecond 4 Examples.tA 50 [] s s1 Hpop) as (p & v & w1 & Hget & Hinit & _ & Hlater).
  destruct s as [c w].
  destruct (Hcompiled 4 (Examples.container Examples.chainProviders []) Examples.w0 (c, w)
              eq_refl ltac:(simpl; lia) Hcomp (c, w) (rtc_refl _ _)) as [Hacyc Hfirst].
  destruct (Hfirst 4 Examples.tA 50 [] s1 Hpop) as (p' & d & Hget' & Hd & _).
  simpl in Hget, Hget'. rewrite Hget in Hget'. injection Hget' as <-.
  exists (c, w), s1, p, d, v, w1. split; [exact Hcomp|]. split; [exact Hpop|].
  split; [exact Hget|]. split; [exact Hd|]. split; [exact (Hacyc _ _ Hget)|].
  split; [exact Hinit|].
  exact (proj1 (Hlater s1 (rtc_refl _ _) 0 51 [])).
Defined.

(** ** The storage as it grows *)

Module StorageGrowth.
Import Storage.

(** A call of [add] leaves the storage or extends it. *)
Lemma add_cases (h : heap) (s : definitions) (p : loc) :
  (add h s p).1 = s ∨
  ∃ d, h !! p = Some d ∧ defs s !! def_key d = None ∧
       add h s p =
         ({| keys := keys s ++ [def_key d];
             defs := <[def_key d := p]> (defs s);
             implementations := addImplements p (implementations s) (def_implements d) |},
          Ret ()).
Proof.
  unfold add. destruct (h !! p) as [d|]; [|by left].
  destruct (defs s !! def_key d) eqn:Hk; [by left|]. right. by exists d.
Qed.

Lemma coherent_empty : coherent empty.
Proof.
  split_and!; simpl.
  - apply NoDup_nil_2.
  - intros k. rewrite lookup_empty. split; [by intros ?%not_elem_of_nil|by intros [? ?]].
  - by rewrite map_size_empty.
  - intros k p Hp. unfold claimants in Hp. simpl in Hp. rewrite lookup_empty in Hp.
    by apply not_elem_of_nil in Hp.
Qed.

Lemma coherent_add (h : heap) (s : definitions) (p : loc) :
  coherent s → coherent (add h s p).1.
Proof.
  intros (Hnd & Hdom & Hlen & Hcl).
  destruct (add_cases h s p) as [->|(d & Hp & Hk & ->)]; [done|]. simpl.
  assert (Hnew : def_key d ∉ keys s).
  { intros Hin. apply Hdom in Hin as [x Hx]. congruence. }
  split_and!; simpl.
  - apply NoDup_app. split_and!; [done| |apply NoDup_singleton].
    intros k Hin Hk'. apply list_elem_of_singleton in Hk' as ->. done.
  - intros k. rewrite elem_of_app, list_elem_of_singleton, lookup_insert_is_Some, Hdom.
    split; [intros [?| ->]|intros [->|[_ ?]]]; auto.
    destruct (decide (def_key d = k)); auto.
  - rewrite length_app, map_size_insert_None by done. simpl. lia.
  - intros k q Hq. unfold claimants in Hq. simpl in Hq.
    rewrite StorageFacts.addImplements_lookup in Hq.
    apply elem_of_app in Hq as [Hq|Hq].
    + destruct (Hcl k q Hq) as [k' Hk']. exists k'.
      rewrite lookup_insert_ne; [done|]. intros <-. congruence.
    + apply elem_of_replicate in Hq as [-> _]. exists (def_key d).
      by rewrite lookup_insert_eq.
Qed.

Lemma grows_coherent (s s' : definitions) : grows s s' → coherent s → coherent s'.
Proof.
  induction 1 as [|s s' h p _ IH]; [done|]. intros Hs. by apply coherent_add, IH.
Qed.

(** X1: in a storage that calls of [add] built from the empty one, the
    list of keys has no duplicate and holds exactly the bound
    identifiers, so that [all] returns one definition per binding, none
    of them nil, and exactly the definitions that are bound. *)
Theorem all_lists_bindings (s : definitions) :
  grows empty s →
  NoDup (keys s) ∧
  (∀ k, k ∈ keys s ↔ is_Some (defs s !! k)) ∧
  length (all s) = size (defs s) ∧
  (∀ o, o ∈ all s → is_Some o) ∧
  (∀ p, Some p ∈ all s ↔ ∃ k, defs s !! k = Some p).
Proof.
  intros Hg. destruct (grows_coherent _ _ Hg coherent_empty) as (Hnd & Hdom & Hlen & _).
  split_and!; try done.
  - unfold all. by rewrite length_map.
  - intros o Ho. unfold all in Ho. apply list_elem_of_fmap in Ho as (k & -> & Hk).
    by apply Hdom.
  - intros p. unfold all. rewrite list_elem_of_fmap. split.
    + intros (k & Hk & _). by exists k.
    + intros (k & Hk). exists k. split; [done|]. apply Hdom. by eexists.
Qed.

(** X2: whatever [get] returns, for an identifier or for a capability,
    is one of the definitions that [all] lists. *)
Theorem get_returns_listed (s : definitions) (k : key) (p : loc) :
  grows empty s → get s k = Ret p → Some p ∈ all s.
Proof.
  intros Hg Hget.
  destruct (grows_coherent _ _ Hg coherent_empty) as (_ & Hdom & _ & Hcl).
  assert (∃ k', defs s !! k' = Some p) as [k' Hk'].
  { unfold get in Hget. destruct (defs s !! k) as [q|] eqn:Hq.
    - injection Hget as ->. by exists k.
    - destruct (claimants s k) as [|q l] eqn:Hc; [done|]. injection Hget as ->.
      apply (Hcl k). rewrite Hc. by left. }
  unfold all. apply list_elem_of_fmap. exists k'. split; [done|].
  apply Hdom. by eexists.
Qed.

(** X3: lookup after insertion.  After a successful [add] of a
    definition, [get] of its identifier returns it; [get] of any other
    identifier returns what it returned before, and where it failed
    before it now returns the new definition exactly when the
    definition declares the identifier as a capability. *)
Theorem get_after_add (h : heap) (s : definitions) (p : loc) (d : definition) :
  h !! p = Some d → defs s !! def_key d = None →
  get (add h s p).1 (def_key d) = Ret p ∧
  (∀ k, k ≠ def_key d →
     get (add h s p).1 k =
     match get s k with
     | Ret q => Ret q
     | r => if bool_decide (k ∈ def_implements d) then Ret p else r
     end).
Proof.
  intros Hp Hk. rewrite (StorageFacts.add_free _ _ _ _ Hp Hk). simpl. split.
  - unfold get. simpl. by rewrite lookup_insert_eq.
  - intros k Hne. unfold get. simpl. rewrite lookup_insert_ne by done.
    destruct (defs s !! k) as [q|]; [done|].
    unfold claimants. simpl. rewrite StorageFacts.addImplements_lookup.
    destruct (default [] (implementations s !! k)) as [|q l]; [|done]. simpl.
    case_bool_decide as Hin.
    + destruct (filter (λ k', k' = k) (def_implements d)) as [|y l] eqn:Hf; [|done].
      exfalso. assert (k ∈ filter (λ k', k' = k) (def_implements d)) as Hin'
        by (by apply list_elem_of_filter).
      rewrite Hf in Hin'. by apply not_elem_of_nil in Hin'.
    + destruct (filter (λ k', k' = k) (def_implements d)) as [|y l] eqn:Hf; [done|].
      exfalso. apply Hin. assert (y ∈ filter (λ k', k' = k) (def_implements d)) as Hy
        by (rewrite Hf; by left).
      apply list_elem_of_filter in Hy as [-> Hy]. done.
Qed.

Lemma grows_mono (s s' : definitions) :
  grows s s' →
  keys s `prefix_of` keys s' ∧
  (∀ k p, defs s !! k = Some p → defs s' !! k = Some p) ∧
  (∀ k, claimants s k `prefix_of` claimants s' k).
Proof.
  induction 1 as [|s s' h p _ (IH1 & IH2 & IH3)]; [done|].
  destruct (add_cases h s' p) as [->|(d & Hp & Hk & ->)]; [done|]. simpl.
  split_and!.
  - etrans; [exact IH1|]. by apply prefix_app_r.
  - intros k q Hq. simpl. rewrite lookup_insert_ne; [by apply IH2|].
    intros <-. apply IH2 in Hq. congruence.
  - intros k. etrans; [apply IH3|]. unfold claimants at 2. simpl.
    rewrite StorageFacts.addImplements_lookup. by apply prefix_app_r.
Qed.

(** X4: a storage only grows.  Whatever calls of [add] follow, the list
    of keys and every capability list are extended at the end only, and
    no binding is removed or replaced; so what [get] returned for an
    identifier it keeps returning, unless it came from a capability list
    and the identifier got bound since; a bound identifier resolves to
    its definition for ever, and every later [add] of a definition with
    that identifier fails and changes nothing. *)
Theorem storage_only_grows (s s' : definitions) :
  grows s s' →
  keys s `prefix_of` keys s' ∧
  (∀ k, claimants s k `prefix_of` claimants s' k) ∧
  (∀ k p, defs s !! k = Some p → defs s' !! k = Some p ∧ get s' k = Ret p) ∧
  (∀ k q, get s k = Ret q →
     get s' k = Ret q ∨ (defs s !! k = None ∧ is_Some (defs s' !! k))) ∧
  (∀ h p d, h !! p = Some d → is_Some (defs s !! def_key d) →
     add h s' p = (s', Fail (EErrorf "%s already provided" (FKey (def_key d))))).
Proof.
  intros Hg. destruct (grows_mono _ _ Hg) as (Hkeys & Hdefs & Hcl).
  split_and!; try done.
  - intros k p Hk. apply Hdefs in Hk. split; [done|]. unfold get. by rewrite Hk.
  - intros k q Hget. unfold get in Hget. destruct (defs s !! k) as [x|] eqn:Hx.
    + injection Hget as ->. left. apply Hdefs in Hx. unfold get. by rewrite Hx.
    + destruct (claimants s k) as [|y l] eqn:Hc; [done|]. injection Hget as ->.
      destruct (defs s' !! k) as [x'|] eqn:Hx'; [right; by eauto|].
      left. unfold get. rewrite Hx'. destruct (Hcl k) as [l' Hl'].
      rewrite Hl', Hc. done.
  - intros h p d Hp [x Hx]. apply Hdefs in Hx. by eapply StorageFacts.add_bound.
Qed.

Lemma grows_first (h : heap) (p : loc) (s s' : definitions) :
  grows (add h s p).1 s' → grows s s'.
Proof.
  remember (add h s p).1 as s0 eqn:E. induction 1 as [|s0 s2 h' p' _ IH].
  - subst. constructor. constructor.
  - constructor. by apply IH.
Qed.

(** What the registration loop leaves, from a coherent storage. *)
Lemma addAll_listing (h : heap) (ps : list loc) (s s' : definitions) :
  coherent s → addAll h s ps = (s', Ret ()) →
  grows s s' ∧
  all s' = all s ++ (Some <$> ps) ∧
  ∃ ks, keys s' = keys s ++ ks ∧ Some <$> ks = (λ p, def_key <$> h !! p) <$> ps.
Proof.
  revert s. induction ps as [|p ps IH]; intros s Hs Hall; simpl in Hall.
  - injection Hall as <-. split_and!; [constructor|by rewrite app_nil_r|].
    exists []. by rewrite app_nil_r.
  - destruct (add h s p) as [s1 r] eqn:Hadd. destruct r as [[]|e|m]; try done.
    destruct (h !! p) as [d|] eqn:Hp; [|by (unfold add in Hadd; rewrite Hp in Hadd)].
    destruct (defs s !! def_key d) as [x|] eqn:Hk.
    { by rewrite (StorageFacts.add_bound _ _ _ _ _ Hp Hk) in Hadd. }
    pose proof (StorageFacts.add_free _ _ _ _ Hp Hk) as Heq.
    assert (Hs1 : coherent s1).
    { replace s1 with (add h s p).1 by (by rewrite Hadd). by apply coherent_add. }
    destruct (IH s1 Hs1 Hall) as (Hg & Hl & ks & Hks & Hkp).
    rewrite Hadd in Heq. injection Heq as ->.
    destruct Hs as (_ & Hdom & _).
    assert (Hnew : def_key d ∉ keys s).
    { intros Hin. apply Hdom in Hin as [x Hx]. congruence. }
    split_and!.
    + apply (grows_first h p). by rewrite (StorageFacts.add_free _ _ _ _ Hp Hk).
    + rewrite Hl. unfold all at 1. simpl. rewrite map_app. simpl.
      rewrite lookup_insert_eq, <- app_assoc. f_equal.
      apply map_ext_in. intros k Hin. apply lookup_insert_ne. intros <-.
      apply Hnew. by apply list_elem_of_In.
    + exists (def_key d :: ks). rewrite Hks. simpl. rewrite <- app_assoc. split; [done|].
      change (Some (def_key d) :: (Some <$> ks) =
              (def_key <$> h !! p) :: ((λ p, def_key <$> h !! p) <$> ps)).
      by rewrite Hkp, Hp.
Qed.

(** X5: registration and listing.  When the definitions [ps] have been
    registered in order, from the empty storage and without a failure,
    [all] returns exactly them, in that order; they are distinct; each
    of them is what [get] returns for its own identifier; and whatever
    [get] returns is one of them, whose identifier was asked or which
    declares the capability asked. *)
Theorem registered_are_listed_and_found (h : heap) (ps : list loc) (s : definitions) :
  addAll h empty ps = (s, Ret ()) →
  all s = Some <$> ps ∧ NoDup ps ∧
  (∀ p, p ∈ ps → ∃ d, h !! p = Some d ∧ get s (def_key d) = Ret p) ∧
  (∀ k p, get s k = Ret p →
     p ∈ ps ∧ ∃ d, h !! p = Some d ∧ (def_key d = k ∨ k ∈ def_implements d)).
Proof.
  intros Hall.
  destruct (addAll_listing _ _ _ _ coherent_empty Hall) as (Hg & Hl & ks & Hks & Hkp).
  destruct (StorageFacts.addAll_spec _ _ _ _ Hall) as (Hc & Hd & _ & Hin).
  pose proof (grows_coherent _ _ Hg coherent_empty) as (Hnd & Hdom & _ & _).
  simpl in Hl, Hks. subst.
  assert (Hbound : ∀ k p, defs s !! k = Some p → p ∈ ps ∧ def_key <$> h !! p = Some k).
  { intros k p Hk. destruct (Hd _ _ Hk) as [Hk'|Hk']; [|done].
    simpl in Hk'. by rewrite lookup_empty in Hk'. }
  assert (Hfound : ∀ p, p ∈ ps → ∃ d, h !! p = Some d ∧ defs s !! def_key d = Some p).
  { intros p Hp. assert (Some p ∈ all s) as Hp' by (rewrite Hl; by apply list_elem_of_fmap_2).
    unfold all in Hp'. apply list_elem_of_fmap in Hp' as (k & Hk & _). symmetry in Hk.
    destruct (Hbound _ _ Hk) as [_ Hkey].
    destruct (h !! p) as [d|]; [|done]. injection Hkey as <-. by exists d. }
  split_and!; try done.
  - apply (NoDup_fmap_2 Some) in Hnd. rewrite Hkp in Hnd.
    by apply NoDup_fmap_1 in Hnd.
  - intros p Hp. destruct (Hfound p Hp) as (d & Hd' & Hk). exists d. split; [done|].
    unfold get. by rewrite Hk.
  - intros k p Hget. unfold get in Hget. destruct (defs s !! k) as [q|] eqn:Hq.
    + injection Hget as ->. destruct (Hbound _ _ Hq) as [Hp Hkey]. split; [done|].
      destruct (h !! p) as [d|]; [|done]. injection Hkey as <-. exists d. by auto.
    + destruct (claimants s k) as [|q l] eqn:Hcl; [done|]. injection Hget as ->.
      assert (p ∈ claimants s k) as Hp by (rewrite Hcl; by left).
      rewrite Hc in Hp. unfold claimants in Hp at 1. simpl in Hp.
      rewrite lookup_empty in Hp. simpl in Hp.
      apply list_elem_of_bind in Hp as (q & Hq' & Hqs).
      apply elem_of_replicate in Hq' as [-> Hn]. split; [done|].
      unfold claims in Hn. destruct (h !! q) as [d|]; [|done]. exists d. split; [done|].
      right. destruct (filter (λ k', k' = k) (def_implements d)) as [|y l'] eqn:Hf; [done|].
      assert (y ∈ filter (λ k', k' = k) (def_implements d)) as Hy by (rewrite Hf; by left).
      apply list_elem_of_filter in Hy as [-> Hy]. done.
Qed.
End StorageGrowth.

(** ** The provider wrapper on what is not a function *)

(** X6: [newFuncProvider] does not check that its argument is a
    function: on nil and on a value of any other kind it panics, in
    [NumOut], instead of returning the provider-type error; on a
    function it never panics. *)
Theorem newFuncProvider_panics_iff_not_func (provider : any) (w : world) :
  (∃ m, newFuncProvider provider w = Done w (Panic m)) ↔
  Kind_ (ValueOf provider) ≠ Some KFunc.
Proof.
  destruct provider as [|t d].
  { split; [done|]. intros _. by eexists. }
  destruct t as [n vm pm|n ms|e|ins outs]; try (split; [done|intros _; by eexists]).
  split; [|done]. intros [m Hm]. exfalso. revert Hm.
  unfold newFuncProvider. cbn [TypeOf ValueOf mbind option_bind NumOut Type_].
  destruct outs as [|o [|o' [|o'' outs]]]; cbn [length].
  - by rewrite bool_decide_eq_true_2 by lia.
  - rewrite (bool_decide_eq_false_2 (1 ≤ 0)) by lia.
    rewrite (bool_decide_eq_false_2 (2 < 1)) by lia.
    rewrite (bool_decide_eq_false_2 (1 = 2)) by lia. done.
  - rewrite (bool_decide_eq_false_2 (2 ≤ 0)) by lia.
    rewrite (bool_decide_eq_false_2 (2 < 2)) by lia. cbn [orb].
    by destruct (bool_decide (2 = 2) && _).
  - rewrite (bool_decide_eq_false_2 (_ ≤ 0)) by lia.
    by rewrite bool_decide_eq_true_2 by lia.
Qed.

(** ** The calls that [apply] makes *)

Section ApplyCalls.
Variable code : nat → list callev → list Value → nat → data.

Lemma resolving_refl (s : Container * world) : resolving s s.
Proof. split; [done|]. exists []. split; [by rewrite app_nil_r|constructor]. Qed.

Lemma resolving_trans (s1 s2 s3 : Container * world) :
  resolving s1 s2 → resolving s2 s3 → resolving s1 s3.
Proof.
  intros [Hm1 (e1 & Hc1 & He1)] [Hm2 (e2 & Hc2 & He2)]. split; [congruence|].
  exists (e1 ++ e2). split; [by rewrite Hc2, Hc1, app_assoc|by apply Forall_app].
Qed.

Lemma initFinish_calls (p : loc) (d : definition) (result : list Value)
    (w2 w' : world) (R : outcome Value) :
  initFinish p d result w2 = Done w' R → w_calls w' = w_calls w2 ∧ w_mem w' = w_mem w2.
Proof.
  assert (Hupd : ∀ v, (update p (setInstance v) ;;; ret v) w2 = Done w' R →
                      w_calls w' = w_calls w2 ∧ w_mem w' = w_mem w2).
  { intros v. unfold bind. destruct (w_defs w2 !! p) as [d2|] eqn:Hp.
    - rewrite (update_live _ _ _ _ Hp). unfold ret. by intros [= <- _].
    - rewrite (update_dead _ _ _ Hp). by intros [= <- _]. }
  unfold initFinish. destruct result as [|v [|e [|x result]]]; try by intros [= <- _].
  - apply Hupd.
  - destruct (IsNil e); [apply Hupd|].
    unfold bind, getState. simpl.
    destruct (Interface (w_mem w2) e ≫= assertError); by intros [= <- _].
Qed.

(** Instantiation calls constructors only, and writes no variable of the
    caller. *)
Lemma init_resolving (fuel : nat) :
  ∀ p c w w' R, init code fuel p w = Done w' R → resolving (c, w) (c, w').
Proof.
  induction fuel as [|f IHf]; intros p c w w' R Hrun; [done|].
  rewrite init_S in Hrun.
  destruct (w_defs w !! p) as [d|] eqn:Hd.
  2:{ injection Hrun as <- <-. apply resolving_refl. }
  destruct (IsValid (def_instance d)) eqn:Hv.
  { injection Hrun as <- <-. apply resolving_refl. }
  destruct (collect (def_in d) (init code f) w) as [w1 R1|] eqn:Hc; [|done].
  assert (H1 : resolving (c, w) (c, w1)).
  { assert (Hcollect : ∀ l w0 w1 R1, collect l (init code f) w0 = Done w1 R1 →
              resolving (c, w0) (c, w1)).
    { clear -IHf. induction l as [|x l IHl]; intros w0 w1 R1 Hc.
      - injection Hc as <- <-. apply resolving_refl.
      - rewrite collect_cons in Hc.
        destruct (init code f x w0) as [wa Ra|] eqn:Hx; [|done].
        pose proof (IHf _ c _ _ _ Hx) as Ha.
        destruct Ra as [y|e|m]; try (by injection Hc as <- <-).
        destruct (collect l (init code f) wa) as [wb Rb|] eqn:Hl; [|done].
        pose proof (IHl _ _ _ Hl) as Hb.
        assert (w1 = wb) as -> by (destruct Rb; congruence).
        by eapply resolving_trans. }
    by eapply Hcollect. }
  destruct R1 as [values|e|m]; try (by injection Hrun as <- <-).
  destruct (Call_spec code (Some p) (pw_providerValue (p_wrapper (def_provider d))) values w1)
    as (w2 & R2 & HCall & HR2).
  rewrite HCall in Hrun.
  assert (H2 : resolving (c, w) (c, w2)).
  { eapply resolving_trans; [exact H1|].
    destruct R2 as [res|e|m]; try (subst w2; apply resolving_refl).
    destruct HR2 as (fn & ins & outs & _ & -> & _). split; [done|]. simpl.
    eexists. split; [done|]. constructor; [by eexists|constructor]. }
  destruct R2 as [res|e|m]; try (by injection Hrun as <- <-).
  destruct (initFinish_calls _ _ _ _ _ _ Hrun) as [Hc3 Hm3].
  destruct H2 as [Hm2 (evs & Hevs & Htag)]. simpl in *. split; simpl; [congruence|].
  exists evs. split; [congruence|done].
Qed.

Lemma resolveArg_unfold (fuel : nat) (t : rtype) (c : Container) (w : world) :
  resolveArg code fuel t (c, w) =
  match Storage.get (storage c) (keyOf t) with
  | Ret def =>
      match init code fuel def w with
      | Done w1 (Ret v) => Done (c, w1) (Ret v)
      | Done w1 (Fail e) => Done (c, w1) (Fail (EWrapf e "%s" (FDef def)))
      | Done w1 (Panic m) => Done (c, w1) (Panic m)
      | Diverge => Diverge
      end
  | Fail e => Done (c, w) (Fail (EWithStack e))
  | Panic m => Done (c, w) (Panic m)
  end.
Proof.
  unfold resolveArg.
  unfold bind at 1, orWrap at 1, storageGet, bind at 1, theContainer, lift. simpl.
  destruct (Storage.get (storage c) (keyOf t)) as [def|e|m]; try done.
  unfold orWrap, liftW. simpl.
  by destruct (init code fuel def w) as [w1 [v|e|m]|].
Qed.

Lemma resolveArg_resolving (fuel : nat) (t : rtype) (s s' : Container * world)
    (R : outcome Value) :
  resolveArg code fuel t s = Done s' R → resolving s s'.
Proof.
  destruct s as [c w]. rewrite resolveArg_unfold.
  destruct (Storage.get (storage c) (keyOf t)) as [def|e|m].
  2,3: intros [= <- <-]; apply resolving_refl.
  destruct (init code fuel def w) as [w1 R1|] eqn:Hinit; [|done].
  pose proof (init_resolving _ _ c _ _ _ Hinit) as Hr.
  destruct R1; by intros [= <- <-].
Qed.

Lemma resolveArg_error (fuel : nat) (t : rtype) (s s' : Container * world) (e : error) :
  resolveArg code fuel t s = Done s' (Fail e) → argumentError e.
Proof.
  destruct s as [c w]. rewrite resolveArg_unfold.
  destruct (get_cases (storage c) (keyOf t)) as [(r & -> & _)|[-> _]].
  2:{ intros [= <- <-]. left. by eexists. }
  destruct (init code fuel r w) as [w1 [v|e1|m]|]; try done.
  intros [= <- <-]. right. by eexists _, _.
Qed.

(** What the resolution of an argument returns is the instance that the
    resolved definition holds. *)
Lemma resolveArg_cached (fuel : nat) (t : rtype) (s s' : Container * world) (v : Value) :
  resolveArg code fuel t s = Done s' (Ret v) →
  ∃ def, Storage.get (storage s.1) (keyOf t) = Ret def ∧ cached (w_defs s'.2) def v.
Proof.
  destruct s as [c w]. rewrite resolveArg_unfold. simpl.
  destruct (Storage.get (storage c) (keyOf t)) as [def|e|m]; try done.
  destruct (init code fuel def w) as [w1 [v1|e|m]|] eqn:Hinit; try done.
  intros [= <- <-]. exists def. split; [done|].
  destruct (init_evolves code _ _ _ _ _ Hinit) as (_ & _ & Hc). by apply Hc.
Qed.

Lemma collect_length {S A B} (body : A → M S B) (l : list A) :
  ∀ s s' ys, collect l body s = Done s' (Ret ys) → length ys = length l.
Proof.
  induction l as [|x l IH]; intros s s' ys Hrun.
  - by injection Hrun as _ <-.
  - rewrite collect_cons in Hrun.
    destruct (body x s) as [s1 [y|e|m]|]; try done.
    destruct (collect l body s1) as [s2 [ys'|e|m]|] eqn:Hl; try done.
    injection Hrun as _ <-. simpl. f_equal. by eapply IH.
Qed.

(** The arguments that the loop of [apply] collects. *)
Lemma collect_instances (fuel : nat) (ins : list rtype) :
  ∀ s s1 args, collect ins (resolveArg code fuel) s = Done s1 (Ret args) →
    Forall2 (λ t v, ∃ def, Storage.get (storage s.1) (keyOf t) = Ret def ∧
                           cached (w_defs s1.2) def v) ins args.
Proof.
  induction ins as [|t ins IH]; intros s s1 args Hrun.
  - injection Hrun as _ <-. constructor.
  - rewrite collect_cons in Hrun.
    destruct (resolveArg code fuel t s) as [sa [v|e|m]|] eqn:Ht; try done.
    destruct (collect ins (resolveArg code fuel) sa) as [sb [vs|e|m]|] eqn:Hl; try done.
    injection Hrun as <- <-.
    destruct (resolveArg_cached _ _ _ _ _ Ht) as (def & Hget & Hc).
    pose proof (resolveArg_serves code _ _ _ _ _ Ht) as [Hsa _].
    assert (Hrest : serves sa sb).
    { eapply (collect_preserves serves); [apply serves_refl|apply serves_trans| |exact Hl].
      intros. by eapply resolveArg_serves. }
    constructor.
    + exists def. split; [done|]. destruct Hrest as [_ He]. by eapply evolves_cached.
    + specialize (IH _ _ _ Hl). rewrite Hsa in IH. exact IH.
Qed.

Lemma collect_resolving (fuel : nat) (ins : list rtype) (s s1 : Container * world)
    (R : outcome (list Value)) :
  collect ins (resolveArg code fuel) s = Done s1 R → s1.1 = s.1 ∧ resolving s s1.
Proof.
  intros Hrun. split.
  - assert (serves s s1) as [? _]; [|done].
    eapply (collect_preserves serves); [apply serves_refl|apply serves_trans| |exact Hrun].
    intros. by eapply resolveArg_serves.
  - eapply (collect_preserves resolving); [apply resolving_refl|apply resolving_trans| |exact Hrun].
    intros. by eapply resolveArg_resolving.
Qed.

(** [apply] on a function: the checks of the signature, the resolution
    of the arguments, the call and the result. *)
Lemma apply_func (fuel : nat) (ins outs : list rtype) (d : data) (s : Container * world) :
  apply code fuel {| mo_modifier := box (TFunc ins outs) d |} s =
  if bool_decide (1 < length outs) then
    Done s (Fail (EWithStack errIncorrectModifierSignature))
  else if bool_decide (length outs = 1) &&
          negb (outImplements (Some (TFunc ins outs)) 0 errorInterface) then
    Done s (Fail (EWithStack errIncorrectModifierSignature))
  else
    match collect ins (resolveArg code fuel) s with
    | Done s1 (Ret args) =>
        match Call code None (VVal (TFunc ins outs) d) args s1.2 with
        | Done w2 (Ret result) =>
            match result with
            | [r] =>
                match Interface (w_mem w2) r ≫= assertError with
                | Some e => Done (s1.1, w2) (Fail (EWrap e "apply error"))
                | None => Done (s1.1, w2)
                            (Panic "interface conversion: interface is nil, not error")
                end
            | _ => Done (s1.1, w2) (Ret ())
            end
        | Done w2 (Fail e) => Done (s1.1, w2) (Fail e)
        | Done w2 (Panic m) => Done (s1.1, w2) (Panic m)
        | Diverge => Diverge
        end
    | Done s1 (Fail e) => Done s1 (Fail e)
    | Done s1 (Panic m) => Done s1 (Panic m)
    | Diverge => Diverge
    end.
Proof.
  unfold apply. cbn [mo_modifier ValueOf Type_].
  rewrite bool_decide_eq_false_2 by done.
  case_bool_decide; [done|].
  destruct (bool_decide (length outs = 1) &&
            negb (outImplements (Some (TFunc ins outs)) 0 errorInterface)); [done|].
  fold (resolveArg code fuel). unfold bind at 1.
  destruct (collect ins (resolveArg code fuel) s) as [[c1 w1] [args|e|m]|]; try done.
  unfold bind at 1, liftW at 1. cbn [fst snd].
  destruct (Call code None (VVal (TFunc ins outs) d) args w1) as [w2 [res|e|m]|]; try done.
  destruct res as [|r [|r' res]]; try done.
  unfold bind, theWorld. cbn [fst snd].
  by destruct (Interface (w_mem w2) r ≫= assertError).
Qed.

(** [apply] on what is not a function. *)
Lemma apply_not_func (fuel : nat) (mo : modifierOptions) (s : Container * world) :
  (∀ ins outs d, mo_modifier mo ≠ box (TFunc ins outs) d) →
  apply code fuel mo s =
  Done s (Fail (if bool_decide (mo_modifier mo = nil) then ENew "nil modifier"
                else EWithStack errIncorrectModifierSignature)).
Proof.
  intros Hnf. unfold apply. case_bool_decide; [done|].
  destruct (mo_modifier mo) as [|t d]; [done|].
  destruct t as [| | |ins outs]; try done. by destruct (Hnf ins outs d).
Qed.

(** X7: the checks of [apply].  A nil modifier is refused with the error
    of its own; [apply] fails with the modifier-signature error exactly
    when the modifier is not nil and is not a function, or is a function
    with more than one output or with one output that is not an error;
    and it then leaves the container and the world as they are: nothing
    is resolved and nothing is called. *)
Theorem apply_signature_check (fuel : nat) (mo : modifierOptions) (s : Container * world) :
  (mo_modifier mo = nil → apply code fuel mo s = Done s (Fail (ENew "nil modifier"))) ∧
  (∀ s', apply code fuel mo s = Done s' (Fail (EWithStack errIncorrectModifierSignature)) ↔
     s' = s ∧ mo_modifier mo ≠ nil ∧
     ∀ ins outs d, mo_modifier mo = box (TFunc ins outs) d →
       1 < length outs ∨ ∃ t, outs = [t] ∧ Implements t errorInterface = false).
Proof.
  split.
  { intros Hnil. rewrite apply_not_func by (by rewrite Hnil).
    by rewrite bool_decide_eq_true_2. }
  intros s'.
  assert (Hcase : (∃ ins outs d, mo_modifier mo = box (TFunc ins outs) d) ∨
                  (∀ ins outs d, mo_modifier mo ≠ box (TFunc ins outs) d)).
  { destruct (mo_modifier mo) as [|[| | |ins outs] d]; try (by right).
    left. by eexists _, _, _. }
  destruct Hcase as [(ins & outs & d & Hmo)|Hnf].
  - destruct mo as [m]. simpl in Hmo. subst m. rewrite apply_func. cbn [mo_modifier].
    case_bool_decide as Hlen.
    { split.
      - intros [= <-]. split_and!; try done. intros ? ? ? [= <- <- <-]. by left.
      - by intros [-> _]. }
    destruct outs as [|t [|t' outs]]; [| |simpl in Hlen; lia].
    + cbn [length andb]. rewrite (bool_decide_eq_false_2 (0 = 1)) by lia. cbn [andb].
      split.
      * intros Hrun. exfalso.
        destruct (collect ins (resolveArg code fuel) s) as [s1 [args|e|m]|] eqn:Hc; try done.
        -- destruct (Call code None (VVal (TFunc ins []) d) args s1.2)
             as [w2 [res|e|m]|] eqn:HCall; try done.
           ++ destruct (Call_spec code None (VVal (TFunc ins []) d) args s1.2)
                as (w2' & R2 & HCall' & HR2).
              rewrite HCall in HCall'. injection HCall' as <- <-.
              destruct HR2 as (f & ins' & outs' & [= <- <- ->] & _ & ->). done.
           ++ by destruct (Call_no_fail code _ _ _ _ _ _ HCall).
        -- injection Hrun as <- ->.
           assert (argumentError (EWithStack errIncorrectModifierSignature)) as [[k Hk]|(e0 & def & He)];
             [|done|done].
           eapply (collect_fail argumentError); [|exact Hc].
           intros. by eapply resolveArg_error.
      * intros (_ & _ & H). destruct (H ins [] d eq_refl) as [Hl|(t & Ht & _)];
          [simpl in Hl; lia|done].
    + cbn [length]. rewrite bool_decide_eq_true_2 by done. cbn [andb].
      unfold outImplements. cbn [mbind option_bind Out lookup list_lookup].
      destruct (Implements t errorInterface) eqn:Himp; cbn [negb].
      * split.
        -- intros Hrun. exfalso.
           destruct (collect ins (resolveArg code fuel) s) as [s1 [args|e|m]|] eqn:Hc; try done.
           ++ destruct (Call code None (VVal (TFunc ins [t]) d) args s1.2)
                as [w2 [res|e|m]|] eqn:HCall; try done.
              ** destruct res as [|r [|r' res]]; try done.
                 by destruct (Interface (w_mem w2) r ≫= assertError).
              ** by destruct (Call_no_fail code _ _ _ _ _ _ HCall).
           ++ injection Hrun as <- ->.
              assert (argumentError (EWithStack errIncorrectModifierSignature))
                as [[k Hk]|(e0 & def & He)]; [|done|done].
              eapply (collect_fail argumentError); [|exact Hc].
              intros. by eapply resolveArg_error.
        -- intros (_ & _ & H). destruct (H ins [t] d eq_refl) as [Hl|(t0 & [= <-] & Ht)];
             [simpl in Hl; lia|congruence].
      * split.
        -- intros [= <-]. split_and!; try done. intros ? ? ? [= <- <- <-]. right. by exists t.
        -- by intros [-> _].
  - rewrite apply_not_func by done.
    case_bool_decide as Hnil.
    + split; [done|]. by intros (_ & ? & _).
    + split.
      * intros [= <-]. split_and!; try done. intros ins outs d Hmo.
        by destruct (Hnf ins outs d).
      * by intros [-> _].
Qed.
(** A run of [apply], as a whole: either the modifier is not called,
    and the run ends otherwise than by success or by the failure of the
    modifier; or the call of the modifier is the last one, with the
    instances of the resolved definitions, and the outcome is read off
    what the modifier returned. *)
Lemma apply_trace (fuel : nat) (mo : modifierOptions) (s s' : Container * world)
    (R : outcome unit) :
  apply code fuel mo s = Done s' R →
  s'.1 = s.1 ∧ w_mem s'.2 = w_mem s.2 ∧ w_defs_frame s s' ∧
  ∃ evs, w_calls s'.2 = w_calls s.2 ++ evs ∧
    ((constructorCalls evs ∧ R ≠ Ret () ∧ ∀ e, R ≠ Fail (EWrap e "apply error")) ∨
     (∃ evs0 f ins outs args,
        mo_modifier mo = box (TFunc ins outs) (DFunc (Some f)) ∧
        evs = evs0 ++ [modifierCall f args] ∧ constructorCalls evs0 ∧
        Forall2 (λ t v, ∃ def, Storage.get (storage s.1) (keyOf t) = Ret def ∧
                               cached (w_defs s'.2) def v) ins args ∧
        modifierOutcome outs (code f (w_calls s.2 ++ evs0) args 0) R)).
Proof.
  assert (Hquiet : ∀ s0 R0, R0 ≠ Ret () → (∀ e, R0 ≠ Fail (EWrap e "apply error")) →
            s0.1 = s.1 → resolving s s0 → serves s s0 →
            s0.1 = s.1 ∧ w_mem s0.2 = w_mem s.2 ∧ w_defs_frame s s0 ∧
            ∃ evs, w_calls s0.2 = w_calls s.2 ++ evs ∧
              ((constructorCalls evs ∧ R0 ≠ Ret () ∧ ∀ e, R0 ≠ Fail (EWrap e "apply error")) ∨
               (∃ evs0 f ins outs args,
                  mo_modifier mo = box (TFunc ins outs) (DFunc (Some f)) ∧
                  evs = evs0 ++ [modifierCall f args] ∧ constructorCalls evs0 ∧
                  Forall2 (λ t v, ∃ def, Storage.get (storage s.1) (keyOf t) = Ret def ∧
                                         cached (w_defs s0.2) def v) ins args ∧
                  modifierOutcome outs (code f (w_calls s.2 ++ evs0) args 0) R0))).
  { intros s0 R0 H1 H2 Hc [Hm (evs & Hevs & Htag)] [_ [Hev _]].
    do 3 (split; [done|]). exists evs. split; [done|]. by left. }
  assert (Hcase : (∃ ins outs d, mo_modifier mo = box (TFunc ins outs) d) ∨
                  (∀ ins outs d, mo_modifier mo ≠ box (TFunc ins outs) d)).
  { destruct (mo_modifier mo) as [|[| | |ins outs] d]; try (by right).
    left. by eexists _, _, _. }
  destruct Hcase as [(ins & outs & d & Hmo)|Hnf].
  2:{ rewrite apply_not_func by done. intros [= <- <-].
      apply Hquiet; [done| |done|apply resolving_refl|apply serves_refl].
      intros e. by case_bool_decide. }
  destruct mo as [m]. simpl in Hmo. subst m. rewrite apply_func. cbn [mo_modifier].
  case_bool_decide as Hlen.
  { intros [= <- <-]. apply Hquiet; [done|done|done|apply resolving_refl|apply serves_refl]. }
  destruct (bool_decide (length outs = 1) &&
            negb (outImplements (Some (TFunc ins outs)) 0 errorInterface)) eqn:Hsig.
  { intros [= <- <-]. apply Hquiet; [done|done|done|apply resolving_refl|apply serves_refl]. }
  destruct (collect ins (resolveArg code fuel) s) as [s1 R1|] eqn:Hc; [|done].
  destruct (collect_resolving _ _ _ _ _ Hc) as [Hc1 Hr1].
  assert (Hs1 : serves s s1).
  { eapply (collect_preserves serves); [apply serves_refl|apply serves_trans| |exact Hc].
    intros. by eapply resolveArg_serves. }
  destruct R1 as [args|e|m].
  2:{ intros [= <- <-]. apply Hquiet; try done. intros e0 [= ->].
      assert (argumentError (EWrap e0 "apply error")) as [[k Hk]|(e1 & def & He)];
        [|done|done].
      eapply (collect_fail argumentError); [|exact Hc].
      intros. by eapply resolveArg_error. }
  2:{ intros [= <- <-]. by apply Hquiet. }
  destruct (Call_spec code None (VVal (TFunc ins outs) d) args s1.2)
    as (w2 & R2 & HCall & HR2).
  rewrite HCall. destruct R2 as [res|e|m].
  2:{ by destruct (Call_no_fail code _ _ _ _ _ _ HCall). }
  2:{ subst w2. intros [= <- <-]. destruct s1 as [c1 w1]. by apply Hquiet. }
  destruct HR2 as (f & ins' & outs' & [= <- <- ->] & -> & ->).
  destruct Hr1 as [Hm1 (evs1 & Hevs1 & Htag1)].
  pose proof (collect_instances _ _ _ _ _ Hc) as Hinst.
  assert (Hend : ∀ R0, modifierOutcome outs (code f (w_calls s1.2) args 0) R0 →
    (s1.1, setCalls s1.2 (w_calls s1.2 ++ [{| ce_def := None; ce_fn := f; ce_args := args |}])).1
      = s.1 ∧
    w_mem (setCalls s1.2 (w_calls s1.2 ++ [{| ce_def := None; ce_fn := f; ce_args := args |}]))
      = w_mem s.2 ∧
    w_defs_frame s
      (s1.1, setCalls s1.2 (w_calls s1.2 ++ [{| ce_def := None; ce_fn := f; ce_args := args |}])) ∧
    ∃ evs, w_calls (setCalls s1.2 (w_calls s1.2 ++
                      [{| ce_def := None; ce_fn := f; ce_args := args |}]))
           = w_calls s.2 ++ evs ∧
      ((constructorCalls evs ∧ R0 ≠ Ret () ∧ ∀ e, R0 ≠ Fail (EWrap e "apply error")) ∨
       (∃ evs0 f0 ins0 outs0 args0,
          box (TFunc ins outs) (DFunc (Some f)) = box (TFunc ins0 outs0) (DFunc (Some f0)) ∧
          evs = evs0 ++ [modifierCall f0 args0] ∧ constructorCalls evs0 ∧
          Forall2 (λ t v, ∃ def, Storage.get (storage s.1) (keyOf t) = Ret def ∧
                                 cached (w_defs s1.2) def v) ins0 args0 ∧
          modifierOutcome outs0 (code f0 (w_calls s.2 ++ evs0) args0 0) R0))).
  { intros R0 HR0. split_and!; try done.
    - destruct Hs1 as [_ [Hh _]]. exact Hh.
    - exists (evs1 ++ [modifierCall f args]). simpl. split; [by rewrite Hevs1, app_assoc|].
      right. exists evs1, f, ins, outs, args. split_and!; try done. by rewrite <- Hevs1. }
  destruct outs as [|t [|t' outs]]; cbn [imap].
  - intros [= <- <-]. apply Hend. by left.
  - cbn [Interface mbind option_bind setCalls w_mem].
    destruct (assertError (boxed t (code f (w_calls s1.2) args 0))) as [e|] eqn:Ha.
    + intros [= <- <-]. apply Hend. right. left. by exists t, e.
    + intros [= <- <-]. apply Hend. right. right. by exists t.
  - simpl in Hlen. lia.
Qed.
(** The frame of a run of [apply]. *)
Lemma apply_calls_modifier_frame (fuel : nat) (mo : modifierOptions)
    (s s' : Container * world) (R : outcome unit) :
  apply code fuel mo s = Done s' R →
  s'.1 = s.1 ∧ w_mem s'.2 = w_mem s.2 ∧ ∃ evs, w_calls s'.2 = w_calls s.2 ++ evs.
Proof.
  intros Hrun. destruct (apply_trace _ _ _ _ _ Hrun) as (Hc & Hm & _ & evs & Hevs & _).
  split_and!; try done. by exists evs.
Qed.


(** X9: the arguments of the modifier.  When [apply] has called the
    modifier, the arguments of the call are, input by input, the
    instances held by the definitions that the storage resolves the
    types of the inputs to. *)
Theorem apply_passes_instances (fuel : nat) (mo : modifierOptions)
    (s s' : Container * world) (R : outcome unit)
    (evs : list callev) (f : nat) (args : list Value) :
  apply code fuel mo s = Done s' R →
  w_calls s'.2 = w_calls s.2 ++ evs ++ [modifierCall f args] →
  ∃ ins outs, mo_modifier mo = box (TFunc ins outs) (DFunc (Some f)) ∧
    Forall2 (λ t v, ∃ def, Storage.get (storage s.1) (keyOf t) = Ret def ∧
                           cached (w_defs s'.2) def v) ins args.
Proof.
  intros Hrun Hlog.
  destruct (apply_trace _ _ _ _ _ Hrun) as (_ & _ & _ & evs' & Hevs & H).
  rewrite Hevs in Hlog. apply app_inv_head in Hlog. subst evs'.
  destruct H as [[Htag _]|(evs0 & f0 & ins & outs & args0 & Hmo & Heq & _ & Hinst & _)].
  - apply Forall_app in Htag as [_ Htag]. apply Forall_cons_1 in Htag as [[x Hx] _]. done.
  - apply app_inj_tail in Heq as [_ [= -> ->]]. by exists ins, outs.
Qed.

(** X10: the outcome of [apply] after the call.  When [apply] has called
    the modifier, its outcome is read off the outputs of the modifier:
    success when it has none; with one output, the failure that wraps
    the error that the call returned, and a panic when the call returned
    the nil error. *)
Theorem apply_outcome_after_call (fuel : nat) (mo : modifierOptions)
    (s s' : Container * world) (R : outcome unit)
    (evs : list callev) (f : nat) (args : list Value) :
  apply code fuel mo s = Done s' R →
  w_calls s'.2 = w_calls s.2 ++ evs ++ [modifierCall f args] →
  ∃ ins outs, mo_modifier mo = box (TFunc ins outs) (DFunc (Some f)) ∧
    ((outs = [] ∧ R = Ret ()) ∨
     (∃ t e, outs = [t] ∧ Implements t errorInterface = true ∧
             assertError (boxed t (code f (w_calls s.2 ++ evs) args 0)) = Some e ∧
             R = Fail (EWrap e "apply error")) ∨
     (∃ t, outs = [t] ∧ Implements t errorInterface = true ∧
           assertError (boxed t (code f (w_calls s.2 ++ evs) args 0)) = None ∧
           R = Panic "interface conversion: interface is nil, not error")).
Proof.
  intros Hrun Hlog.
  destruct (apply_trace _ _ _ _ _ Hrun) as (_ & _ & _ & evs' & Hevs & H).
  rewrite Hevs in Hlog. apply app_inv_head in Hlog. subst evs'.
  destruct H as [[Htag _]|(evs0 & f0 & ins & outs & args0 & Hmo & Heq & _ & _ & Hout)].
  { apply Forall_app in Htag as [_ Htag]. apply Forall_cons_1 in Htag as [[x Hx] _]. done. }
  apply app_inj_tail in Heq as [-> [= -> ->]]. exists ins, outs. split; [done|].
  assert (Himp : ∀ t, outs = [t] → Implements t errorInterface = true).
  { intros t ->. destruct mo as [m]. simpl in Hmo. subst m.
    rewrite apply_func in Hrun. cbn [length] in Hrun.
    rewrite (bool_decide_eq_false_2 (1 < 1)) in Hrun by lia.
    rewrite bool_decide_eq_true_2 in Hrun by done. cbn [andb] in Hrun.
    unfold outImplements in Hrun. cbn [mbind option_bind Out lookup list_lookup] in Hrun.
    destruct (Implements t errorInterface); [done|]. cbn [negb] in Hrun.
    injection Hrun as <- <-.
    rewrite <- (app_nil_r (w_calls s.2)) in Hevs at 1.
    apply app_inv_head in Hevs. by destruct evs0. }
  destruct Hout as [?|[(t & e & -> & Ha & ->)|(t & -> & Ha & ->)]]; [by left|right..].
  - left. exists t, e. split_and!; try done. by apply Himp.
  - right. exists t. split_and!; try done. by apply Himp.
Qed.
(** X15: a nil function is not the nil modifier.  A modifier that is a
    nil value of a function type passes the nil check of [apply]: it is
    not refused with the nil-modifier error; its signature is checked
    and its arguments are resolved, and then the call panics.  So the
    run never succeeds and never calls a modifier: it fails with the
    signature error or with the error of an argument, or it panics. *)
Theorem apply_typed_nil_function (fuel : nat) (ins outs : list rtype)
    (s s' : Container * world) (R : outcome unit) :
  apply code fuel {| mo_modifier := box (TFunc ins outs) (DFunc None) |} s = Done s' R →
  match R with
  | Ret _ => False
  | Fail e => e = EWithStack errIncorrectModifierSignature ∨ argumentError e
  | Panic _ => True
  end ∧
  ∃ evs, w_calls s'.2 = w_calls s.2 ++ evs ∧ constructorCalls evs.
Proof.
  intros Hrun. split.
  - revert Hrun. rewrite apply_func.
    case_bool_decide; [intros [= _ <-]; by left|].
    destruct (bool_decide (length outs = 1) &&
              negb (outImplements (Some (TFunc ins outs)) 0 errorInterface));
      [intros [= _ <-]; by left|].
    destruct (collect ins (resolveArg code fuel) s) as [s1 [args|e|m]|] eqn:Hc; try done.
    + unfold Call. by intros [= _ <-].
    + intros [= _ <-]. right. eapply (collect_fail argumentError); [|exact Hc].
      intros. by eapply resolveArg_error.
    + by intros [= _ <-].
  - destruct (apply_trace _ _ _ _ _ Hrun) as (_ & _ & _ & evs & Hevs & H).
    exists evs. split; [done|].
    by destruct H as [[Htag _]|(evs0 & f & ins0 & outs0 & args & Hmo & _)].
Qed.
End ApplyCalls.

(** ** The edges that the wiring adds *)

Lemma insOf_outsOf_count (E : list (loc * loc)) (p r : loc) :
  length (filter (λ y, y = r) (insOf E p)) = length (filter (λ y, y = p) (outsOf E r)).
Proof.
  induction E as [|[a b] E IH]; [done|].
  change ((a, b) :: E) with ([(a, b)] ++ E).
  rewrite insOf_app, outsOf_app, !filter_app, !length_app, IH. f_equal.
  unfold insOf, outsOf. simpl.
  destruct (decide (a = p)) as [->|Hap], (decide (b = r)) as [->|Hbr]; simpl;
    rewrite ?filter_cons, ?decide_True, ?decide_False by done; done.
Qed.

(** X16: the wiring adds balanced edges and nothing else.  A successful
    wiring leaves the container, the variables of the caller and the log
    of calls as they are, allocates and frees no definition, and changes
    the edge lists of the definitions only, by appending to them; and
    what it appends to the incoming list of a definition [p] holds a
    definition [r] as many times as what it appends to the outgoing
    list of [r] holds [p]. *)
Theorem connect_edges_balanced (c : Container) (w : world) (s' : Container * world) :
  connectDefinitions (c, w) = Done s' (Ret ()) →
  s'.1 = c ∧ w_mem s'.2 = w_mem w ∧ w_calls s'.2 = w_calls w ∧
  (∀ x, is_Some (w_defs s'.2 !! x) ↔ is_Some (w_defs w !! x)) ∧
  ∃ added_in added_out : loc → list loc,
    (∀ x d', w_defs s'.2 !! x = Some d' →
       ∃ d, w_defs w !! x = Some d ∧
            d' = setOut (def_out d ++ added_out x) (setIn (def_in d ++ added_in x) d)) ∧
    (∀ p r, length (filter (λ y, y = r) (added_in p))
            = length (filter (λ y, y = p) (added_out r))).
Proof.
  rewrite connectDefinitions_unfold. intros Hrun.
  destruct (connect_loop c (Storage.all (storage c)) w) as (w1 & R1 & Hrun' & Hm & Hc & HR).
  rewrite Hrun in Hrun'. injection Hrun' as -> <-. simpl.
  destruct HR as (ps & E & _ & _ & Hw). split_and!; try done.
  - intros x. by apply (wired_live _ _ _ x Hw).
  - exists (insOf E), (outsOf E). split.
    + intros x d' Hx. rewrite (Hw x) in Hx. destruct (w_defs w !! x) as [d|]; [|done].
      injection Hx as <-. by exists d.
    + intros p r. apply insOf_outsOf_count.
Qed.

(** ** What compilation and [Populate] leave alone *)

Lemma quiet_refl (s : Container * world) : quiet s s.
Proof. done. Qed.

Lemma quiet_trans (s1 s2 s3 : Container * world) : quiet s1 s2 → quiet s2 s3 → quiet s1 s3.
Proof. intros [? ?] [? ?]. split; congruence. Qed.

Lemma update_quiet (p : loc) (f : definition → definition) (w w' : world) (R : outcome unit) :
  update p f w = Done w' R → w_mem w' = w_mem w ∧ w_calls w' = w_calls w.
Proof.
  destruct (w_defs w !! p) as [d|] eqn:Hp.
  - rewrite (update_live _ _ _ _ Hp). by intros [= <- _].
  - rewrite (update_dead _ _ _ Hp). by intros [= <- _].
Qed.

(** The traversal calls nothing and writes no variable of the caller. *)
Lemma visit_quiet (fuel : nat) :
  ∀ p w w' R, visit fuel p w = Done w' R → w_mem w' = w_mem w ∧ w_calls w' = w_calls w.
Proof.
  induction fuel as [|f IH]; intros p w w' R Hrun; [done|].
  rewrite visit_S in Hrun.
  destruct (w_defs w !! p) as [d|]; [|by injection Hrun as <- _].
  destruct (def_visited d); try (by injection Hrun as <- _).
  destruct (forEach (def_out d) (visit f) _) as [w2 R2|] eqn:Hl; [|done].
  assert (H2 : w_mem w2 = w_mem w ∧ w_calls w2 = w_calls w).
  { apply (forEach_preserves (λ a b : world, w_mem b = w_mem a ∧ w_calls b = w_calls a)
             (visit f) (def_out d)) in Hl; [done|done| |].
    - intros ? ? ? [? ?] [? ?]. split; congruence.
    - intros x s s' R0. apply IH. }
  destruct R2 as [[]|e|m]; try (by injection Hrun as <- _).
  apply update_quiet in Hrun. destruct Hrun, H2. split; congruence.
Qed.

Lemma registerProviders_quiet (s s' : Container * world) (R : outcome unit) :
  registerProviders s = Done s' R → quiet s s' ∧ sameOptions s.1 s'.1.
Proof.
  destruct s as [c w]. rewrite registerProviders_unfold. intros Hrun.
  destruct (register_loop (providers c) c w) as (c1 & w1 & R1 & Hrun' & Hm & Hc & Ho & _).
  rewrite Hrun in Hrun'. injection Hrun' as -> _. by split.
Qed.

Lemma connectDefinitions_quiet (s s' : Container * world) (R : outcome unit) :
  connectDefinitions s = Done s' R → quiet s s' ∧ s'.1 = s.1.
Proof.
  destruct s as [c w]. rewrite connectDefinitions_unfold. intros Hrun.
  destruct (connect_loop c (Storage.all (storage c)) w) as (w1 & R1 & Hrun' & Hm & Hc & _).
  rewrite Hrun in Hrun'. injection Hrun' as -> _. by split.
Qed.

Lemma verifyCycles_quiet (fuel : nat) (s s' : Container * world) (R : outcome unit) :
  verifyCycles fuel s = Done s' R → quiet s s' ∧ s'.1 = s.1.
Proof.
  destruct s as [c w]. rewrite verifyCycles_unfold.
  apply (forEach_preserves (λ a b : Container * world, quiet a b ∧ b.1 = a.1)).
  - done.
  - intros s1 s2 s3 [H1 E1] [H2 E2]. split; [by eapply quiet_trans|congruence].
  - clear. intros n [c w] s' R. unfold verifyBody, bind, liftW, derefOpt. simpl.
    destruct n as [n|]; [|by intros [= <- _]]. unfold deref.
    destruct (w_defs w !! n) as [d|]; [|by intros [= <- _]].
    case_bool_decide; [|by intros [= <- _]]. unfold orWrap. simpl.
    destruct (visit fuel n w) as [w1 R1|] eqn:Hv; [|done].
    apply visit_quiet in Hv.
    destruct R1; by intros [= <- _].
Qed.

Section CompileFrame.
Variable code : nat → list callev → list Value → nat → data.
Variable ProvideOption : Type.

Lemma compiling_refl (s : Container * world) : compiling s s.
Proof. split_and!; try done. exists []. by rewrite app_nil_r. Qed.

Lemma compiling_trans (s1 s2 s3 : Container * world) :
  compiling s1 s2 → compiling s2 s3 → compiling s1 s3.
Proof.
  intros (Ho1 & Hm1 & e1 & Hc1) (Ho2 & Hm2 & e2 & Hc2).
  split_and!; [by eapply sameOptions_trans|congruence|].
  exists (e1 ++ e2). by rewrite Hc2, Hc1, app_assoc.
Qed.

Lemma quiet_compiling (s s' : Container * world) :
  quiet s s' → sameOptions s.1 s'.1 → compiling s s'.
Proof.
  intros [Hm Hc] Ho. split_and!; try done. exists []. by rewrite app_nil_r.
Qed.

Lemma applyModifiers_compiling (fuel : nat) (s s' : Container * world) (R : outcome unit) :
  applyModifiers code fuel s = Done s' R →
  compiling s s' ∧ s'.1 = s.1 ∧ (modifiers s.1 = [] → s' = s).
Proof.
  destruct s as [c w]. unfold applyModifiers, bind, theContainer. simpl. intros Hrun.
  split_and!.
  - eapply (forEach_preserves compiling); [apply compiling_refl|apply compiling_trans| |exact Hrun].
    intros mo s1 s2 R0 Happ.
    destruct (apply_calls_modifier_frame code _ _ _ _ _ Happ) as (Hc & Hm & evs & Hevs).
    split_and!; [by rewrite Hc|done|by exists evs].
  - eapply (forEach_preserves (λ a b : Container * world, b.1 = a.1)
              (apply code fuel) (modifiers c)) in Hrun; [done|done|congruence|].
    intros mo s1 s2 R0 Happ.
    by destruct (apply_calls_modifier_frame code _ _ _ _ _ Happ) as (Hc & _).
  - intros Hnil. rewrite Hnil in Hrun. by injection Hrun as <- _.
Qed.

(** A compilation, stage by stage. *)
Lemma compile_frame (fuel : nat) (s s' : Container * world) (R : outcome unit) :
  compile code fuel s = Done s' R →
  compiling s s' ∧ (modifiers s.1 = [] → w_calls s'.2 = w_calls s.2).
Proof.
  unfold compile. unfold bind at 1.
  destruct (registerProviders s) as [s1 R1|] eqn:H1; [|done].
  destruct (registerProviders_quiet _ _ _ H1) as [Hq1 Ho1].
  assert (C1 : compiling s s1) by (by apply quiet_compiling).
  destruct R1 as [[]|e|m]; try (intros [= <- _]; split; [done|intros _; apply Hq1]).
  unfold bind at 1.
  destruct (connectDefinitions s1) as [s2 R2|] eqn:H2; [|done].
  destruct (connectDefinitions_quiet _ _ _ H2) as [Hq2 Hc2].
  assert (Q2 : quiet s s2) by (by eapply quiet_trans).
  assert (O2 : sameOptions s.1 s2.1) by (by rewrite Hc2).
  destruct R2 as [[]|e|m];
    try (intros [= <- _]; split; [by apply quiet_compiling|intros _; apply Q2]).
  unfold bind at 1.
  destruct (verifyCycles fuel s2) as [s3 R3|] eqn:H3; [|done].
  destruct (verifyCycles_quiet _ _ _ _ H3) as [Hq3 Hc3].
  assert (Q3 : quiet s s3) by (by eapply quiet_trans).
  assert (O3 : sameOptions s.1 s3.1) by (by rewrite Hc3).
  destruct R3 as [[]|e|m];
    try (intros [= <- _]; split; [by apply quiet_compiling|intros _; apply Q3]).
  intros H4. destruct (applyModifiers_compiling _ _ _ _ H4) as (C4 & Hc4 & Hnil).
  split.
  - eapply compiling_trans; [by apply quiet_compiling|exact C4].
  - intros Hmods. rewrite Hnil; [apply Q3|]. destruct O3 as (_ & _ & ->). done.
Qed.


(** X12: the container that [New] returns has the providers and the
    modifiers that the options gave, and a logger: the one that the
    options set, and the default logger when they set none. *)
Theorem New_keeps_options (fuel : nat) (options : list Option)
    (w w' : world) (c : Container) (oe : option error) :
  New code fuel options w = Done w' (Ret (Some c, oe)) →
  providers c = providers (configured options) ∧
  modifiers c = modifiers (configured options) ∧
  logger c = logger (configured options) ∧
  logger c = Some (default defaultLogger (logger (foldl (λ c opt, opt c)
                      {| logger := None; providers := []; modifiers := [];
                         storage := Storage.empty |} options))).
Proof.
  rewrite New_unfold.
  destruct (compile code fuel (configured options, w)) as [[c1 w1] R1|] eqn:Hc; [|done].
  destruct (compile_frame _ _ _ _ Hc) as (((Hl & Hp & Hmo) & _) & _). simpl in *.
  destruct R1 as [[]|e|m]; try done. intros [= <- <- <-].
  split_and!; try done. rewrite Hl. unfold configured. cbv zeta.
  match goal with |- context [default _ (logger ?x)] => destruct (logger x) eqn:E end;
    [exact E|done].
Qed.

(** X13: every provider is registered, once.  When the options leave
    the storage empty and [New] returns a container, [all] lists in it
    as many definitions as there are providers, none nil and no two the
    same, and whatever [get] returns is among them. *)
Theorem New_registers_every_provider (fuel : nat) (options : list Option)
    (w w' : world) (c : Container) (oe : option error) :
  storage (configured options) = Storage.empty →
  New code fuel options w = Done w' (Ret (Some c, oe)) →
  ∃ ps, Storage.all (storage c) = Some <$> ps ∧ NoDup ps ∧
        length ps = length (providers c) ∧
        (∀ k p, Storage.get (storage c) k = Ret p → p ∈ ps).
Proof.
  intros Hs. rewrite New_unfold.
  destruct (compile code fuel (configured options, w)) as [[c1 w1] R1|] eqn:Hc; [|done].
  destruct R1 as [[]|e|m]; try done. intros [= <- <- <-].
  destruct (compile_outcome code _ _ _ _ Hc) as ([ca wa] & [cb wb] & [cc wc] & H1 & H2 & H3 & H4).
  destruct (registerProviders_registry _ _ _ _ Hs H1)
    as (ps & (Hall & Hnd & _ & Hget) & _ & Hlen & (_ & Hp & _) & _).
  destruct (connectDefinitions_quiet _ _ _ H2) as [_ E2].
  destruct (verifyCycles_quiet _ _ _ _ H3) as [_ E3].
  destruct (applyModifiers_compiling _ _ _ _ H4) as (_ & E4 & _).
  simpl in *. subst. exists ps. split_and!; try done. congruence.
Qed.

End CompileFrame.

(** ** The further properties at work on the examples *)

(** The modifier [func(c *C)] applied to it: the run succeeds, and the
    call of the modifier ends the log. *)
Lemma server_example_applied :
  ∃ s' evs f args,
    apply Examples.code0 1 (Examples.modify 5 [Examples.tC] []) serverState
      = Done s' (Ret ()) ∧
    w_calls s'.2 = w_calls serverState.2 ++ evs ++ [modifierCall f args].
Proof.
  assert (H : Examples.returned
                (apply Examples.code0 1 (Examples.modify 5 [Examples.tC] []) serverState)
              = true) by (vm_compute; reflexivity).
  apply returned_inv in H as (s' & [] & H).
  destruct (apply_trace Examples.code0 _ _ _ _ _ H) as (_ & _ & _ & evs & Hevs & Hcase).
  destruct Hcase as [(_ & Hno & _)|(evs0 & f & ins & outs & args & _ & Heq & _)].
  - destruct (Hno eq_refl).
  - exists s', evs0, f, args. split; [exact H|]. rewrite Hevs. f_equal. exact Heq.
Qed.

Lemma newResult_inv (r : run world (option Container * option error)) (oe : option error) :
  Examples.newResult r = Some (true, oe) → ∃ w' c, r = Done w' (Ret (Some c, oe)).
Proof.
  destruct r as [w' [[[c|] e]| |]|]; try done; simpl.
  intros [= <-]. by exists w', c.
Qed.

Lemma chain_example_built :
  ∃ w' c, New Examples.code0 4 [Examples.Provide Examples.chainProviders] Examples.w0
          = Done w' (Ret (Some c, None)).
Proof. apply newResult_inv. vm_compute. reflexivity. Qed.

Lemma all_lists_bindings_witness :
  grows Storage.empty (Storage.add Examples.serverDefs Storage.empty 0).1 ∧
  length (Storage.all (Storage.add Examples.serverDefs Storage.empty 0).1)
  = size (Storage.defs (Storage.add Examples.serverDefs Storage.empty 0).1).
Proof.
  assert (Hg : grows Storage.empty (Storage.add Examples.serverDefs Storage.empty 0).1)
    by (apply grows_add, grows_refl).
  split; [exact Hg|].
  exact (proj1 (proj2 (proj2 (StorageGrowth.all_lists_bindings _ Hg)))).
Defined.

Lemma get_returns_listed_witness :
  grows Storage.empty (Storage.addAll Examples.serverDefs Storage.empty [0; 1]).1 ∧
  Storage.get (Storage.addAll Examples.serverDefs Storage.empty [0; 1]).1
    (keyOf Examples.tServer) = Ret 0 ∧
  Some 0 ∈ Storage.all (Storage.addAll Examples.serverDefs Storage.empty [0; 1]).1.
Proof.
  assert (Hg : grows Storage.empty
                 (Storage.addAll Examples.serverDefs Storage.empty [0; 1]).1).
  { destruct (StorageGrowth.addAll_listing _ _ _ _ StorageGrowth.coherent_empty
                server_example_registered) as [Hg _]. exact Hg. }
  assert (Hget : Storage.get (Storage.addAll Examples.serverDefs Storage.empty [0; 1]).1
                   (keyOf Examples.tServer) = Ret 0) by (vm_compute; reflexivity).
  split; [exact Hg|]. split; [exact Hget|].
  exact (StorageGrowth.get_returns_listed _ _ _ Hg Hget).
Defined.

Lemma get_after_add_witness :
  Examples.serverDefs !! 0 = Some (Examples.claimant 2 Examples.tB [keyOf Examples.tServer]) ∧
  Storage.get (Storage.add Examples.serverDefs Storage.empty 0).1 (keyOf Examples.tB) = Ret 0 ∧
  Storage.get (Storage.add Examples.serverDefs Storage.empty 0).1 (keyOf Examples.tServer)
    = Ret 0.
Proof.
  assert (H0 : Examples.serverDefs !! 0
               = Some (Examples.claimant 2 Examples.tB [keyOf Examples.tServer]))
    by (vm_compute; reflexivity).
  split; [exact H0|].
  destruct (StorageGrowth.get_after_add Examples.serverDefs Storage.empty 0 _ H0)
    as [Hown Hother]; [vm_compute; reflexivity|].
  split; [exact Hown|]. rewrite (Hother (keyOf Examples.tServer)) by done.
  vm_compute. reflexivity.
Defined.

Lemma storage_only_grows_witness :
  grows (Storage.add Examples.serverDefs Storage.empty 0).1
        (Storage.add Examples.serverDefs
           (Storage.add Examples.serverDefs Storage.empty 0).1 1).1 ∧
  Storage.keys (Storage.add Examples.serverDefs Storage.empty 0).1
    `prefix_of` Storage.keys (Storage.add Examples.serverDefs
                   (Storage.add Examples.serverDefs Storage.empty 0).1 1).1.
Proof.
  assert (Hg : grows (Storage.add Examples.serverDefs Storage.empty 0).1
                 (Storage.add Examples.serverDefs
                    (Storage.add Examples.serverDefs Storage.empty 0).1 1).1)
    by (apply grows_add, grows_refl).
  split; [exact Hg|]. exact (proj1 (StorageGrowth.storage_only_grows _ _ Hg)).
Defined.

Lemma registered_are_listed_and_found_witness :
  Storage.addAll Examples.serverDefs Storage.empty [0; 1]
    = ((Storage.addAll Examples.serverDefs Storage.empty [0; 1]).1, Ret ()) ∧
  Storage.all (Storage.addAll Examples.serverDefs Storage.empty [0; 1]).1 = [Some 0; Some 1].
Proof.
  split; [exact server_example_registered|].
  exact (proj1 (StorageGrowth.registered_are_listed_and_found _ _ _
                  server_example_registered)).
Defined.

Lemma apply_signature_check_witness :
  apply Examples.code0 1 {| mo_modifier := nil |} serverState
  = Done serverState (Fail (ENew "nil modifier")).
Proof.
  exact (proj1 (apply_signature_check Examples.code0 1 {| mo_modifier := nil |} serverState)
           eq_refl).
Defined.


Lemma apply_passes_instances_witness :
  ∃ s' evs f args,
    apply Examples.code0 1 (Examples.modify 5 [Examples.tC] []) serverState
      = Done s' (Ret ()) ∧
    w_calls s'.2 = w_calls serverState.2 ++ evs ++ [modifierCall f args] ∧
    ∃ ins outs,
      mo_modifier (Examples.modify 5 [Examples.tC] []) = box (TFunc ins outs) (DFunc (Some f)) ∧
      Forall2 (λ t v, ∃ def, Storage.get (storage serverState.1) (keyOf t) = Ret def ∧
                             cached (w_defs s'.2) def v) ins args.
Proof.
  destruct server_example_applied as (s' & evs & f & args & Hrun & Hlog).
  exists s', evs, f, args. split; [exact Hrun|]. split; [exact Hlog|].
  exact (apply_passes_instances Examples.code0 1 _ _ _ _ evs f args Hrun Hlog).
Defined.

Lemma apply_outcome_after_call_witness :
  ∃ s' evs f args,
    apply Examples.code0 1 (Examples.modify 5 [Examples.tC] []) serverState
      = Done s' (Ret ()) ∧
    w_calls s'.2 = w_calls serverState.2 ++ evs ++ [modifierCall f args] ∧
    ∃ ins, mo_modifier (Examples.modify 5 [Examples.tC] [])
           = box (TFunc ins []) (DFunc (Some f)).
Proof.
  destruct server_example_applied as (s' & evs & f & args & Hrun & Hlog).
  exists s', evs, f, args. split; [exact Hrun|]. split; [exact Hlog|].
  destruct (apply_outcome_after_call Examples.code0 1 _ _ _ _ evs f args Hrun Hlog)
    as (ins & outs & Hmo & [[-> _]|[(t & e & _ & _ & _ & H)|(t & _ & _ & _ & H)]]).
  - by exists ins.
  - discriminate H.
  - discriminate H.
Defined.

Lemma apply_typed_nil_function_witness :
  apply Examples.code0 1 {| mo_modifier := box (TFunc [] []) (DFunc None) |} serverState
    = Done serverState (Panic "reflect: call of a value that is not a function") ∧
  ∃ evs, w_calls serverState.2 = w_calls serverState.2 ++ evs ∧ constructorCalls evs.
Proof.
  assert (H : apply Examples.code0 1 {| mo_modifier := box (TFunc [] []) (DFunc None) |}
                serverState
              = Done serverState (Panic "reflect: call of a value that is not a function"))
    by reflexivity.
  split; [exact H|].
  exact (proj2 (apply_typed_nil_function Examples.code0 1 [] [] _ _ _ H)).
Defined.

Lemma connect_edges_balanced_witness :
  ∃ c1 c2 wA w1,
    connectDefinitions (c1, wA) = Done (c2, w1) (Ret ()) ∧
    c2 = c1 ∧ w_calls w1 = w_calls wA.
Proof.
  destruct cyclic_example_wired as (c1 & c2 & wA & w1 & _ & Hconn).
  exists c1, c2, wA, w1. split; [exact Hconn|].
  destruct (connect_edges_balanced c1 wA (c2, w1) Hconn) as (Hc & _ & Hcalls & _).
  split; [exact Hc|exact Hcalls].
Defined.


Lemma New_keeps_options_witness :
  ∃ w' c,
    New Examples.code0 4 [Examples.Provide Examples.chainProviders] Examples.w0
      = Done w' (Ret (Some c, None)) ∧
    providers c = Examples.chainProviders ∧ logger c = Some defaultLogger.
Proof.
  destruct chain_example_built as (w' & c & Hnew).
  exists w', c. split; [exact Hnew|].
  destruct (New_keeps_options Examples.code0 _ _ _ _ _ _ Hnew) as (Hp & _ & _ & Hl).
  split; [exact Hp|exact Hl].
Defined.

Lemma New_registers_every_provider_witness :
  ∃ w' c ps,
    New Examples.code0 4 [Examples.Provide Examples.chainProviders] Examples.w0
      = Done w' (Ret (Some c, None)) ∧
    Storage.all (storage c) = Some <$> ps ∧ length ps = length (providers c).
Proof.
  destruct chain_example_built as (w' & c & Hnew).
  destruct (New_registers_every_provider Examples.code0 4
              [Examples.Provide Examples.chainProviders] Examples.w0 w' c None eq_refl Hnew)
    as (ps & Hall & _ & Hlen & _).
  exists w', c, ps. split; [exact Hnew|]. split; [exact Hall|exact Hlen].
Defined.

